(** * goshl: segmentation, rendition planning, pool and worker logic

    A shallow embedding of the segment production core of goshl
    (package playlist, rendition, segment and transcode), of the choice
    of the acceleration backend (package hwaccel), the encoder arguments
    (package ffmpeg) and the controller's segment requests, together with
    the properties its specification states about it and further
    properties read off the code.

    Conventions of the embedding.
    - Go [float64] is Rocq's primitive [float] (IEEE-754 binary64), so
      subtraction and the comparisons [<], [<=], [>=] are the machine ones,
      NaN included.
    - Go [int] is a 64-bit two's complement integer, modelled as [Z] with the
      wrap-around written out where the source can overflow ([wrap64]).
    - Go [string] is [string]; an [error] is the text of its [Error()].
    - Calls into collaborators (Storage, Coordinator, the file system, the
      encoder process) are nodes of a program tree [prog]; an arbitrary
      handler answers them and the interpreter records every call. *)

From Stdlib Require Import ZArith List String Ascii Bool Lia Floats
  DecimalString DecimalPos.
Import ListNotations.

#[local] Set Warnings "-inexact-float".
#[local] Open Scope Z_scope.

(* ================================================================== *)
(** ** Go base types and library functions used by the source *)

Module Go.

Definition error := string.

Inductive result (A : Type) : Type :=
| Ok (a : A)
| Err (e : error).
Arguments Ok {A} a.
Arguments Err {A} e.

Definition min_int : Z := - 2 ^ 63.
Definition max_int : Z := 2 ^ 63 - 1.

(** Two's complement wrap-around of 64-bit [int] arithmetic. *)
Definition wrap64 (z : Z) : Z := (z + 2 ^ 63) mod 2 ^ 64 - 2 ^ 63.

(** [float64(n)]: the nearest binary64, ties to even. *)
Definition float64 (n : Z) : float :=
  SF2Prim (binary_normalize prec emax n 0 false).

(** [int(f)]: truncation toward zero.  The Go specification leaves the
    result open when the value does not fit; the model takes the amd64
    answer (CVTTSD2SI's integer indefinite value, the smallest int). *)
Definition int (f : float) : Z :=
  match Prim2SF f with
  | S754_zero _ => 0
  | S754_finite s m e =>
      let mag := if 0 <=? e then Z.pos m * 2 ^ e else Z.pos m / 2 ^ (- e) in
      let v := if s then - mag else mag in
      if (min_int <=? v) && (v <=? max_int) then v else min_int
  | S754_infinity _ | S754_nan => min_int
  end.

(** *** Strings.  ["\n"] and the double quote are written by code. *)

Definition nl : string := String "010"%char EmptyString.
Definition dq : string := String "034"%char EmptyString.

Definition bytes := list Byte.byte.

(** [fmt.Sprintf("%d", n)]. *)
Definition itoa (n : Z) : string :=
  DecimalString.NilZero.string_of_int (Z.to_int n).

(** White space as [unicode.IsSpace] sees it, in the UTF-8 encoding a Go
    string holds: the six ASCII characters tab, line feed, vertical tab,
    form feed, carriage return and space; U+0085 and U+00A0 (two bytes);
    U+1680, U+2000 to U+200A, U+2028, U+2029, U+202F, U+205F and U+3000
    (three bytes). *)
Definition isSpace (c : ascii) : bool :=
  let n := N_of_ascii c in
  ((9 <=? n) && (n <=? 13) || (n =? 32))%N.

Definition isSpace2 (a b : ascii) : bool :=
  let a := N_of_ascii a in
  let b := N_of_ascii b in
  ((a =? 194) && ((b =? 133) || (b =? 160)))%N.

Definition isSpace3 (a b c : ascii) : bool :=
  let a := N_of_ascii a in
  let b := N_of_ascii b in
  let c := N_of_ascii c in
  ((a =? 225) && (b =? 154) && (c =? 128) ||
   (a =? 226) && (b =? 128) &&
     ((128 <=? c) && (c <=? 138) || (c =? 168) || (c =? 169) || (c =? 175)) ||
   (a =? 226) && (b =? 129) && (c =? 159) ||
   (a =? 227) && (b =? 128) && (c =? 128))%N.

(** [strings.TrimLeftFunc(s, unicode.IsSpace)]: the runes are decoded
    from the left, and a byte that starts no white space rune ends the
    trimming (an invalid byte decodes to U+FFFD, which is no space). *)
Fixpoint trimLeft (s : string) : string :=
  match s with
  | EmptyString => EmptyString
  | String a s1 =>
      if isSpace a then trimLeft s1
      else
        match s1 with
        | String b s2 =>
            if isSpace2 a b then trimLeft s2
            else
              match s2 with
              | String c s3 => if isSpace3 a b c then trimLeft s3 else s
              | EmptyString => s
              end
        | EmptyString => s
        end
  end.

(** A string made of white space runes only. *)
Fixpoint allSpace (s : string) : bool :=
  match s with
  | EmptyString => true
  | String a s1 =>
      if isSpace a then allSpace s1
      else
        match s1 with
        | String b s2 =>
            if isSpace2 a b then allSpace s2
            else
              match s2 with
              | String c s3 => isSpace3 a b c && allSpace s3
              | EmptyString => false
              end
        | EmptyString => false
        end
  end.

(** [strings.TrimRightFunc(s, unicode.IsSpace)]: the runes are decoded
    from the right and removed while they are white space.  No encoding
    of a white space rune ends another one, so what is removed is the
    longest end of [s] made of white space runes. *)
Fixpoint trimRight (s : string) : string :=
  match s with
  | EmptyString => EmptyString
  | String c s' => if allSpace s then EmptyString else String c (trimRight s')
  end.

(** [strings.TrimSpace]. *)
Definition TrimSpace (s : string) : string := trimRight (trimLeft s).

(** [strings.TrimSuffix]. *)
Fixpoint TrimSuffix (s suffix : string) : string :=
  if String.eqb s suffix then EmptyString
  else match s with
       | EmptyString => EmptyString
       | String c s' => String c (TrimSuffix s' suffix)
       end.

(** [strings.Split(s, sep)] for a one-byte separator: always at least one
    part. *)
Fixpoint Split (s : string) (sep : ascii) : list string :=
  match s with
  | EmptyString => [EmptyString]
  | String c s' =>
      if Ascii.eqb c sep then EmptyString :: Split s' sep
      else match Split s' sep with
           | part :: parts => String c part :: parts
           | [] => [String c EmptyString]
           end
  end.

Definition digit (c : ascii) : option Z :=
  let n := Z.of_N (N_of_ascii c) in
  if (48 <=? n) && (n <=? 57) then Some (n - 48) else None.

Fixpoint digits (acc : Z) (s : string) : option Z :=
  match s with
  | EmptyString => Some acc
  | String c s' =>
      match digit c with
      | Some d => digits (10 * acc + d) s'
      | None => None
      end
  end.

Definition hexDigit (n : N) : ascii :=
  ascii_of_N (if (n <? 10)%N then 48 + n else 87 + n).

(** [strconv.Quote] for text of ASCII bytes: the quote and the backslash
    get a backslash, a control character its escape.  (A byte from 0x80
    on is kept; [strconv] escapes it when it is no part of a valid UTF-8
    encoding of a printable rune.  The worker drops the error of
    [parseSegmentIndex], so no call of the modelled code depends on the
    text.) *)
Definition quoteByte (c : ascii) : string :=
  let n := N_of_ascii c in
  if ((n =? 34) || (n =? 92))%N then String "\"%char (String c EmptyString)
  else if (n =? 7)%N then "\a"%string
  else if (n =? 8)%N then "\b"%string
  else if (n =? 12)%N then "\f"%string
  else if (n =? 10)%N then "\n"%string
  else if (n =? 13)%N then "\r"%string
  else if (n =? 9)%N then "\t"%string
  else if (n =? 11)%N then "\v"%string
  else if ((n <? 32) || (n =? 127))%N then
    String "\"%char
      (String "x"%char
         (String (hexDigit (n / 16)) (String (hexDigit (n mod 16))
                                        EmptyString)))
  else String c EmptyString.

Fixpoint quoteBytes (s : string) : string :=
  match s with
  | EmptyString => EmptyString
  | String c s' => (quoteByte c ++ quoteBytes s')%string
  end.

Definition Quote (s : string) : string := (dq ++ quoteBytes s ++ dq)%string.

Definition numError (s reason : string) : error :=
  ("strconv.Atoi: parsing " ++ Quote s ++ ": " ++ reason)%string.

(** [strconv.Atoi]: an optional sign, then one or more decimal digits, the
    value within the range of [int]. *)
Definition Atoi (s : string) : result Z :=
  let '(neg, body) :=
    match s with
    | String "-"%char s' => (true, s')
    | String "+"%char s' => (false, s')
    | _ => (false, s)
    end in
  match body with
  | EmptyString => Err (numError s "invalid syntax")
  | _ =>
      match digits 0 body with
      | None => Err (numError s "invalid syntax")
      | Some v =>
          let v := if neg then - v else v in
          if (min_int <=? v) && (v <=? max_int) then Ok v
          else Err (numError s "value out of range")
      end
  end.

(** [for i := lo; i <= hi; i++] on ints, as it runs: the values [i]
    takes when the loop ends within [rounds] tests of its condition, and
    [None] when it does not.  [i++] wraps around, so with [hi] the
    largest int the condition never fails and the loop does not end. *)
Fixpoint forLoop (rounds : nat) (i hi : Z) : option (list Z) :=
  match rounds with
  | O => None
  | S rounds' =>
      if i <=? hi
      then option_map (cons i) (forLoop rounds' (wrap64 (i + 1)) hi)
      else Some []
  end.

(** The indices of [for i := lo; i <= hi; i++] for ints [lo] and [hi]
    with [hi] below the largest int, where the loop ends ([forLoop_upto]
    below).  With [hi] the largest int the loop does not end
    ([forLoop_endless]); the statements about a program with such a loop
    carry the bound. *)
Definition upto (lo hi : Z) : list Z :=
  map (fun k => lo + Z.of_nat k) (seq 0 (Z.to_nat (hi - lo + 1))).

(** *** [math] and the ['f'] format of [strconv] *)

(** [math.Ceil]: the least integer value not below [f]; zeros, infinities
    and NaN are returned as they are, and a negative fraction above -1
    gives the negative zero. *)
Definition Ceil (f : float) : float :=
  match Prim2SF f with
  | S754_finite s m e =>
      if 0 <=? e then f
      else
        let q := Z.pos m / 2 ^ (- e) in
        let r := Z.pos m mod 2 ^ (- e) in
        if s then (- float64 q)%float
        else float64 (if r =? 0 then q else q + 1)
  | _ => f
  end.

(** [num / den] rounded to the nearest integer, ties to even, for
    [0 <= num] and [0 < den]: the rounding of the exact decimal expansion
    that [strconv.FormatFloat] makes. *)
Definition roundHalfEven (num den : Z) : Z :=
  let q := num / den in
  let r := num mod den in
  if 2 * r <? den then q
  else if den <? 2 * r then q + 1
  else if Z.even q then q else q + 1.

Fixpoint zeros (n : nat) : string :=
  match n with
  | O => EmptyString
  | S n' => String "0"%char (zeros n')
  end.

(** The digits of [scaled / 10^prec] with [prec] decimals. *)
Definition fixedDigits (prec : nat) (scaled : Z) : string :=
  let unit := 10 ^ Z.of_nat prec in
  let whole := itoa (scaled / unit) in
  match prec with
  | O => whole
  | _ =>
      let frac := itoa (scaled mod unit) in
      (whole ++ "." ++ zeros (prec - String.length frac) ++ frac)%string
  end.

(** [fmt.Sprintf("%.<prec>f", f)]. *)
Definition formatFixed (prec : nat) (f : float) : string :=
  match Prim2SF f with
  | S754_nan => "NaN"%string
  | S754_infinity s => if s then "-Inf"%string else "+Inf"%string
  | S754_zero s =>
      ((if s then "-" else EmptyString) ++ fixedDigits prec 0)%string
  | S754_finite s m e =>
      let unit := 10 ^ Z.of_nat prec in
      let scaled :=
        if 0 <=? e then Z.pos m * 2 ^ e * unit
        else roundHalfEven (Z.pos m * unit) (2 ^ (- e)) in
      ((if s then "-" else EmptyString) ++ fixedDigits prec scaled)%string
  end.

(** [strings.Join]. *)
Fixpoint Join (elems : list string) (sep : string) : string :=
  match elems with
  | [] => EmptyString
  | [e] => e
  | e :: rest => (e ++ sep ++ Join rest sep)%string
  end.

End Go.

(* ================================================================== *)
(** ** package domain *)

Module domain.

Module Segment.
Record t : Type := mk
  { Index : Z; Start : float; End : float; Duration : float }.
End Segment.

Module SegmentData.
Record t : Type := mk
  { SourceURL : string; Index : Z; StartPTS : Z; EndPTS : Z;
    Duration : float; Rendition : string; IsVideo : bool }.
End SegmentData.

(** [type StreamType string]. *)
Definition StreamType := string.
Definition StreamVideo : StreamType := "video"%string.
Definition StreamAudio : StreamType := "audio"%string.
Definition StreamSubtitle : StreamType := "subtitle"%string.

Inductive PlaybackMethod : Type := DirectPlay | DirectStream | Transcode.

Module VideoRendition.
Record t : Type := mk
  { Name : string; Width : Z; Height : Z; Bitrate : Z;
    Method : PlaybackMethod }.
End VideoRendition.

Module AudioRendition.
Record t : Type := mk
  { Name : string; Codec : string; Bitrate : Z; Channels : Z;
    Method : PlaybackMethod }.
End AudioRendition.

Module VideoStream.
Record t : Type := mk
  { Index : Z; Codec : string; Width : Z; Height : Z; Bitrate : Z;
    FrameRate : float }.
End VideoStream.

Module AudioStream.
Record t : Type := mk
  { Index : Z; Codec : string; Language : string; Channels : Z;
    Bitrate : Z }.
End AudioStream.

Module SubtitleStream.
Record t : Type := mk
  { Index : Z; Codec : string; Language : string; Forced : bool }.
End SubtitleStream.

Module Metadata.
Record t : Type := mk
  { Duration : float; Keyframes : list float; Video : VideoStream.t;
    Audios : list AudioStream.t; Subtitles : list SubtitleStream.t }.
End Metadata.

Module Job.
Record t : Type := mk
  { ID : string; SourceURL : string; Rendition : string;
    StreamType : StreamType; StartIndex : Z; EndIndex : Z }.
End Job.

Inductive SegmentState : Type := SegmentStateReady | SegmentStateError.

Module SegmentStatus.
Record t : Type := mk { State : SegmentState; Error : string }.
End SegmentStatus.

(** The interface [PathGenerator]: pure URL rendering. *)
Module PathGenerator.
Record t : Type := mk
  { MasterPlaylist : string -> string;
    VariantPlaylist : string -> string -> StreamType -> string;
    Segment : string -> string -> StreamType -> Z -> string;
    SpriteVTT : string -> string;
    Sprite : string -> Z -> string;
    SubtitleVTT : string -> string -> string }.
End PathGenerator.

(** [type Accelerator string]. *)
Definition Accelerator := string.
Definition AccelNone : Accelerator := "none"%string.
Definition AccelCUDA : Accelerator := "cuda"%string.
Definition AccelVideoToolbox : Accelerator := "videotoolbox"%string.
Definition AccelVAAPI : Accelerator := "vaapi"%string.
Definition AccelQSV : Accelerator := "qsv"%string.

Module HWAccelConfig.
Record t : Type := mk
  { Accelerator : Accelerator; DecodeFlags : list string;
    EncodeFlags : list string; Encoder : string; KeyframeFlag : string;
    ScaleFilter : string }.
End HWAccelConfig.

End domain.

(* ================================================================== *)
(** ** Calls into collaborators

    [call] is one call and [answer] the type of what it returns: the
    methods of [domain.Storage] and [domain.Coordinator] the modelled code
    uses, the [os] calls, the context, and the encoder process.  A program
    is a tree of calls; [exec] runs it against a handler over a world [W]
    and returns the calls made, in order, with their answers. *)

Module effect.
Import Go domain.

Inductive call : Type :=
| Storage_GetMetadata (sourceURL : string)
| Storage_WriteSegment (info : SegmentData.t) (data : bytes)
| Coordinator_NotifySegment (info : SegmentData.t)
    (status : SegmentStatus.t)
| Coordinator_Ack (jobID : string)
| os_MkdirTemp (dir pattern : string)
| os_RemoveAll (path : string)
| os_Remove (path : string)
| os_ReadFile (path : string)
| ctx_Done
| ctx_Err
| cmd_Wait
| Worker_Start (args : list string) (sourceURL rendition : string)
    (isVideo : bool) (tmpDir : string) (skipFirst : bool)
| Pool_waitForWorker.

(** What a call returns; an [error] result is [None] for [nil]. *)
Definition answer (c : call) : Type :=
  match c with
  | Storage_GetMetadata _ => result bytes
  | Storage_WriteSegment _ _ => option error
  | Coordinator_NotifySegment _ _ => option error
  | Coordinator_Ack _ => option error
  | os_MkdirTemp _ _ => result string
  | os_RemoveAll _ => option error
  | os_Remove _ => option error
  | os_ReadFile _ => result bytes
  | ctx_Done => bool
  | ctx_Err => option error
  | cmd_Wait => option error
  | Worker_Start _ _ _ _ _ _ => option error
  | Pool_waitForWorker => unit
  end.

Inductive prog (A : Type) : Type :=
| Ret (a : A)
| Vis (c : call) (k : answer c -> prog A).
Arguments Ret {A} a.
Arguments Vis {A} c k.

Fixpoint bind {A B : Type} (p : prog A) (f : A -> prog B) : prog B :=
  match p with
  | Ret a => f a
  | Vis c k => Vis c (fun r => bind (k r) f)
  end.

Definition perform (c : call) : prog (answer c) := Vis c Ret.

Record event : Type := Event { made : call; got : answer made }.

Definition handler (W : Type) : Type := forall c, W -> answer c * W.

Fixpoint exec {W A : Type} (h : handler W) (p : prog A) (w : W)
    : A * W * list event :=
  match p with
  | Ret a => (a, w, [])
  | Vis c k =>
      let '(r, w1) := h c w in
      let '(a, w2, tr) := exec h (k r) w1 in
      (a, w2, Event c r :: tr)
  end.

End effect.

Declare Scope prog_scope.
Delimit Scope prog_scope with prog.
Notation "x <- p ;; q" := (effect.bind p (fun x => q))
  (at level 61, p at next level, right associativity) : prog_scope.
Notation "p ;; q" := (effect.bind p (fun _ => q))
  (at level 61, right associativity) : prog_scope.

(* ================================================================== *)
(** ** package rendition: the rendition planner *)

Module rendition.
Import Go domain.

Record bounds : Type := mkBounds { min : Z; max : Z }.

Definition targetHeights : list Z := [2160; 1080; 720; 480; 360].

(** [var bitrateBounds = map[int]bounds{...}]; [None] is a missing key. *)
Definition bitrateBounds (height : Z) : option bounds :=
  if height =? 2160 then Some (mkBounds 8000000 20000000)
  else if height =? 1080 then Some (mkBounds 2000000 8000000)
  else if height =? 720 then Some (mkBounds 1000000 4000000)
  else if height =? 480 then Some (mkBounds 500000 2000000)
  else if height =? 360 then Some (mkBounds 300000 1000000)
  else None.

Definition directStreamCodecs (codec : string) : bool :=
  String.eqb codec "h264".

Definition calculateWidth (srcWidth srcHeight targetHeight : Z) : Z :=
  let aspectRatio := (float64 srcWidth / float64 srcHeight)%float in
  let width := int (float64 targetHeight * aspectRatio)%float in
  if negb (Z.rem width 2 =? 0) then wrap64 (width + 1) else width.

Definition clampBitrate (height bitrate : Z) : Z :=
  match bitrateBounds height with
  | None => bitrate
  | Some b =>
      if bitrate <? min b then min b
      else if max b <? bitrate then max b
      else bitrate
  end.

Definition estimateBitrate (height : Z) : Z :=
  if 2160 <=? height then 15000000
  else if 1080 <=? height then 5000000
  else if 720 <=? height then 2500000
  else if 480 <=? height then 1200000
  else 800000.

(** The rendition one iteration of
    [for _, targetHeight := range targetHeights] appends when the height
    is not skipped. *)
Definition emit (srcWidth srcHeight srcBitrate srcPixels : Z)
    (srcCodec : string) (targetHeight : Z) : VideoRendition.t :=
  let targetWidth := calculateWidth srcWidth srcHeight targetHeight in
  let targetPixels := wrap64 (targetWidth * targetHeight) in
  let ratio := (float64 targetPixels / float64 srcPixels)%float in
  let bitrate := int (float64 srcBitrate * ratio)%float in
  let bitrate := clampBitrate targetHeight bitrate in
  let method :=
    if directStreamCodecs srcCodec && (targetHeight =? srcHeight)
    then DirectStream else Transcode in
  VideoRendition.mk (itoa targetHeight ++ "p")%string targetWidth
    targetHeight bitrate method.

(** The body of the loop, [continue] included. *)
Definition videoStep (srcWidth srcHeight srcBitrate srcPixels : Z)
    (srcCodec : string) (renditions : list VideoRendition.t)
    (targetHeight : Z) : list VideoRendition.t :=
  if srcHeight <? targetHeight then renditions
  else
    renditions ++
      [emit srcWidth srcHeight srcBitrate srcPixels srcCodec targetHeight].

Definition GenerateVideo (video : VideoStream.t) : list VideoRendition.t :=
  let srcWidth := VideoStream.Width video in
  let srcHeight := VideoStream.Height video in
  let srcBitrate := VideoStream.Bitrate video in
  let srcPixels := wrap64 (srcWidth * srcHeight) in
  let srcCodec := VideoStream.Codec video in
  let srcBitrate :=
    if srcBitrate <=? 0 then estimateBitrate srcHeight else srcBitrate in
  fold_left (videoStep srcWidth srcHeight srcBitrate srcPixels srcCodec)
    targetHeights [].

Definition passthroughCodecs (codec : string) : bool :=
  String.eqb codec "ac3" || String.eqb codec "eac3".

Definition GenerateAudio (audio : AudioStream.t) : list AudioRendition.t :=
  let renditions := [AudioRendition.mk "aac_stereo" "aac" 128000 2 Transcode] in
  let renditions :=
    if 6 <=? AudioStream.Channels audio then
      renditions ++ [AudioRendition.mk "aac_surround" "aac" 384000 6 Transcode]
    else renditions in
  if passthroughCodecs (AudioStream.Codec audio) then
    renditions ++
      [AudioRendition.mk (AudioStream.Codec audio ++ "_passthrough")%string
         (AudioStream.Codec audio) (AudioStream.Bitrate audio)
         (AudioStream.Channels audio) DirectStream]
  else renditions.

End rendition.

(* ================================================================== *)
(** ** package playlist: the segmenter and the master playlist *)

Module playlist.
Import domain.

(** The loop state of [CalculateSegments]: the slice built so far and the
    two cursor variables. *)
Record walk : Type := mkWalk
  { segments : list Segment.t; segmentStart : float; segmentIndex : Z }.

(** One iteration of [for i := 1; i < len(keyframes); i++] at
    [keyframes[i] = k]. *)
Definition step (targetDuration : float) (st : walk) (k : float) : walk :=
  let elapsed := (k - segmentStart st)%float in
  if (targetDuration <=? elapsed)%float then
    {| segments := segments st ++
         [Segment.mk (segmentIndex st) (segmentStart st) k
            (k - segmentStart st)%float];
       segmentStart := k;
       segmentIndex := segmentIndex st + 1 |}
  else st.

(** The code after the loop: the tail segment, if the cursor is below
    the duration. *)
Definition finish (duration : float) (st : walk) : list Segment.t :=
  if (segmentStart st <? duration)%float then
    segments st ++
      [Segment.mk (segmentIndex st) (segmentStart st) duration
         (duration - segmentStart st)%float]
  else segments st.

Definition CalculateSegments (keyframes : list float) (duration : float)
    (targetDuration : float) : list Segment.t :=
  match keyframes with
  | [] => []
  | k0 :: rest =>
      finish duration
        (fold_left (step targetDuration) rest (mkWalk [] k0 0))
  end.

Record Generator : Type := mkGenerator { pathGen : PathGenerator.t }.

Definition defaultFlag (isDefault : bool) : string :=
  if isDefault then "YES" else "NO".

Definition videoCodecString (video : VideoRendition.t) : string :=
  let h := VideoRendition.Height video in
  if h =? 2160 then "avc1.640033"
  else if h =? 1080 then "avc1.640028"
  else if h =? 720 then "avc1.64001f"
  else if h =? 480 then "avc1.64001e"
  else "avc1.640015".

Definition audioCodecString : string := "mp4a.40.2".

(** The [#EXT-X-MEDIA] line written for one audio rendition. *)
Definition mediaLine (g : Generator) (sourceURL audioGroupID : string)
    (audio : AudioRendition.t) : string :=
  ("#EXT-X-MEDIA:TYPE=AUDIO,GROUP-ID=" ++ Go.dq ++ audioGroupID ++ Go.dq ++
   ",NAME=" ++ Go.dq ++ AudioRendition.Name audio ++ Go.dq ++
   ",DEFAULT=" ++
   defaultFlag (String.eqb (AudioRendition.Name audio) "aac_stereo") ++
   ",AUTOSELECT=YES,URI=" ++ Go.dq ++
   PathGenerator.VariantPlaylist (pathGen g) sourceURL
     (AudioRendition.Name audio) StreamAudio ++ Go.dq ++ Go.nl)%string.

(** The string [streamInf] built for one video rendition. *)
Definition streamInf (audioGroupID : string) (video : VideoRendition.t)
    : string :=
  let codecs := (videoCodecString video ++ "," ++ audioCodecString)%string in
  ("#EXT-X-STREAM-INF:BANDWIDTH=" ++ Go.itoa (VideoRendition.Bitrate video) ++
   ",RESOLUTION=" ++ Go.itoa (VideoRendition.Width video) ++ "x" ++
   Go.itoa (VideoRendition.Height video) ++
   ",CODECS=" ++ Go.dq ++ codecs ++ Go.dq ++
   ",AUDIO=" ++ Go.dq ++ audioGroupID ++ Go.dq)%string.

(** [Generator.Master]; [b] is the [strings.Builder]. *)
Definition Master (g : Generator) (sourceURL : string)
    (videos : list VideoRendition.t) (audios : list AudioRendition.t)
    : string :=
  let b := EmptyString in
  let b := (b ++ ("#EXTM3U" ++ Go.nl))%string in
  let b := (b ++ ("#EXT-X-VERSION:4" ++ Go.nl))%string in
  let b := (b ++ Go.nl)%string in
  let audioGroupID := "audio"%string in
  let b :=
    fold_left (fun b audio => (b ++ mediaLine g sourceURL audioGroupID audio)%string)
      audios b in
  let b := if (0 <? List.length audios)%nat then (b ++ Go.nl)%string else b in
  fold_left
    (fun b video =>
       let b := (b ++ (streamInf audioGroupID video ++ Go.nl))%string in
       (b ++ (PathGenerator.VariantPlaylist (pathGen g) sourceURL
                (VideoRendition.Name video) StreamVideo ++ Go.nl))%string)
    videos b.

(** The loop that finds [maxDuration] in [Generator.Variant]. *)
Definition maxDurationOf (segments : list Segment.t) : float :=
  fold_left
    (fun maxDuration seg =>
       if (maxDuration <? Segment.Duration seg)%float
       then Segment.Duration seg else maxDuration)
    segments 0%float.

(** The string written for [#EXTINF] of one segment, line feed
    included. *)
Definition extinf (seg : Segment.t) : string :=
  ("#EXTINF:" ++ Go.formatFixed 3 (Segment.Duration seg) ++ "," ++
   Go.nl)%string.

(** [Generator.Variant]. *)
Definition Variant (g : Generator) (sourceURL rendition : string)
    (streamType : StreamType) (segments : list Segment.t) : string :=
  let maxDuration := maxDurationOf segments in
  let b := EmptyString in
  let b := (b ++ ("#EXTM3U" ++ Go.nl))%string in
  let b := (b ++ ("#EXT-X-VERSION:4" ++ Go.nl))%string in
  let b :=
    (b ++ ("#EXT-X-TARGETDURATION:" ++
           Go.itoa (Go.int (Go.Ceil maxDuration)) ++ Go.nl))%string in
  let b := (b ++ ("#EXT-X-PLAYLIST-TYPE:VOD" ++ Go.nl))%string in
  let b := (b ++ ("#EXT-X-MEDIA-SEQUENCE:0" ++ Go.nl))%string in
  let b := (b ++ Go.nl)%string in
  let b :=
    fold_left
      (fun b seg =>
         let b := (b ++ extinf seg)%string in
         (b ++ (PathGenerator.Segment (pathGen g) sourceURL rendition
                  streamType (Segment.Index seg) ++ Go.nl))%string)
      segments b in
  (b ++ ("#EXT-X-ENDLIST" ++ Go.nl))%string.

End playlist.

(* ================================================================== *)
(** ** package segment: the notifying store facade *)

Module segment.
Import Go domain effect.
#[local] Open Scope prog_scope.

(** [NotifyingStorage.WriteSegment]; the fields [storage] and
    [coordinator] are the collaborators behind the calls. *)
Definition WriteSegment (info : SegmentData.t) (data : bytes)
    : prog (option error) :=
  err <- perform (Storage_WriteSegment info data) ;;
  match err with
  | Some e =>
      let status := SegmentStatus.mk SegmentStateError e in
      _ <- perform (Coordinator_NotifySegment info status) ;;
      Ret (Some ("storage write: " ++ e)%string)
  | None =>
      let status := SegmentStatus.mk SegmentStateReady EmptyString in
      err <- perform (Coordinator_NotifySegment info status) ;;
      match err with
      | Some e => Ret (Some ("notify segment: " ++ e)%string)
      | None => Ret None
      end
  end.

End segment.

(* ================================================================== *)
(** ** package transcode: batch extraction and keyframe lookup *)

Module transcode.
Import Go domain effect.
#[local] Open Scope prog_scope.

(** The inner loop of [extractSegments],
    [for j := i + 1; j < len(keyframes); j++], written over the slice
    [keyframes[j:]]: the first [j] with
    [keyframes[j] - start >= targetDuration], if any. *)
Fixpoint scan (targetDuration start : float) (rest : list float) (j : nat)
    : option nat :=
  match rest with
  | [] => None
  | k :: rest' =>
      if (targetDuration <=? k - start)%float then Some j
      else scan targetDuration start rest' (S j)
  end.

(** The outer loop of [extractSegments].  The source moves [i] inside the
    body, so the loop is not structural in the slice; [fuel] bounds the
    number of iterations and [None] means the bound was too small
    ([extractLoop_total] shows it never is). *)
Fixpoint extractLoop (fuel : nat) (keyframes : list float) (duration : float)
    (startIdx endIdx : Z) (i : nat) (idx : Z) (segments : list Segment.t)
    : option (list Segment.t) :=
  match fuel with
  | O => None
  | S fuel' =>
      let n := List.length keyframes in
      if (i <? n)%nat then
        let targetDuration := 6.0%float in
        let start := nth i keyframes 0%float in
        let '(end1, i1) :=
          match scan targetDuration start (skipn (S i) keyframes) (S i) with
          | Some j => (nth j keyframes 0%float, (j - 1)%nat)
          | None => (0%float, i)
          end in
        let '(end2, i2) :=
          if (end1 =? 0)%float then
            if (i1 <? n - 1)%nat then (nth (n - 1) keyframes 0%float, n)
            else (duration, i1)
          else (end1, i1) in
        let segments' :=
          if (startIdx <=? idx) && (idx <=? endIdx) then
            segments ++ [Segment.mk idx start end2 (end2 - start)%float]
          else segments in
        let idx' := idx + 1 in
        if endIdx <? idx' then Some segments'
        else extractLoop fuel' keyframes duration startIdx endIdx
               (S i2) idx' segments'
      else Some segments
  end.

(** [Pool.extractSegments].  The loop makes at most [len(keyframes)]
    iterations, so the fuel given here is never exhausted and the
    [None] branch is dead ([extractLoop_total]). *)
Definition extractSegments (keyframes : list float) (duration : float)
    (startIdx endIdx : Z) : list Segment.t :=
  match extractLoop (S (List.length keyframes)) keyframes duration
          startIdx endIdx 0%nat 0 [] with
  | Some segments => segments
  | None => []
  end.

(** The loop state of [findNearestKeyframe]; [stop] records the [break]. *)
Record nearest : Type := mkNearest
  { prevKeyframe : float; result : float; stop : bool }.

Definition nearestStep (target : float) (st : nearest) (kf : float)
    : nearest :=
  if stop st then st
  else if (kf <=? target + 0.001)%float then
    mkNearest (result st) kf false
  else mkNearest (prevKeyframe st) (result st) true.

Definition findNearestKeyframe (keyframes : list float) (target : float)
    : float :=
  match keyframes with
  | [] => 0%float
  | _ =>
      let st := fold_left (nearestStep target) keyframes
                  (mkNearest 0 0 false) in
      if (0 <? prevKeyframe st)%float && (target - result st <? 0.01)%float
      then prevKeyframe st
      else result st
  end.

(** *** The pool *)

Record VideoParams : Type := mkVideoParams
  { vInputURL : string; vStreamIndex : Z; vRendition : VideoRendition.t;
    vSegments : list Segment.t; vOutputDir : string;
    ActualSeekKeyframe : float }.

Record AudioParams : Type := mkAudioParams
  { aInputURL : string; aStreamIndex : Z; aRendition : AudioRendition.t;
    aSegments : list Segment.t; aOutputDir : string }.

(** The pool's fields that [processJob] reads.  The argument vectors of
    [ffmpeg.CommandBuilder] only travel to the encoder process and
    [encoding/json] is a library: both are fields here. *)
Record Pool : Type := mkPool
  { streamType : StreamType;
    cmdBuilder_Video : VideoParams -> list string;
    cmdBuilder_Audio : AudioParams -> list string;
    json_Unmarshal : bytes -> Go.result Metadata.t }.

Definition getMetadata (p : Pool) (sourceURL : string)
    : prog (Go.result Metadata.t) :=
  r <- perform (Storage_GetMetadata sourceURL) ;;
  match r with
  | Err err => Ret (Err err)
  | Ok data => Ret (json_Unmarshal p data)
  end.

Definition findVideoRendition (meta : Metadata.t) (name : string)
    : option VideoRendition.t :=
  find (fun r => String.eqb (VideoRendition.Name r) name)
    (rendition.GenerateVideo (Metadata.Video meta)).

Definition findAudioRendition (meta : Metadata.t) (name : string)
    : option AudioRendition.t :=
  match Metadata.Audios meta with
  | [] => None
  | audio0 :: _ =>
      find (fun r => String.eqb (AudioRendition.Name r) name)
        (rendition.GenerateAudio audio0)
  end.

(** The body of [for i := job.StartIndex; i <= job.EndIndex; i++], run
    over the values [i] takes. *)
Fixpoint publishLoop (p : Pool) (job : Job.t) (err : error)
    (indices : list Z) : prog unit :=
  match indices with
  | [] => Ret tt
  | i :: rest =>
      let info :=
        SegmentData.mk (Job.SourceURL job) i 0 0 0%float
          (Job.Rendition job) (String.eqb (streamType p) StreamVideo) in
      let status := SegmentStatus.mk SegmentStateError err in
      _ <- perform (Coordinator_NotifySegment info status) ;;
      publishLoop p job err rest
  end.

(** [publishError], for a job whose end index is below the largest int:
    the loop then ends and [i] takes the values of [upto].  (At the
    largest int the loop does not end, see [forLoop].) *)
Definition publishError (p : Pool) (job : Job.t) (err : error)
    : prog unit :=
  publishLoop p job err (upto (Job.StartIndex job) (Job.EndIndex job)).

(** The part of [processJob] after [defer os.RemoveAll(tmpDir)]; the
    deferred call is made by [processJob] when this part returns. *)
Definition processJobIn (p : Pool) (job : Job.t) (meta : Metadata.t)
    (segments : list Segment.t) (tmpDir : string) : prog unit :=
  let isVideo := String.eqb (streamType p) StreamVideo in
  let start (args : list string) (skipFirst : bool) : prog unit :=
    err <- perform (Worker_Start args (Job.SourceURL job)
                      (Job.Rendition job) isVideo tmpDir skipFirst) ;;
    match err with
    | Some err => publishError p job err
    | None =>
        _ <- perform Pool_waitForWorker ;;
        _ <- perform (Coordinator_Ack (Job.ID job)) ;;
        Ret tt
    end in
  if isVideo then
    match findVideoRendition meta (Job.Rendition job) with
    | None =>
        publishError p job
          ("video rendition " ++ Job.Rendition job ++ " not found")%string
    | Some videoRendition =>
        let overlapSegments :=
          extractSegments (Metadata.Keyframes meta) (Metadata.Duration meta)
            (Job.StartIndex job - 1) (Job.EndIndex job) in
        let widen :=
          (0 <? Job.StartIndex job) &&
          (List.length segments <? List.length overlapSegments)%nat in
        let videoSegments := if widen then overlapSegments else segments in
        let skipFirst := widen in
        let actualSeekKeyframe :=
          match VideoRendition.Method videoRendition, videoSegments with
          | DirectStream, seg0 :: _ =>
              findNearestKeyframe (Metadata.Keyframes meta)
                (Segment.Start seg0)
          | _, _ => 0%float
          end in
        let args :=
          cmdBuilder_Video p
            (mkVideoParams (Job.SourceURL job) 0 videoRendition
               videoSegments tmpDir actualSeekKeyframe) in
        start args skipFirst
    end
  else
    match findAudioRendition meta (Job.Rendition job) with
    | None =>
        publishError p job
          ("audio rendition " ++ Job.Rendition job ++ " not found")%string
    | Some audioRendition =>
        let args :=
          cmdBuilder_Audio p
            (mkAudioParams (Job.SourceURL job) 0 audioRendition segments
               tmpDir) in
        start args false
    end.

Definition processJob (p : Pool) (job : Job.t) : prog unit :=
  r <- getMetadata p (Job.SourceURL job) ;;
  match r with
  | Err err => publishError p job err
  | Ok meta =>
      let segments :=
        extractSegments (Metadata.Keyframes meta) (Metadata.Duration meta)
          (Job.StartIndex job) (Job.EndIndex job) in
      if (List.length segments =? 0)%nat then
        publishError p job
          ("no segments for range " ++ itoa (Job.StartIndex job) ++ "-" ++
           itoa (Job.EndIndex job))%string
      else
        r <- perform (os_MkdirTemp EmptyString "transcode-*") ;;
        match r with
        | Err err =>
            publishError p job ("create temp dir: " ++ err)%string
        | Ok tmpDir =>
            _ <- processJobIn p job meta segments tmpDir ;;
            _ <- perform (os_RemoveAll tmpDir) ;;
            Ret tt
        end
  end.

(** *** The worker *)

Inductive WorkerState : Type :=
| WorkerStateIdle | WorkerStateRunning | WorkerStateDone | WorkerStateError.

(** The worker's configuration fields; [Join] is [filepath.Join]. *)
Record Worker : Type := mkWorker
  { sourceURL : string; rendition : string; isVideo : bool;
    tmpDir : string; skipFirst : bool;
    Join : string -> string -> string }.

Definition parseSegmentIndex (filename : string) : Go.result Z :=
  let name := TrimSuffix filename ".ts" in
  let parts := Split name "-"%char in
  if (List.length parts <? 2)%nat then
    Err ("invalid segment filename: " ++ filename)%string
  else Atoi (last parts EmptyString).

Definition uploadSegment (w : Worker) (filename : string)
    : prog (option error) :=
  match parseSegmentIndex filename with
  | Err _ => Ret None
  | Ok idx =>
      let filePath := Join w (tmpDir w) filename in
      r <- perform (os_ReadFile filePath) ;;
      match r with
      | Err err =>
          Ret (Some ("read segment file " ++ filename ++ ": " ++ err)%string)
      | Ok data =>
          let info :=
            SegmentData.mk (sourceURL w) idx 0 0 0%float (rendition w)
              (isVideo w) in
          err <- perform (Storage_WriteSegment info data) ;;
          match err with
          | Some err =>
              Ret (Some ("write segment " ++ itoa idx ++ ": " ++ err)%string)
          | None =>
              _ <- perform (os_Remove filePath) ;;
              Ret None
          end
      end
  end.

(** The three ways out of [for scanner.Scan() { ... }]: the scanner is
    exhausted, the context is done, or an upload failed. *)
Inductive loopExit : Type :=
| Drained
| Cancelled
| Failed (err : error).

(** The scan loop of [Worker.run] over the lines the scanner yields. *)
Fixpoint scanLoop (w : Worker) (skipFirst : bool) (lines : list string)
    : prog loopExit :=
  match lines with
  | [] => Ret Drained
  | text :: rest =>
      done <- perform ctx_Done ;;
      if done : bool then Ret Cancelled
      else
        let filename := TrimSpace text in
        if String.eqb filename EmptyString then scanLoop w skipFirst rest
        else if skipFirst then
          _ <- perform (os_Remove (Join w (tmpDir w) filename)) ;;
          scanLoop w false rest
        else
          err <- uploadSegment w filename ;;
          match err with
          | Some err => Ret (Failed err)
          | None => scanLoop w skipFirst rest
          end
  end.

(** [Worker.run] from the state [Start] leaves ([WorkerStateRunning], no
    error) to the fields [state] and [err] at return.  The standard output
    of a started command always is a reader, so the type assertion at the
    top succeeds. *)
Definition run (w : Worker) (lines : list string)
    : prog (WorkerState * option error) :=
  ex <- scanLoop w (skipFirst w) lines ;;
  match ex with
  | Cancelled =>
      _ <- perform cmd_Wait ;;
      Ret (WorkerStateRunning, None)
  | Failed err =>
      _ <- perform cmd_Wait ;;
      Ret (WorkerStateError, Some err)
  | Drained =>
      cmdErr <- perform cmd_Wait ;;
      match cmdErr with
      | None => Ret (WorkerStateDone, None)
      | Some e =>
          ctxErr <- perform ctx_Err ;;
          match ctxErr with
          | None => Ret (WorkerStateError, Some e)
          | Some _ => Ret (WorkerStateDone, None)
          end
      end
  end.

End transcode.


(* ================================================================== *)
(** ** package hwaccel: choice of the acceleration backend *)

Module hwaccel.
Import Go domain.

Definition priority : list Accelerator :=
  [AccelCUDA; AccelQSV; AccelVideoToolbox; AccelVAAPI].

(** [Select]: the first accelerator of the priority list that occurs in
    [available]. *)
Definition Select (available : list Accelerator) : Accelerator :=
  match find (fun accel => existsb (fun a => String.eqb a accel) available)
          priority with
  | Some accel => accel
  | None => AccelNone
  end.

Definition NewConfig (accel : Accelerator) : HWAccelConfig.t :=
  if String.eqb accel AccelCUDA then
    HWAccelConfig.mk AccelCUDA
      ["-hwaccel"; "cuda"; "-hwaccel_output_format"; "cuda"]%string
      ["-c:v"; "h264_nvenc"; "-preset"; "p4"; "-tune"; "ll"]%string
      "h264_nvenc" "-force_idr" "scale_cuda=%d:%d:format=nv12"
  else if String.eqb accel AccelVideoToolbox then
    HWAccelConfig.mk AccelVideoToolbox
      ["-hwaccel"; "videotoolbox"]%string
      ["-c:v"; "h264_videotoolbox"; "-realtime"; "true"; "-prio_speed";
       "true"]%string
      "h264_videotoolbox" "-force_key_frames" "scale=%d:%d"
  else if String.eqb accel AccelVAAPI then
    HWAccelConfig.mk AccelVAAPI
      ["-hwaccel"; "vaapi"; "-vaapi_device"; "/dev/dri/renderD128"]%string
      ["-c:v"; "h264_vaapi"]%string
      "h264_vaapi" "-force_key_frames" "scale_vaapi=%d:%d:format=nv12"
  else if String.eqb accel AccelQSV then
    HWAccelConfig.mk AccelQSV
      ["-hwaccel"; "qsv"; "-hwaccel_output_format"; "qsv"]%string
      ["-c:v"; "h264_qsv"; "-preset"; "veryfast"]%string
      "h264_qsv" "-force_key_frames" "scale_qsv=%d:%d:format=nv12"
  else
    HWAccelConfig.mk AccelNone []
      ["-c:v"; "libx264"; "-preset"; "ultrafast"]%string
      "libx264" "-force_key_frames" "scale=%d:%d".

(** [Detect], given what the two capability queries of the encoder
    returned ([detectHWAccels] and [detectEncoders]: a set of names each,
    or the error of running the encoder). *)
Definition Detect (hwaccels encoders : result (string -> bool))
    : result (list Accelerator) :=
  match hwaccels with
  | Err err => Err err
  | Ok hwaccels =>
      match encoders with
      | Err err => Err err
      | Ok encoders =>
          let available := [] in
          let available :=
            if hwaccels "cuda"%string && encoders "h264_nvenc"%string
            then available ++ [AccelCUDA] else available in
          let available :=
            if hwaccels "videotoolbox"%string &&
               encoders "h264_videotoolbox"%string
            then available ++ [AccelVideoToolbox] else available in
          let available :=
            if hwaccels "vaapi"%string && encoders "h264_vaapi"%string
            then available ++ [AccelVAAPI] else available in
          let available :=
            if hwaccels "qsv"%string && encoders "h264_qsv"%string
            then available ++ [AccelQSV] else available in
          Ok (available ++ [AccelNone])
      end
  end.

Definition DetectBest (hwaccels encoders : result (string -> bool))
    : HWAccelConfig.t :=
  match Detect hwaccels encoders with
  | Err _ => NewConfig AccelNone
  | Ok available => NewConfig (Select available)
  end.

End hwaccel.

(* ================================================================== *)
(** ** package ffmpeg: the arguments of the encoder *)

Module ffmpeg.
Import Go domain transcode.

(** The builder and the two library calls whose result depends on more
    than the model holds: [Sprintf_scale] is
    [fmt.Sprintf(b.HWAccel.ScaleFilter, width, height)], a format taken
    from the configuration, and [filepath_Join] is [filepath.Join]. *)
Record CommandBuilder : Type := mkCommandBuilder
  { HWAccel : HWAccelConfig.t;
    Sprintf_scale : string -> Z -> Z -> string;
    filepath_Join : string -> string -> string }.

Definition isDirectStream (m : PlaybackMethod) : bool :=
  match m with
  | DirectStream => true
  | _ => false
  end.

Definition formatSegmentTimes (segments : list Segment.t) : string :=
  match segments with
  | [] | [_] => EmptyString
  | first :: rest =>
      let seekOffset := Segment.Start first in
      Go.Join (map (fun seg =>
                   formatFixed 6 (Segment.Start seg - seekOffset)%float)
              rest) ","
  end.

Definition formatSegmentTimesWithOffset (segments : list Segment.t)
    (actualKeyframe : float) : string :=
  match segments with
  | [] | [_] => EmptyString
  | _ :: rest =>
      Go.Join (map (fun seg =>
                   formatFixed 6 (Segment.Start seg - actualKeyframe)%float)
              rest) ","
  end.

Definition formatKeyframeTimes (segments : list Segment.t) : string :=
  match segments with
  | [] => EmptyString
  | first :: _ =>
      let seekOffset := Segment.Start first in
      Go.Join (map (fun seg =>
                   formatFixed 6 (Segment.Start seg - seekOffset)%float)
              segments) ","
  end.

Definition videoEncodeArgs (b : CommandBuilder) (p : VideoParams)
    : list string :=
  let r := vRendition p in
  if isDirectStream (VideoRendition.Method r) then ["-c:v"; "copy"]%string
  else
    let segmentTimes := formatKeyframeTimes (vSegments p) in
    let args := HWAccelConfig.EncodeFlags (HWAccel b) in
    let args :=
      args ++
      ["-vf";
       Sprintf_scale b (HWAccelConfig.ScaleFilter (HWAccel b))
         (VideoRendition.Width r) (VideoRendition.Height r);
       "-b:v"; itoa (VideoRendition.Bitrate r);
       "-maxrate";
       itoa (int (float64 (VideoRendition.Bitrate r) * 1.5)%float);
       "-bufsize"; itoa (wrap64 (VideoRendition.Bitrate r * 5));
       HWAccelConfig.KeyframeFlag (HWAccel b); segmentTimes]%string in
    if String.eqb (HWAccelConfig.Accelerator (HWAccel b)) AccelCUDA
    then args ++ ["-forced-idr"; "1"]%string
    else args.

(** The arguments both commands end with: the segment muxer, the number
    of the first segment file, the split points if there are any, and the
    pattern of the file names. *)
Definition segmenterArgs (b : CommandBuilder) (outputDir : string)
    (startSeg : Segment.t) (segmentTimes : string) : list string :=
  let outputPattern := filepath_Join b outputDir "segment-%05d.ts" in
  let args :=
    ["-f"; "segment"; "-segment_time_delta"; "0.05";
     "-segment_format"; "mpegts"; "-segment_list_type"; "flat";
     "-segment_list"; "pipe:1";
     "-segment_start_number"; itoa (Segment.Index startSeg)]%string in
  let args :=
    if String.eqb segmentTimes EmptyString then args
    else args ++ ["-segment_times"%string; segmentTimes] in
  args ++ [outputPattern].

(** [CommandBuilder.Video]; the empty list is [nil]. *)
Definition Video (b : CommandBuilder) (p : VideoParams) : list string :=
  match vSegments p with
  | [] => []
  | startSeg :: _ =>
      let endSeg := last (vSegments p) startSeg in
      let direct := isDirectStream (VideoRendition.Method (vRendition p)) in
      let args := ["-nostats"; "-hide_banner"; "-loglevel"; "warning"]%string
      in
      let args :=
        if direct then args
        else args ++ HWAccelConfig.DecodeFlags (HWAccel b) in
      let args :=
        args ++
        ["-ss"; formatFixed 6 (Segment.Start startSeg);
         "-i"; vInputURL p;
         "-to"; formatFixed 6 (Segment.End endSeg);
         "-copyts"; "-start_at_zero"; "-muxdelay"; "0"]%string in
      let args :=
        args ++ ["-map"; "0:V:" ++ itoa (vStreamIndex p)]%string in
      let args := args ++ videoEncodeArgs b p in
      let segmentTimes :=
        if direct && (0 <? ActualSeekKeyframe p)%float
        then formatSegmentTimesWithOffset (vSegments p)
               (ActualSeekKeyframe p)
        else formatSegmentTimes (vSegments p) in
      args ++ segmenterArgs b (vOutputDir p) startSeg segmentTimes
  end.

Definition audioEncodeArgs (p : AudioParams) : list string :=
  let r := aRendition p in
  if isDirectStream (AudioRendition.Method r) then ["-c:a"; "copy"]%string
  else
    ["-c:a"; "aac"; "-ac"; itoa (AudioRendition.Channels r);
     "-b:a"; itoa (AudioRendition.Bitrate r)]%string.

(** [CommandBuilder.Audio]. *)
Definition Audio (b : CommandBuilder) (p : AudioParams) : list string :=
  match aSegments p with
  | [] => []
  | startSeg :: _ =>
      let endSeg := last (aSegments p) startSeg in
      let args :=
        ["-nostats"; "-hide_banner"; "-loglevel"; "warning";
         "-ss"; formatFixed 6 (Segment.Start startSeg);
         "-i"; aInputURL p;
         "-to"; formatFixed 6 (Segment.End endSeg);
         "-copyts"; "-start_at_zero"; "-muxdelay"; "0"]%string in
      let args :=
        args ++ ["-map"; "0:a:" ++ itoa (aStreamIndex p)]%string in
      let args := args ++ audioEncodeArgs p in
      let segmentTimes := formatSegmentTimes (aSegments p) in
      args ++ segmenterArgs b (aOutputDir p) startSeg segmentTimes
  end.

End ffmpeg.

(* ================================================================== *)
(** ** package goshl: the controller *)

Module goshl.
Import Go domain.

(** The settings of [Options] that have defaults.  [SegmentTimeout] is a
    [time.Duration], a number of nanoseconds. *)
Record Options : Type := mkOptions
  { SegmentTimeout : Z; TargetDuration : float; SegmentsPerJob : Z;
    VideoPoolSize : Z; AudioPoolSize : Z }.

Definition setDefaults (o : Options) : Options :=
  let o :=
    if SegmentTimeout o =? 0
    then mkOptions (30 * 1000000000) (TargetDuration o) (SegmentsPerJob o)
           (VideoPoolSize o) (AudioPoolSize o)
    else o in
  let o :=
    if (TargetDuration o =? 0)%float
    then mkOptions (SegmentTimeout o) 6.0 (SegmentsPerJob o)
           (VideoPoolSize o) (AudioPoolSize o)
    else o in
  let o :=
    if SegmentsPerJob o =? 0
    then mkOptions (SegmentTimeout o) (TargetDuration o) 10
           (VideoPoolSize o) (AudioPoolSize o)
    else o in
  let o :=
    if VideoPoolSize o =? 0
    then mkOptions (SegmentTimeout o) (TargetDuration o) (SegmentsPerJob o)
           2 (AudioPoolSize o)
    else o in
  if AudioPoolSize o =? 0
  then mkOptions (SegmentTimeout o) (TargetDuration o) (SegmentsPerJob o)
         (VideoPoolSize o) 4
  else o.

(** The bounds [startIdx], [endIdx] that [enqueueSegment] computes;
    [None] is the run-time panic of an integer division by zero. *)
Definition jobRange (segmentsPerJob index : Z) : option (Z * Z) :=
  if segmentsPerJob =? 0 then None
  else
    let startIdx :=
      wrap64 (wrap64 (Z.quot index segmentsPerJob) * segmentsPerJob) in
    let endIdx := wrap64 (wrap64 (startIdx + segmentsPerJob) - 1) in
    Some (startIdx, endIdx).

(** What the controller calls: storage, coordinator, the id generator,
    and the [select] at the end of [Segment], whose answer says which of
    its three cases fired. *)
Inductive selected : Type :=
| ContextDone (err : error)
| TimedOut
| Received (status : SegmentStatus.t).

Inductive call : Type :=
| Storage_SegmentExists (info : SegmentData.t)
| Storage_ReadSegment (info : SegmentData.t)
| Coordinator_WaitSegment (info : SegmentData.t)
| Coordinator_Enqueue (job : Job.t)
| uuid_New
| select_status.

Definition answer (c : call) : Type :=
  match c with
  | Storage_SegmentExists _ => result bool
  | Storage_ReadSegment _ => result bytes
  | Coordinator_WaitSegment _ => option error
  | Coordinator_Enqueue _ => option error
  | uuid_New => string
  | select_status => selected
  end.

Inductive prog (A : Type) : Type :=
| Ret (a : A)
| Vis (c : call) (k : answer c -> prog A)
| Panic.
Arguments Ret {A} a.
Arguments Vis {A} c k.
Arguments Panic {A}.

Fixpoint bind {A B : Type} (p : prog A) (f : A -> prog B) : prog B :=
  match p with
  | Ret a => f a
  | Vis c k => Vis c (fun r => bind (k r) f)
  | Panic => Panic
  end.

Definition perform (c : call) : prog (answer c) := Vis c Ret.

Record event : Type := Event { made : call; got : answer made }.

Definition handler (W : Type) : Type := forall c, W -> answer c * W.

(** The result of a run is [None] when the program panicked. *)
Fixpoint exec {W A : Type} (h : handler W) (p : prog A) (w : W)
    : option A * W * list event :=
  match p with
  | Ret a => (Some a, w, [])
  | Panic => (None, w, [])
  | Vis c k =>
      let '(r, w1) := h c w in
      let '(a, w2, tr) := exec h (k r) w1 in
      (a, w2, Event c r :: tr)
  end.

Notation "x <- p ;; q" := (bind p (fun x => q))
  (at level 61, p at next level, right associativity).

Definition enqueueSegment (opts : Options) (sourceURL : string)
    (streamType : StreamType) (renditionName : string) (index : Z)
    : prog (option error) :=
  match jobRange (SegmentsPerJob opts) index with
  | None => Panic
  | Some (startIdx, endIdx) =>
      id <- perform uuid_New ;;
      let job :=
        Job.mk id sourceURL renditionName streamType startIdx endIdx in
      perform (Coordinator_Enqueue job)
  end.

(** [Controller.Segment]. *)
Definition Segment (opts : Options) (sourceURL : string)
    (streamType : StreamType) (renditionName : string) (index : Z)
    : prog (result bytes) :=
  let info :=
    SegmentData.mk sourceURL index 0 0 0%float renditionName
      (String.eqb streamType StreamVideo) in
  r <- perform (Storage_SegmentExists info) ;;
  match r with
  | Err err => Ret (Err ("check segment: " ++ err)%string)
  | Ok true => perform (Storage_ReadSegment info)
  | Ok false =>
      err <- perform (Coordinator_WaitSegment info) ;;
      match err with
      | Some err => Ret (Err ("wait segment: " ++ err)%string)
      | None =>
          err <- enqueueSegment opts sourceURL streamType renditionName
                   index ;;
          match err with
          | Some err => Ret (Err ("enqueue: " ++ err)%string)
          | None =>
              s <- perform select_status ;;
              match s with
              | ContextDone err => Ret (Err err)
              | TimedOut =>
                  Ret (Err ("timeout waiting for segment " ++ itoa index)
                         %string)
              | Received status =>
                  match SegmentStatus.State status with
                  | SegmentStateError =>
                      Ret (Err ("segment error: " ++
                                SegmentStatus.Error status)%string)
                  | SegmentStateReady =>
                      perform (Storage_ReadSegment info)
                  end
              end
          end
      end
  end.

(** The loop of [SubtitleVTT] that looks a language up: the position of
    the first subtitle stream with that language, or -1. *)
Fixpoint subtitleIndex (subtitles : list SubtitleStream.t) (lang : string)
    (i : Z) : Z :=
  match subtitles with
  | [] => -1
  | sub :: rest =>
      if String.eqb (SubtitleStream.Language sub) lang then i
      else subtitleIndex rest lang (i + 1)
  end.

End goshl.

(* ================================================================== *)
(** ** Specification-side definitions

    The notions the statements below use, written from the wording of the
    specification and compared with the embedded code by the theorems. *)

Module Spec.
Import Go domain.

(** *** Segmenter *)

(** A keyframe list is monotonically non-decreasing. *)
Fixpoint nondecreasing (keyframes : list float) : bool :=
  match keyframes with
  | [] => true
  | k :: rest =>
      match rest with
      | [] => true
      | k' :: _ => (k <=? k')%float && nondecreasing rest
      end
  end.

Section Rule.
Variables (duration target_duration : float).

(** A keyframe [k] closes the segment opened at [segment_start]:
    [k - segment_start >= target_duration]. *)
Definition closes (segment_start k : float) : bool :=
  (target_duration <=? k - segment_start)%float.

(** The segmentation rule.  [Walk segment_start index keyframes segs]:
    with the cursor at [segment_start], [index] segments emitted so far and
    [keyframes] still ahead, the rule emits exactly [segs]. *)
Inductive Walk : float -> Z -> list float -> list Segment.t -> Prop :=
| WalkClose segment_start index skipped k ahead segs :
    Forall (fun x => closes segment_start x = false) skipped ->
    closes segment_start k = true ->
    Walk k (index + 1) ahead segs ->
    Walk segment_start index (skipped ++ k :: ahead)
      (Segment.mk index segment_start k (k - segment_start)%float :: segs)
| WalkTail segment_start index ahead :
    Forall (fun x => closes segment_start x = false) ahead ->
    (segment_start <? duration)%float = true ->
    Walk segment_start index ahead
      [Segment.mk index segment_start duration
         (duration - segment_start)%float]
| WalkStop segment_start index ahead :
    Forall (fun x => closes segment_start x = false) ahead ->
    (segment_start <? duration)%float = false ->
    Walk segment_start index ahead [].

End Rule.

(** Index, start and end of a segment, the three fields scenario S1
    lists. *)
Definition bounds (s : Segment.t) : Z * float * float :=
  (Segment.Index s, Segment.Start s, Segment.End s).

Definition noSegment : Segment.t := Segment.mk 0 0 0 0.

(** Go's [==] on [float64]. *)
Definition same (a b : float) : Prop := (a =? b)%float = true.

(** A segment list spans [keyframes] and [duration]: it is non-empty,
    starts at [keyframes[0]], ends at [duration], is contiguous, and its
    indices count up from 0. *)
Definition spans (keyframes : list float) (duration : float)
    (segs : list Segment.t) : Prop :=
  segs <> [] /\
  same (Segment.Start (hd noSegment segs)) (hd 0%float keyframes) /\
  same (Segment.End (last segs noSegment)) duration /\
  (forall i, (S i < List.length segs)%nat ->
     same (Segment.End (nth i segs noSegment))
          (Segment.Start (nth (S i) segs noSegment))) /\
  (forall i, (i < List.length segs)%nat ->
     Segment.Index (nth i segs noSegment) = Z.of_nat i).

(** No segment runs backward. *)
Definition forward (segs : list Segment.t) : Prop :=
  forall i, (i < List.length segs)%nat ->
    (Segment.Start (nth i segs noSegment) <=?
     Segment.End (nth i segs noSegment))%float = true.

(** No two segments overlap: a segment ends before a later one starts. *)
Definition disjoint (segs : list Segment.t) : Prop :=
  forall i j, (i < j)%nat -> (j < List.length segs)%nat ->
    (Segment.End (nth i segs noSegment) <=?
     Segment.Start (nth j segs noSegment))%float = true.

(** Invariants of a segment list over [keyframes] and [duration]:
    non-empty, starts at [keyframes[0]], ends at [duration], contiguous
    and non-overlapping, indices consecutive from 0. *)
Definition covers (keyframes : list float) (duration : float)
    (segs : list Segment.t) : Prop :=
  spans keyframes duration segs /\ forward segs /\ disjoint segs.

(** A list of segments that chains from [start] to [stop], indexed from
    [index] up to (excluding) [next]. *)
Fixpoint chained (start : float) (index : Z) (segs : list Segment.t)
    (stop : float) (next : Z) : Prop :=
  match segs with
  | [] => start = stop /\ index = next
  | s :: rest =>
      Segment.Index s = index /\ Segment.Start s = start /\
      chained (Segment.End s) (index + 1) rest stop next
  end.

(** "Filtered to segments whose index lies in [start_index, end_index]". *)
Definition inRange (start_index end_index : Z) (segs : list Segment.t)
    : list Segment.t :=
  filter (fun s => (start_index <=? Segment.Index s) &&
                   (Segment.Index s <=? end_index)) segs.

(** *** Rendition planner *)

(** [r] is the smallest even integer greater than or equal to the
    rational [num / den], for a positive [den]. *)
Definition smallestEvenAtLeast (num den r : Z) : Prop :=
  Z.even r = true /\ num <= r * den /\
  forall m, Z.even m = true -> num <= m * den -> r <= m.

(** The scaled width as [calculateWidth] has it before rounding: the
    binary64 product [float64(h) * (float64(w) / float64(sh))],
    truncated toward zero by the conversion to [int]. *)
Definition truncatedWidth (srcWidth srcHeight targetHeight : Z) : Z :=
  int (float64 targetHeight * (float64 srcWidth / float64 srcHeight))%float.

(** *** Keyframe lookup *)

(** The greatest keyframe at most [bound] of an increasing list (its last
    element at most [bound]), with the keyframe immediately before it in
    the list, if there is one. *)
Fixpoint greatestAtMost (bound : float) (previous : option float)
    (keyframes : list float) : option (float * option float) :=
  match keyframes with
  | [] => None
  | k :: rest =>
      match greatestAtMost bound (Some k) rest with
      | Some found => Some found
      | None => if (k <=? bound)%float then Some (k, previous) else None
      end
  end.

(** "The greatest keyframe k with k <= target + 1e-3, except that when
    that k is within 1e-2 of the target and a strictly earlier keyframe
    exists, the immediately preceding keyframe." *)
Definition nearestKeyframe (keyframes : list float) (target : float)
    : option float :=
  match greatestAtMost (target + 0.001)%float None keyframes with
  | None => None
  | Some (k, None) => Some k
  | Some (k, Some earlier) =>
      if (abs (target - k) <? 0.01)%float then Some earlier else Some k
  end.

(** *** Traces *)

Import effect.

(** The status notifications of a trace, in order. *)
Definition notifications (tr : list event)
    : list (SegmentData.t * SegmentStatus.t) :=
  flat_map (fun e => match made e with
                     | Coordinator_NotifySegment info status =>
                         [(info, status)]
                     | _ => []
                     end) tr.

(** The jobs acknowledged by a trace, in order. *)
Definition acks (tr : list event) : list string :=
  flat_map (fun e => match made e with
                     | Coordinator_Ack jobID => [jobID]
                     | _ => []
                     end) tr.

(** The keys [WriteSegment] was called with, in order. *)
Definition writes (tr : list event) : list SegmentData.t :=
  flat_map (fun e => match made e with
                     | Storage_WriteSegment info _ => [info]
                     | _ => []
                     end) tr.

(** What a worker does to segment files: delete, read, upload. *)
Inductive action : Type :=
| Deleted (path : string)
| Read (path : string)
| Uploaded (info : SegmentData.t).

Definition actions (tr : list event) : list action :=
  flat_map (fun e => match made e with
                     | os_Remove path => [Deleted path]
                     | os_ReadFile path => [Read path]
                     | Storage_WriteSegment info _ => [Uploaded info]
                     | _ => []
                     end) tr.

(** Collaborators that never fail: every call succeeds, files are empty,
    the context is never done. *)
Definition quiet : handler unit :=
  fun (c : call) (w : unit) =>
    match c return answer c * unit with
    | Storage_GetMetadata _ => (Ok [], w)
    | Storage_WriteSegment _ _ => (None, w)
    | Coordinator_NotifySegment _ _ => (None, w)
    | Coordinator_Ack _ => (None, w)
    | os_MkdirTemp _ _ => (Ok "/tmp/transcode-1"%string, w)
    | os_RemoveAll _ => (None, w)
    | os_Remove _ => (None, w)
    | os_ReadFile _ => (Ok [], w)
    | ctx_Done => (false, w)
    | ctx_Err => (None, w)
    | cmd_Wait => (None, w)
    | Worker_Start _ _ _ _ _ _ => (None, w)
    | Pool_waitForWorker => (tt, w)
    end.

(** A storage without the metadata of any source; all else as [quiet]. *)
Definition noMetadata : handler unit :=
  fun (c : call) (w : unit) =>
    match c return answer c * unit with
    | Storage_GetMetadata _ => (Err "metadata not found"%string, w)
    | c' => quiet c' w
    end.

(** A video pool whose command builder and decoder are trivial: the
    metadata blob decodes to [meta]. *)
Definition videoPool (meta : Metadata.t) : transcode.Pool :=
  transcode.mkPool StreamVideo (fun _ => []) (fun _ => [])
    (fun _ => Ok meta).

(** *** Pool *)

(** The failure fan-out of a job: the status (error, [err]) for every
    index in [start_index, end_index]. *)
Definition fanout (p : transcode.Pool) (job : Job.t) (err : error)
    : list (SegmentData.t * SegmentStatus.t) :=
  map (fun i =>
         (SegmentData.mk (Job.SourceURL job) i 0 0 0%float
            (Job.Rendition job)
            (String.eqb (transcode.streamType p) StreamVideo),
          SegmentStatus.mk SegmentStateError err))
      (upto (Job.StartIndex job) (Job.EndIndex job)).

(** The indices of a job are ints and its end is below the largest int,
    so that the loop of [publishError] over the range ends. *)
Definition boundedRange (job : Job.t) : Prop :=
  min_int <= Job.StartIndex job <= max_int /\
  min_int <= Job.EndIndex job < max_int.

(** The two ways [processJob] deals with the coordinator: the worker was
    started and the job is acknowledged, or an earlier step failed, the
    range got the error and the job is not acknowledged. *)
Definition jobOutcome (p : transcode.Pool) (job : Job.t)
    (tr : list event) : Prop :=
  (acks tr = [Job.ID job] /\ notifications tr = []) \/
  (acks tr = [] /\ exists err, notifications tr = fanout p job err).

(** *** Worker *)

(** The text after the last ['-'] of [s], if [s] has one. *)
Fixpoint afterLastDash (s : string) : option string :=
  match s with
  | EmptyString => None
  | String c s' =>
      match afterLastDash s' with
      | Some t => Some t
      | None => if Ascii.eqb c "-"%char then Some s' else None
      end
  end.

(** The integer a segment file name carries: its trailing
    ['-']-separated token, the [.ts] suffix stripped, read as an integer. *)
Definition trailingInteger (filename : string) : option Z :=
  match afterLastDash (TrimSuffix filename ".ts") with
  | None => None
  | Some token =>
      match Atoi token with
      | Ok n => Some n
      | Err _ => None
      end
  end.




(** *** Playlist text *)

(** The lines of a text: the pieces between line feeds. *)
Definition lines (text : string) : list string := Split text "010"%char.

(** A string without a line feed. *)
Fixpoint oneLine (s : string) : bool :=
  match s with
  | EmptyString => true
  | String c s' => negb (Ascii.eqb c "010"%char) && oneLine s'
  end.

(** A URI line of a playlist: one line that is not a tag or comment. *)
Definition uriLine (s : string) : bool :=
  oneLine s && negb (String.prefix "#" s).

(** The attribute [AUDIO="audio"], with the comma before it. *)
Definition audioAttribute : string :=
  (",AUDIO=" ++ dq ++ "audio" ++ dq)%string.

Definition endsWith (suffix s : string) : Prop :=
  exists before, s = (before ++ suffix)%string.

(** The text of the line [Master] writes for an audio rendition. *)
Definition mediaText (g : playlist.Generator) (sourceURL : string)
    (audio : AudioRendition.t) : string :=
  ("#EXT-X-MEDIA:TYPE=AUDIO,GROUP-ID=" ++ dq ++ "audio" ++ dq ++
   ",NAME=" ++ dq ++ AudioRendition.Name audio ++ dq ++
   ",DEFAULT=" ++
   playlist.defaultFlag
     (String.eqb (AudioRendition.Name audio) "aac_stereo") ++
   ",AUTOSELECT=YES,URI=" ++ dq ++
   PathGenerator.VariantPlaylist (playlist.pathGen g) sourceURL
     (AudioRendition.Name audio) StreamAudio ++ dq)%string.

(** The lines of a master playlist: header, one line per audio
    rendition and a blank line if there is any, two lines per video
    rendition. *)
Definition masterLines (g : playlist.Generator) (sourceURL : string)
    (videos : list VideoRendition.t) (audios : list AudioRendition.t)
    : list string :=
  ["#EXTM3U"; "#EXT-X-VERSION:4"; EmptyString]%string ++
  map (mediaText g sourceURL) audios ++
  (match audios with [] => [] | _ => [EmptyString] end) ++
  flat_map (fun video =>
              [playlist.streamInf "audio" video;
               PathGenerator.VariantPlaylist (playlist.pathGen g) sourceURL
                 (VideoRendition.Name video) StreamVideo]) videos.

(** A text made of lines, each ended by a line feed. *)
Definition joinLines (ls : list string) : string :=
  fold_right (fun l text => (l ++ nl ++ text)%string) EmptyString ls.

(** *** Notions for the further properties *)

(** A segment closed by a keyframe: from a keyframe to a later keyframe
    at least the target duration apart. *)
Definition closedSegment (keyframes : list float) (target_duration : float)
    (s : Segment.t) : Prop :=
  In (Segment.Start s) keyframes /\ In (Segment.End s) keyframes /\
  Segment.Duration s = (Segment.End s - Segment.Start s)%float /\
  (target_duration <=? Segment.Duration s)%float = true.

(** The tail segment: from a keyframe below the duration to the
    duration. *)
Definition tailSegment (keyframes : list float) (duration : float)
    (s : Segment.t) : Prop :=
  In (Segment.Start s) keyframes /\ Segment.End s = duration /\
  Segment.Duration s = (Segment.End s - Segment.Start s)%float /\
  (Segment.Start s <? duration)%float = true.

(** How often a trace waits for the encoder process. *)
Definition waits (tr : list event) : nat :=
  List.length (filter (fun e => match made e with
                                | cmd_Wait => true
                                | _ => false
                                end) tr).

(** The temporary directories a trace removes. *)
Definition removedDirs (tr : list event) : list string :=
  flat_map (fun e => match made e with
                     | os_RemoveAll path => [path]
                     | _ => []
                     end) tr.

(** The temporary directories a trace created. *)
Definition createdDirs (tr : list event) : list string :=
  flat_map (fun e => match e with
                     | Event (os_MkdirTemp _ _) (Ok dir) => [dir]
                     | _ => []
                     end) tr.

(** The workers a trace starts: directory and [skipFirst] flag. *)
Definition started (tr : list event) : list (string * bool) :=
  flat_map (fun e => match made e with
                     | Worker_Start _ _ _ _ tmpDir skipFirst =>
                         [(tmpDir, skipFirst)]
                     | _ => []
                     end) tr.

(** A call on a segment file that failed: a read or an upload that
    returned an error. *)
Definition failedUpload (e : event) : Prop :=
  match e with
  | Event (os_ReadFile _) (Err _) => True
  | Event (Storage_WriteSegment _ _) (Some _) => True
  | _ => False
  end.

(** The scan loop found the context done (its [select] on
    [ctx.Done()]). *)
Definition cancelled (e : event) : Prop :=
  match e with
  | Event ctx_Done true => True
  | _ => False
  end.

(** A wait for the encoder process. *)
Definition isWait (e : event) : Prop :=
  match made e with
  | cmd_Wait => True
  | _ => False
  end.

(** A string of zeros. *)
Definition allZeros (s : string) : Prop := exists n, s = zeros n.

(** The calls of a controller trace that reach the coordinator. *)
Definition coordinatorCalls (tr : list goshl.event) : list goshl.call :=
  flat_map (fun e => match goshl.made e with
                     | goshl.Coordinator_WaitSegment info =>
                         [goshl.Coordinator_WaitSegment info]
                     | goshl.Coordinator_Enqueue job =>
                         [goshl.Coordinator_Enqueue job]
                     | _ => []
                     end) tr.

(** The lines [Generator.Variant] writes for one segment. *)
Definition segmentLines (g : playlist.Generator)
    (sourceURL rendition : string) (streamType : StreamType)
    (seg : Segment.t) : list string :=
  [("#EXTINF:" ++ formatFixed 3 (Segment.Duration seg) ++ ",")%string;
   PathGenerator.Segment (playlist.pathGen g) sourceURL rendition
     streamType (Segment.Index seg)].

(** The lines of a media playlist: the header with the target duration,
    a blank line, two lines per segment, the end tag. *)
Definition variantLines (g : playlist.Generator)
    (sourceURL rendition : string) (streamType : StreamType)
    (segments : list Segment.t) : list string :=
  ["#EXTM3U"; "#EXT-X-VERSION:4";
   "#EXT-X-TARGETDURATION:" ++
   itoa (int (Ceil (playlist.maxDurationOf segments)));
   "#EXT-X-PLAYLIST-TYPE:VOD"; "#EXT-X-MEDIA-SEQUENCE:0";
   EmptyString]%string ++
  flat_map (segmentLines g sourceURL rendition streamType) segments ++
  ["#EXT-X-ENDLIST"%string].

(** A binary64 value that is a number: not NaN and not an infinity. *)
Definition finite (x : float) : bool :=
  match Prim2SF x with
  | S754_zero _ | S754_finite _ _ _ => true
  | _ => false
  end.

(** A status notification. *)
Definition isNotification (e : event) : Prop :=
  match made e with
  | Coordinator_NotifySegment _ _ => True
  | _ => False
  end.

(** The last call of a trace. *)
Definition lastCall (tr : list event) : option call :=
  match rev tr with
  | [] => None
  | e :: _ => Some (made e)
  end.

(** What comes before the deletion of the file [path] by a worker: the
    successful read of the file and the successful upload of what was
    read - or, for a worker with [skip_first] set, no call on a segment
    file at all. *)
Definition deletedAfterUpload (skip_first : bool) (before : list event)
    (path : string) : Prop :=
  (skip_first = true /\ actions before = []) \/
  exists earlier info data,
    before = earlier ++ [Event (os_ReadFile path) (Ok data);
                         Event (Storage_WriteSegment info data) None].

(** A storage that refuses every segment; all else as [quiet]. *)
Definition fullStore : handler unit :=
  fun (c : call) (w : unit) =>
    match c return answer c * unit with
    | Storage_WriteSegment _ _ => (Some "disk full"%string, w)
    | c' => quiet c' w
    end.

End Spec.

(* ================================================================== *)
(** ** Properties *)

Import domain.

(** *** Comparisons of binary64 values *)

Lemma SFcompare_refl (a b : spec_float) (c : comparison) :
  SFcompare a b = Some c ->
  SFcompare a a = Some Eq /\ SFcompare b b = Some Eq.
Proof.
  assert (R : forall x, x <> S754_nan -> SFcompare x x = Some Eq).
  { intros [s|s| |s m e] H; simpl; try congruence.
    - destruct s; reflexivity.
    - destruct s; rewrite Z.compare_refl, Pos.compare_cont_refl;
        reflexivity. }
  intros H. split; apply R; intros E; subst.
  - simpl in H. discriminate.
  - destruct a; simpl in H; discriminate.
Qed.

(** The order of [SFcompare] is transitive; the proof goes through the
    classes of the three values, their signs, exponents and mantissas. *)
Ltac SFcompare_cases a b c :=
  let sa := fresh "sa" in let ma := fresh "ma" in let ea := fresh "ea" in
  let sb := fresh "sb" in let mb := fresh "mb" in let eb := fresh "eb" in
  let sc := fresh "sc" in let mc := fresh "mc" in let ec := fresh "ec" in
  destruct a as [sa|sa| |sa ma ea], b as [sb|sb| |sb mb eb],
           c as [sc|sc| |sc mc ec]; simpl;
    try discriminate;
    repeat match goal with s : bool |- _ => destruct s end;
    simpl; try discriminate; try reflexivity;
    change (Pos.compare_cont Eq) with Pos.compare;
    destruct (Z.compare_spec ea eb); simpl; try discriminate;
    destruct (Z.compare_spec eb ec); simpl; try discriminate;
    destruct (Z.compare_spec ea ec); simpl; try discriminate;
    try reflexivity; try lia; subst;
    destruct (Pos.compare_spec ma mb); simpl; try discriminate;
    destruct (Pos.compare_spec mb mc); simpl; try discriminate;
    destruct (Pos.compare_spec ma mc); simpl; try discriminate;
    try reflexivity; intros; try lia.

Lemma SFleb_ltb_trans (a b c : spec_float) :
  SFleb a b = true -> SFltb b c = true -> SFltb a c = true.
Proof. unfold SFleb, SFltb. SFcompare_cases a b c. Qed.

Lemma SFleb_trans (a b c : spec_float) :
  SFleb a b = true -> SFleb b c = true -> SFleb a c = true.
Proof. unfold SFleb. SFcompare_cases a b c. Qed.

Lemma leb_ltb_trans (a b c : float) :
  (a <=? b)%float = true -> (b <? c)%float = true -> (a <? c)%float = true.
Proof. rewrite leb_spec, !ltb_spec. apply SFleb_ltb_trans. Qed.

Lemma leb_trans (a b c : float) :
  (a <=? b)%float = true -> (b <=? c)%float = true ->
  (a <=? c)%float = true.
Proof. rewrite !leb_spec. apply SFleb_trans. Qed.

(** Values that compare are not NaN, so they are [==] to themselves. *)
Lemma leb_same (a b : float) :
  (a <=? b)%float = true -> Spec.same a a /\ Spec.same b b.
Proof.
  unfold Spec.same. rewrite leb_spec, !eqb_spec. unfold SFleb, SFeqb.
  destruct (SFcompare (Prim2SF a) (Prim2SF b)) as [c|] eqn:E;
    [|discriminate].
  intros _. apply SFcompare_refl in E as [-> ->]. auto.
Qed.

Lemma ltb_same (a b : float) :
  (a <? b)%float = true -> Spec.same a a /\ Spec.same b b.
Proof.
  unfold Spec.same. rewrite ltb_spec, !eqb_spec. unfold SFltb, SFeqb.
  destruct (SFcompare (Prim2SF a) (Prim2SF b)) as [c|] eqn:E;
    [|discriminate].
  intros _. apply SFcompare_refl in E as [-> ->]. auto.
Qed.

Lemma leb_not_ltb (a b : float) :
  (a <=? b)%float = true -> (a <? b)%float = false -> Spec.same a b.
Proof.
  unfold Spec.same. rewrite leb_spec, ltb_spec, eqb_spec.
  unfold SFleb, SFltb, SFeqb.
  destruct (SFcompare (Prim2SF a) (Prim2SF b)) as [[]|]; congruence.
Qed.

Lemma SFltb_leb (a b : spec_float) :
  SFltb a b = true -> SFleb a b = true.
Proof.
  unfold SFltb, SFleb.
  destruct (SFcompare a b) as [[]|]; congruence.
Qed.

Lemma SFcompare_antisym (a b : spec_float) (c : comparison) :
  SFcompare a b = Some c -> SFcompare b a = Some (CompOpp c).
Proof.
  destruct a as [sa|sa| |sa ma ea], b as [sb|sb| |sb mb eb]; simpl;
    try discriminate;
    repeat match goal with s : bool |- _ => destruct s end;
    simpl; try (intros [= <-]; reflexivity);
    change (Pos.compare_cont Eq) with Pos.compare;
    rewrite (Z.compare_antisym ea eb);
    destruct (ea ?= eb); simpl; try (intros [= <-]; reflexivity);
    rewrite (Pos.compare_antisym ma mb);
    destruct (ma ?= mb)%positive; simpl; intros [= <-]; reflexivity.
Qed.

Lemma ltb_leb (a b : float) :
  (a <? b)%float = true -> (a <=? b)%float = true.
Proof. rewrite ltb_spec, leb_spec. apply SFltb_leb. Qed.

Lemma not_ltb_leb (a b : float) :
  Spec.same a a -> Spec.same b b ->
  (a <? b)%float = false -> (b <=? a)%float = true.
Proof.
  unfold Spec.same. rewrite !eqb_spec, ltb_spec, leb_spec.
  unfold SFeqb, SFltb, SFleb. intros Ha Hb.
  destruct (SFcompare (Prim2SF a) (Prim2SF b)) as [c|] eqn:E.
  - rewrite (SFcompare_antisym _ _ _ E). destruct c; simpl; congruence.
  - exfalso.
    destruct (Prim2SF a) as [sa|sa| |sa ma ea],
             (Prim2SF b) as [sb|sb| |sb mb eb];
      simpl in *; try discriminate;
      repeat match goal with s : bool |- _ => destruct s end;
      simpl in *; try discriminate;
      destruct (ea ?= eb); discriminate.
Qed.

Lemma leb_refl (a : float) : Spec.same a a -> (a <=? a)%float = true.
Proof.
  unfold Spec.same. rewrite eqb_spec, leb_spec. unfold SFeqb, SFleb.
  destruct (SFcompare (Prim2SF a) (Prim2SF a)) as [[]|]; congruence.
Qed.

(** In a non-decreasing list whose last element is at most [d], every
    element is at most [d]. *)
Lemma nondecreasing_at_most (d : float) (keyframes : list float) :
  Spec.nondecreasing keyframes = true ->
  (last keyframes d <=? d)%float = true ->
  Forall (fun k => (k <=? d)%float = true) keyframes.
Proof.
  induction keyframes as [|k rest IH]; intros Hs Hl; [constructor|].
  destruct rest as [|k' rest'].
  - constructor; [exact Hl | constructor].
  - simpl in Hs. apply andb_prop in Hs as [Hk Hs].
    assert (Hrest : Forall (fun x => (x <=? d)%float = true) (k' :: rest'))
      by (apply IH; [exact Hs | exact Hl]).
    constructor; [|exact Hrest].
    inversion Hrest; subst. eapply leb_trans; eauto.
Qed.

(** *** The segmenter *)

Section Segmenter.
Import playlist.
Variables (duration targetDuration : float).

Lemma Walk_skip cursor index x ahead segs :
  Spec.closes targetDuration cursor x = false ->
  Spec.Walk duration targetDuration cursor index ahead segs ->
  Spec.Walk duration targetDuration cursor index (x :: ahead) segs.
Proof.
  intros Hx HW. destruct HW as [c i skipped k ahead segs Hsk Hk HW
                               | c i ahead Hall Hlt | c i ahead Hall Hlt].
  - change (x :: skipped ++ k :: ahead) with ((x :: skipped) ++ k :: ahead).
    apply Spec.WalkClose; auto.
  - apply Spec.WalkTail; auto.
  - apply Spec.WalkStop; auto.
Qed.

(** The loop of [CalculateSegments] appends to the slice exactly what
    the rule emits from the loop's cursor. *)
Lemma fold_step_Walk (rest : list float) (st : walk) :
  exists emitted,
    finish duration (fold_left (step targetDuration) rest st) =
      segments st ++ emitted /\
    Spec.Walk duration targetDuration (segmentStart st) (segmentIndex st)
      rest emitted.
Proof.
  revert st. induction rest as [|k rest IH]; intros st.
  - simpl. unfold finish.
    destruct (segmentStart st <? duration)%float eqn:Hlt.
    + eexists; split; [reflexivity|]. apply Spec.WalkTail; auto.
    + exists []. split; [now rewrite app_nil_r|]. apply Spec.WalkStop; auto.
  - simpl. unfold step at 2.
    destruct (targetDuration <=? k - segmentStart st)%float eqn:Hc.
    + destruct (IH (mkWalk
                  (segments st ++
                   [Segment.mk (segmentIndex st) (segmentStart st) k
                      (k - segmentStart st)%float])
                  k (segmentIndex st + 1))) as [em [He HW]].
      simpl in He, HW.
      exists (Segment.mk (segmentIndex st) (segmentStart st) k
                (k - segmentStart st)%float :: em).
      split; [rewrite He, <- app_assoc; reflexivity|].
      apply (Spec.WalkClose duration targetDuration _ _ []); auto.
    + destruct (IH st) as [em [He HW]].
      exists em. split; [exact He|]. apply Walk_skip; auto.
Qed.

Lemma CalculateSegments_Walk (k0 : float) (rest : list float) :
  Spec.Walk duration targetDuration k0 0 rest
    (CalculateSegments (k0 :: rest) duration targetDuration).
Proof.
  destruct (fold_step_Walk rest (mkWalk [] k0 0)) as [em [He HW]].
  simpl in He, HW. unfold CalculateSegments.
  rewrite He. exact HW.
Qed.

End Segmenter.

(** The rule determines its output: the first closing keyframe is
    unique, so two walks from the same cursor agree. *)
Lemma first_closing_unique {A : Type} (P : A -> bool)
    (l1 l2 : list A) (k1 k2 : A) (r1 r2 : list A) :
  Forall (fun x => P x = false) l1 -> P k1 = true ->
  Forall (fun x => P x = false) l2 -> P k2 = true ->
  l1 ++ k1 :: r1 = l2 ++ k2 :: r2 ->
  l1 = l2 /\ k1 = k2 /\ r1 = r2.
Proof.
  revert l2. induction l1 as [|a l1 IH]; intros l2 H1 Hk1 H2 Hk2 E.
  - destruct l2 as [|b l2]; simpl in E.
    + injection E as -> ->. auto.
    + injection E as -> _. inversion H2; subst. congruence.
  - destruct l2 as [|b l2]; simpl in E.
    + injection E as -> _. inversion H1; subst. congruence.
    + injection E as -> E. inversion H1; inversion H2; subst.
      destruct (IH l2) as (-> & -> & ->); auto.
Qed.

Lemma no_closing_ahead {A : Type} (P : A -> bool) (l : list A) (k : A)
    (r : list A) :
  Forall (fun x => P x = false) (l ++ k :: r) -> P k = true -> False.
Proof.
  intros H Hk. apply Forall_app in H as [_ H]. inversion H; subst.
  congruence.
Qed.

Lemma Walk_deterministic duration td cursor index ahead segs1 segs2 :
  Spec.Walk duration td cursor index ahead segs1 ->
  Spec.Walk duration td cursor index ahead segs2 ->
  segs1 = segs2.
Proof.
  intros H1. revert segs2.
  induction H1 as [c i skipped k ahead segs Hsk Hk HW IH
                  | c i ahead Hall Hlt | c i ahead Hall Hlt];
    intros segs2 H2; inversion H2; subst;
    try reflexivity; try congruence;
    try (exfalso; eapply (no_closing_ahead (Spec.closes td c));
         [eassumption | assumption]);
    try (exfalso;
         match goal with E : _ ++ _ :: _ = _ |- _ => rewrite <- E in Hall end;
         eapply (no_closing_ahead (Spec.closes td c));
         [eassumption | assumption]).
  match goal with E : _ ++ _ :: _ = _ ++ _ :: _ |- _ =>
    apply first_closing_unique with (P := Spec.closes td c) in E; auto;
    destruct E as (-> & -> & ->) end.
  f_equal. apply IH. assumption.
Qed.

(** C2.  For every non-empty, non-decreasing keyframe list the result of
    [CalculateSegments] is exactly what the segmentation rule emits with
    the cursor started at [keyframes[0]]: the first later keyframe [k] with
    [k - segment_start >= target_duration] closes [segment_start, k) and
    becomes the cursor, and when no keyframe ahead does and
    [segment_start < duration], one tail segment [segment_start, duration)
    ends the list.  On keyframes [0, 1, 2.5, 4.9, 7.1], duration 8 and
    target duration 2 the result is the four segments of scenario S1. *)
Theorem CalculateSegments_follows_rule :
  (forall keyframes duration target_duration segs,
     keyframes <> [] -> Spec.nondecreasing keyframes = true ->
     Spec.Walk duration target_duration (hd 0%float keyframes) 0
       (tl keyframes) segs <->
     segs = playlist.CalculateSegments keyframes duration target_duration) /\
  map Spec.bounds
    (playlist.CalculateSegments [0; 1; 2.5; 4.9; 7.1]%float 8 2) =
  [(0, 0%float, 2.5%float); (1, 2.5%float, 4.9%float);
   (2, 4.9%float, 7.1%float); (3, 7.1%float, 8%float)].
Proof.
  split.
  - intros [|k0 rest] duration td segs Hne _; [congruence|]. simpl. split.
    + intros HW. eapply Walk_deterministic; [exact HW|].
      apply CalculateSegments_Walk.
    + intros ->. apply CalculateSegments_Walk.
  - vm_compute. reflexivity.
Qed.

Lemma CalculateSegments_follows_rule_witness :
  [0; 1; 2.5; 4.9; 7.1]%float <> [] /\
  Spec.nondecreasing [0; 1; 2.5; 4.9; 7.1]%float = true /\
  Spec.Walk 8 2 0 0 [1; 2.5; 4.9; 7.1]%float
    (playlist.CalculateSegments [0; 1; 2.5; 4.9; 7.1]%float 8 2).
Proof.
  assert (Hne : [0; 1; 2.5; 4.9; 7.1]%float <> []) by discriminate.
  assert (Hs : Spec.nondecreasing [0; 1; 2.5; 4.9; 7.1]%float = true)
    by (vm_compute; reflexivity).
  split; [exact Hne|]. split; [exact Hs|].
  exact (proj2 (proj1 CalculateSegments_follows_rule
                  [0; 1; 2.5; 4.9; 7.1]%float 8%float 2%float _ Hne Hs)
               eq_refl).
Defined.

(** *** Coverage *)

Lemma chained_snoc a i segs b j c dur :
  Spec.chained a i segs b j ->
  Spec.chained a i (segs ++ [Segment.mk j b c dur]) c (j + 1).
Proof.
  revert a i. induction segs as [|s segs IH]; simpl; intros a i.
  - intros [-> ->]. auto.
  - intros (Hi & Hs & Hc). auto.
Qed.

Lemma chained_covers a i segs b j :
  segs <> [] -> Spec.chained a i segs b j ->
  Segment.Start (hd Spec.noSegment segs) = a /\
  Segment.End (last segs Spec.noSegment) = b /\
  (forall n, (S n < List.length segs)%nat ->
     Segment.End (nth n segs Spec.noSegment) =
     Segment.Start (nth (S n) segs Spec.noSegment)) /\
  (forall n, (n < List.length segs)%nat ->
     Segment.Index (nth n segs Spec.noSegment) = i + Z.of_nat n).
Proof.
  revert a i. induction segs as [|s segs IH]; intros a i Hne Hc;
    [congruence|].
  destruct Hc as (Hi & Hs & Hc).
  destruct segs as [|s' segs'].
  - simpl in Hc. destruct Hc as [He _].
    repeat split; simpl; auto.
    + intros n Hn. lia.
    + intros [|n] Hn; [lia|]. simpl in Hn. lia.
  - destruct (IH (Segment.End s) (i + 1)) as (H1 & H2 & H3 & H4);
      [discriminate | exact Hc |].
    repeat split.
    + exact Hs.
    + exact H2.
    + intros [|n] Hn.
      * simpl. simpl in H1. congruence.
      * apply (H3 n). simpl in Hn |- *. lia.
    + intros [|n] Hn.
      * simpl. lia.
      * change (nth (S n) (s :: s' :: segs') Spec.noSegment)
          with (nth n (s' :: segs') Spec.noSegment).
        rewrite (H4 n); [lia|]. simpl in Hn |- *. lia.
Qed.

Section Coverage.
Import playlist.
Variables (targetDuration k0 : float).

(** The slice built by the loop chains from [keyframes[0]] to the
    cursor; the cursor and every segment start are keyframes read so
    far. *)
Lemma fold_step_chained (seen rest : list float) (st : walk) :
  Spec.chained k0 0 (segments st) (segmentStart st) (segmentIndex st) ->
  In (segmentStart st) (k0 :: seen) ->
  Forall (fun s => In (Segment.Start s) (k0 :: seen)) (segments st) ->
  let st' := fold_left (step targetDuration) rest st in
  Spec.chained k0 0 (segments st') (segmentStart st') (segmentIndex st') /\
  In (segmentStart st') (k0 :: seen ++ rest) /\
  Forall (fun s => In (Segment.Start s) (k0 :: seen ++ rest))
    (segments st').
Proof.
  revert seen st. induction rest as [|k rest IH]; intros seen st Hc Hin Hst.
  - simpl. rewrite app_nil_r. auto.
  - simpl. replace (seen ++ k :: rest) with ((seen ++ [k]) ++ rest)
      by (rewrite <- app_assoc; reflexivity).
    assert (Hmono : forall x, In x (k0 :: seen) ->
                              In x (k0 :: seen ++ [k])).
    { intros x [H|H]; [left; exact H|].
      right. apply in_or_app. left. exact H. }
    apply IH; unfold step;
      destruct (targetDuration <=? k - segmentStart st)%float; simpl.
    + apply chained_snoc. exact Hc.
    + exact Hc.
    + right. apply in_or_app. right. left. reflexivity.
    + apply Hmono. exact Hin.
    + apply Forall_app. split.
      * eapply Forall_impl; [|exact Hst]. intros s. apply Hmono.
      * constructor; [|constructor]. simpl. apply Hmono. exact Hin.
    + eapply Forall_impl; [|exact Hst]. intros s. apply Hmono.
Qed.

End Coverage.

Lemma last_any_default {A : Type} (l : list A) (d d' : A) :
  l <> [] -> last l d = last l d'.
Proof.
  induction l as [|a l IH]; intros Hne; [congruence|].
  destruct l as [|b l]; [reflexivity|].
  change (last (b :: l) d = last (b :: l) d'). apply IH. discriminate.
Qed.

(** A chain over keyframes none of which is NaN, stopping at a value
    [==] to the duration, has the invariants. *)
Lemma chained_covers_same (keyframes : list float) (duration : float)
    (segs : list Segment.t) (stop : float) (next : Z) :
  segs <> [] ->
  Spec.chained (hd 0%float keyframes) 0 segs stop next ->
  Forall (fun s => In (Segment.Start s) keyframes) segs ->
  (forall k, In k keyframes -> Spec.same k k) ->
  Spec.same stop duration ->
  Spec.spans keyframes duration segs.
Proof.
  intros Hne Hc Hst Hnan Hstop.
  destruct (chained_covers _ _ _ _ _ Hne Hc) as (H1 & H2 & H3 & H4).
  assert (Hstart : forall i, (i < List.length segs)%nat ->
            Spec.same (Segment.Start (nth i segs Spec.noSegment))
                      (Segment.Start (nth i segs Spec.noSegment))).
  { intros i Hi. apply Hnan. rewrite Forall_forall in Hst. apply Hst.
    apply nth_In. exact Hi. }
  unfold Spec.spans. repeat split.
  - exact Hne.
  - rewrite <- H1. destruct segs as [|s segs]; [congruence|].
    apply (Hstart 0%nat). simpl. lia.
  - rewrite H2. exact Hstop.
  - intros i Hi. rewrite (H3 i Hi). apply Hstart. exact Hi.
  - intros i Hi. rewrite (H4 i Hi). lia.
Qed.


(** Equal values compare, and a segment list whose segments run forward
    and join does not overlap. *)
Lemma same_leb (a b : float) : Spec.same a b -> (a <=? b)%float = true.
Proof.
  unfold Spec.same. rewrite eqb_spec, leb_spec. unfold SFeqb, SFleb.
  destruct (SFcompare (Prim2SF a) (Prim2SF b)) as [[]|]; congruence.
Qed.

Lemma forward_nth (segs : list Segment.t) :
  Forall (fun s => (Segment.Start s <=? Segment.End s)%float = true) segs ->
  Spec.forward segs.
Proof.
  intros Hall i Hi. rewrite Forall_forall in Hall.
  apply Hall. apply nth_In. exact Hi.
Qed.

Lemma joined_disjoint (segs : list Segment.t) :
  (forall i, (S i < List.length segs)%nat ->
     Spec.same (Segment.End (nth i segs Spec.noSegment))
               (Segment.Start (nth (S i) segs Spec.noSegment))) ->
  Spec.forward segs -> Spec.disjoint segs.
Proof.
  intros Hjoin Hfwd i j Hij Hj.
  replace j with (S i + (j - S i))%nat by lia.
  assert (Hd : (S i + (j - S i) < List.length segs)%nat) by lia.
  revert Hd. generalize (j - S i)%nat as d. clear j Hij Hj.
  induction d as [|d IH]; intros Hd.
  - rewrite Nat.add_0_r. apply same_leb. apply Hjoin.
    rewrite Nat.add_0_r in Hd. exact Hd.
  - replace (S i + S d)%nat with (S (S i + d)) by lia.
    eapply leb_trans; [apply IH; lia|].
    eapply leb_trans; [apply (Hfwd (S i + d)%nat); lia|].
    apply same_leb. apply Hjoin. lia.
Qed.

(** Over a non-decreasing keyframe list the cursor never passes the
    keyframe read last, so every segment the loop closes runs forward. *)
Lemma fold_step_forward (td : float) (rest : list float) :
  forall (st : playlist.walk) (prev : float),
  (playlist.segmentStart st <=? prev)%float = true ->
  Spec.nondecreasing (prev :: rest) = true ->
  Forall (fun s => (Segment.Start s <=? Segment.End s)%float = true)
    (playlist.segments st) ->
  Forall (fun s => (Segment.Start s <=? Segment.End s)%float = true)
    (playlist.segments (fold_left (playlist.step td) rest st)).
Proof.
  induction rest as [|k rest IH]; intros st prev Hcur Hs Hall;
    [exact Hall|].
  change (Spec.nondecreasing (prev :: k :: rest))
    with ((prev <=? k)%float && Spec.nondecreasing (k :: rest)) in Hs.
  apply andb_prop in Hs as [Hk Hs].
  assert (Hle : (playlist.segmentStart st <=? k)%float = true)
    by (eapply leb_trans; [exact Hcur | exact Hk]).
  cbn [fold_left]. apply (IH _ k); [| exact Hs |]; unfold playlist.step;
    cbv zeta;
    destruct (td <=? k - playlist.segmentStart st)%float; cbn.
  - apply leb_refl. apply (leb_same prev k Hk).
  - exact Hle.
  - apply Forall_app. split; [exact Hall|].
    constructor; [exact Hle | constructor].
  - exact Hall.
Qed.

(** C3, as stated, fails: with keyframes [0, 4, 8] and duration 6 the
    segment closed at the keyframe 8 is the last one, no tail is emitted
    ([8 < 6] is false), and the list ends at 8, not at the duration. *)
Lemma CalculateSegments_covers_counterexample :
  [0; 4; 8]%float <> [] /\
  Spec.nondecreasing [0; 4; 8]%float = true /\
  ~ Spec.covers [0; 4; 8]%float 6
      (playlist.CalculateSegments [0; 4; 8]%float 6 6).
Proof.
  split; [discriminate|]. split; [vm_compute; reflexivity|].
  intros ((_ & _ & Hend & _) & _).
  vm_compute in Hend. discriminate.
Qed.

(** C3, amended.  For every non-empty, non-decreasing keyframe list, every
    target duration and every duration above the first keyframe and not
    below the last one, the list returned by [CalculateSegments] is
    non-empty, its first segment starts at [keyframes[0]], its last
    segment ends at [duration], consecutive segments are contiguous, no
    segment runs backward and no two segments overlap (a segment ends at
    or before the start of every later one), and the indices count up
    from 0. *)
Theorem CalculateSegments_covers keyframes duration target_duration :
  keyframes <> [] ->
  Spec.nondecreasing keyframes = true ->
  (hd 0 keyframes <? duration)%float = true ->
  (last keyframes 0 <=? duration)%float = true ->
  Spec.covers keyframes duration
    (playlist.CalculateSegments keyframes duration target_duration).
Proof.
  intros Hne Hs Hfirst Hl.
  assert (Hspans : Spec.spans keyframes duration
            (playlist.CalculateSegments keyframes duration target_duration)).
  { rewrite (last_any_default keyframes 0%float duration Hne) in Hl.
    pose proof (nondecreasing_at_most duration keyframes Hs Hl) as Hall.
    rewrite Forall_forall in Hall.
    assert (Hnan : forall k, In k keyframes -> Spec.same k k)
      by (intros k Hk; apply (leb_same k duration); auto).
    destruct keyframes as [|k0 rest]; [congruence|].
    destruct (fold_step_chained target_duration k0 [] rest
                (playlist.mkWalk [] k0 0)) as (Hc & Hin & Hst);
      [simpl; auto | left; reflexivity | constructor |].
    simpl in Hin, Hst, Hfirst.
    unfold playlist.CalculateSegments, playlist.finish.
    set (st := fold_left (playlist.step target_duration) rest
                 (playlist.mkWalk [] k0 0)) in *.
    destruct (playlist.segmentStart st <? duration)%float eqn:Hlt.
    - apply chained_covers_same
        with (stop := duration) (next := playlist.segmentIndex st + 1).
      + intros E. apply app_eq_nil in E as [_ E]. discriminate.
      + apply chained_snoc. exact Hc.
      + apply Forall_app. split; [exact Hst|].
        constructor; [exact Hin | constructor].
      + exact Hnan.
      + apply (ltb_same _ _ Hlt).
    - apply chained_covers_same
        with (stop := playlist.segmentStart st)
             (next := playlist.segmentIndex st).
      + intros E. rewrite E in Hc. destruct Hc as [Hk0 _].
        simpl in Hk0. rewrite <- Hk0 in Hlt. congruence.
      + exact Hc.
      + exact Hst.
      + exact Hnan.
      + apply leb_not_ltb; [apply Hall; exact Hin | exact Hlt]. }
  assert (Hfwd : Spec.forward
            (playlist.CalculateSegments keyframes duration target_duration)).
  { apply forward_nth.
    destruct keyframes as [|k0 rest]; [congruence|].
    simpl in Hfirst.
    pose proof (fold_step_forward target_duration rest
                  (playlist.mkWalk [] k0 0) k0) as Hloop.
    unfold playlist.CalculateSegments, playlist.finish.
    set (st := fold_left (playlist.step target_duration) rest
                 (playlist.mkWalk [] k0 0)) in *.
    assert (Hsegs : Forall
              (fun s => (Segment.Start s <=? Segment.End s)%float = true)
              (playlist.segments st)).
    { apply Hloop; [| exact Hs | constructor].
      apply leb_refl. apply (ltb_same _ _ Hfirst). }
    destruct (playlist.segmentStart st <? duration)%float eqn:Hlt;
      [|exact Hsegs].
    apply Forall_app. split; [exact Hsegs|].
    constructor; [|constructor]. apply ltb_leb. exact Hlt. }
  split; [exact Hspans|]. split; [exact Hfwd|].
  apply joined_disjoint; [|exact Hfwd].
  destruct Hspans as (_ & _ & _ & Hjoin & _). exact Hjoin.
Qed.

Lemma CalculateSegments_covers_witness :
  let keyframes := [0; 2; 4; 6; 8; 10; 12]%float in
  List.length (playlist.CalculateSegments keyframes 14 6) = 3%nat /\
  Spec.covers keyframes 14 (playlist.CalculateSegments keyframes 14 6).
Proof.
  intros keyframes. split; [vm_compute; reflexivity|].
  apply CalculateSegments_covers.
  - discriminate.
  - vm_compute. reflexivity.
  - vm_compute. reflexivity.
  - vm_compute. reflexivity.
Defined.

(** *** Batch extraction *)

Lemma scan_ge td start rest j j' :
  transcode.scan td start rest j = Some j' -> (j <= j')%nat.
Proof.
  revert j. induction rest as [|k rest IH]; intros j; simpl;
    [discriminate|].
  destruct (td <=? k - start)%float.
  - intros [= ->]. lia.
  - intros H. apply IH in H. lia.
Qed.

(** The loop of [extractSegments] ends within [len(keyframes) - i]
    further iterations: every iteration moves [i] forward. *)
Lemma extractLoop_total fuel keyframes duration startIdx endIdx i idx segs :
  (List.length keyframes - i < fuel)%nat ->
  transcode.extractLoop fuel keyframes duration startIdx endIdx i idx segs
    <> None.
Proof.
  revert i idx segs.
  induction fuel as [|fuel IH]; intros i idx segs Hf; [lia|].
  cbn beta iota zeta delta [transcode.extractLoop].
  destruct (i <? List.length keyframes)%nat eqn:Hi; [|discriminate].
  apply Nat.ltb_lt in Hi.
  destruct (transcode.scan 6%float (nth i keyframes 0%float)
              (skipn (S i) keyframes) (S i)) as [j|] eqn:Hscan.
  - apply scan_ge in Hscan.
    destruct (nth j keyframes 0 =? 0)%float.
    + destruct (j - 1 <? List.length keyframes - 1)%nat;
        destruct (endIdx <? idx + 1); try discriminate; apply IH; lia.
    + destruct (endIdx <? idx + 1); try discriminate; apply IH; lia.
  - change (0 =? 0)%float with true. cbv iota.
    destruct (i <? List.length keyframes - 1)%nat;
      destruct (endIdx <? idx + 1); try discriminate; apply IH; lia.
Qed.

(** So [extractSegments] is the list the loop returns. *)
Lemma extractSegments_total keyframes duration startIdx endIdx :
  transcode.extractLoop (S (List.length keyframes)) keyframes duration
    startIdx endIdx 0%nat 0 [] =
  Some (transcode.extractSegments keyframes duration startIdx endIdx).
Proof.
  unfold transcode.extractSegments.
  destruct (transcode.extractLoop (S (List.length keyframes)) keyframes
              duration startIdx endIdx 0%nat 0 []) as [segs|] eqn:E;
    [reflexivity|].
  exfalso. revert E. apply extractLoop_total. lia.
Qed.

(** C1 fails on the code.  Keyframes every two seconds up to 10 and a
    duration of 11.5, the default target duration 6, job range [0, 9]:
    the segmenter ends the list with the tail [6, 11.5), the pool's
    [extractSegments] with [6, 10) - it closes the last segment at the
    last keyframe instead of the duration. *)
Theorem extractSegments_differs_from_segmenter :
  transcode.extractSegments [0; 2; 4; 6; 8; 10]%float 11.5 0 9 =
    [Segment.mk 0 0 6 6; Segment.mk 1 6 10 4] /\
  Spec.inRange 0 9
    (playlist.CalculateSegments [0; 2; 4; 6; 8; 10]%float 11.5 6) =
    [Segment.mk 0 0 6 6; Segment.mk 1 6 11.5 5.5] /\
  transcode.extractSegments [0; 2; 4; 6; 8; 10]%float 11.5 0 9 <>
  Spec.inRange 0 9
    (playlist.CalculateSegments [0; 2; 4; 6; 8; 10]%float 11.5 6).
Proof.
  split; [vm_compute; reflexivity|]. split; [vm_compute; reflexivity|].
  intros E.
  apply (f_equal (fun l =>
           (Segment.End (last l Spec.noSegment) =? 10)%float)) in E.
  vm_compute in E. discriminate.
Qed.

(** *** The rendition planner *)

Lemma digits2_pos_bound (m : positive) :
  Z.pos m < 2 ^ Z.pos (digits2_pos m).
Proof.
  induction m as [p IH|p IH|]; simpl digits2_pos.
  - rewrite Pos2Z.inj_succ, Z.pow_succ_r by lia. lia.
  - rewrite Pos2Z.inj_succ, Z.pow_succ_r by lia. lia.
  - reflexivity.
Qed.

Lemma valid_mantissa_bound s m e :
  valid_binary (S754_finite s m e) = true -> Z.pos m < 2 ^ 53.
Proof.
  unfold valid_binary, bounded, canonical_mantissa, fexp.
  intros H. apply andb_prop in H as [H _]. apply Z.eqb_eq in H.
  pose proof (digits2_pos_bound m) as Hd.
  assert (Z.pos (digits2_pos m) <= 53) by (unfold prec in H; lia).
  eapply Z.lt_le_trans; [exact Hd|].
  apply Z.pow_le_mono_r; lia.
Qed.

(** [int(f)] is an [int], and never the largest one: a binary64 has 53
    significant bits, [2^63 - 1] has 63. *)
Lemma int_range (f : float) : Go.min_int <= Go.int f < Go.max_int.
Proof.
  unfold Go.int. pose proof (Prim2SF_valid f) as Hv.
  destruct (Prim2SF f) as [s|s| |s m e];
    try (unfold Go.min_int, Go.max_int; lia).
  apply valid_mantissa_bound in Hv.
  cbv zeta.
  set (mag := if 0 <=? e then Z.pos m * 2 ^ e else Z.pos m / 2 ^ (- e)).
  set (v := if s then - mag else mag).
  destruct ((Go.min_int <=? v) && (v <=? Go.max_int)) eqn:Hr;
    [|unfold Go.min_int, Go.max_int; lia].
  apply andb_prop in Hr as [Hlo Hhi].
  apply Z.leb_le in Hlo. apply Z.leb_le in Hhi.
  split; [exact Hlo|].
  assert (Hne : v <> Go.max_int); [|lia].
  intros Hv'. unfold v, mag in Hv'. unfold Go.max_int in Hv'.
  destruct (0 <=? e) eqn:He.
  - apply Z.leb_le in He.
    destruct (Z.eq_dec e 0) as [->|Hne0].
    + rewrite Z.pow_0_r, Z.mul_1_r in Hv'. destruct s; lia.
    + assert (Hpow : 2 ^ e = 2 * 2 ^ (e - 1)).
      { rewrite <- Z.pow_succ_r by lia. f_equal. lia. }
      rewrite Hpow in Hv'. destruct s; lia.
  - apply Z.leb_gt in He.
    assert (Hq : 0 <= Z.pos m / 2 ^ (- e) <= Z.pos m).
    { split; [apply Z.div_pos; [lia | apply Z.pow_pos_nonneg; lia]|].
      apply Z.div_le_upper_bound; [apply Z.pow_pos_nonneg; lia|].
      assert (0 < 2 ^ (- e)) by (apply Z.pow_pos_nonneg; lia). nia. }
    destruct s; lia.
Qed.

Lemma rem2_even (w : Z) : (Z.rem w 2 =? 0) = Z.even w.
Proof.
  destruct (Z.even w) eqn:E.
  - apply Z.eqb_eq. apply Z.even_spec in E as [k ->].
    rewrite Z.mul_comm. apply Z.rem_mul. lia.
  - apply Z.eqb_neq. intros H.
    apply Z.rem_divide in H; [|lia]. destruct H as [k ->].
    rewrite Z.even_mul in E. simpl in E. rewrite orb_true_r in E.
    discriminate.
Qed.

Lemma even_wrap64 (z : Z) : Z.even (Go.wrap64 z) = Z.even z.
Proof.
  unfold Go.wrap64. rewrite Z.mod_eq by lia.
  rewrite !Z.even_sub, Z.even_add, Z.even_mul.
  change (Z.even (2 ^ 63)) with true. change (Z.even (2 ^ 64)) with true.
  simpl. destruct (Z.even z); reflexivity.
Qed.

(** [calculateWidth] rounds the truncated product up to the next even
    integer; the increment cannot overflow. *)
Lemma calculateWidth_spec (srcWidth srcHeight targetHeight : Z) :
  Spec.smallestEvenAtLeast
    (Spec.truncatedWidth srcWidth srcHeight targetHeight) 1
    (rendition.calculateWidth srcWidth srcHeight targetHeight).
Proof.
  unfold rendition.calculateWidth, Spec.truncatedWidth,
    Spec.smallestEvenAtLeast.
  set (t := Go.int _). pose proof (int_range (Go.float64 targetHeight *
    (Go.float64 srcWidth / Go.float64 srcHeight))%float) as Hr.
  fold t in Hr. cbv zeta. rewrite rem2_even.
  destruct (Z.even t) eqn:E; simpl negb; cbv iota.
  - repeat split; [exact E | lia | intros; lia].
  - assert (Hw : Go.wrap64 (t + 1) = t + 1).
    { unfold Go.wrap64, Go.min_int, Go.max_int in *.
      rewrite Z.mod_small by lia. lia. }
    rewrite Hw. repeat split.
    + rewrite Z.even_add, E. reflexivity.
    + lia.
    + intros m Hm Hle. destruct (Z.eq_dec m t) as [->|]; [congruence|lia].
Qed.

Lemma clampBitrate_bounds (height bitrate : Z) (b : rendition.bounds) :
  rendition.bitrateBounds height = Some b ->
  rendition.min b <= rendition.max b ->
  rendition.min b <= rendition.clampBitrate height bitrate
    <= rendition.max b.
Proof.
  intros Hb Hle. unfold rendition.clampBitrate. rewrite Hb.
  destruct (bitrate <? rendition.min b) eqn:H1; [lia|].
  destruct (rendition.max b <? bitrate) eqn:H2; [lia|].
  apply Z.ltb_ge in H1. apply Z.ltb_ge in H2. lia.
Qed.

(** Every key of the bounds table has [min <= max], and every target
    height is a key. *)
Lemma targetHeights_bounded (h : Z) :
  In h rendition.targetHeights ->
  exists b, rendition.bitrateBounds h = Some b /\
            rendition.min b <= rendition.max b.
Proof.
  intros Hin. simpl in Hin.
  repeat (destruct Hin as [<-|Hin];
          [eexists; split; [reflexivity | simpl; lia]|]).
  contradiction.
Qed.

Section Planner.
Import rendition.
Variables (srcWidth srcHeight srcBitrate srcPixels : Z) (srcCodec : string).

Lemma fold_videoStep_In (heights : list Z) (acc : list VideoRendition.t)
    (r : VideoRendition.t) :
  In r (fold_left (videoStep srcWidth srcHeight srcBitrate srcPixels srcCodec)
          heights acc) ->
  In r acc \/
  exists h, In h heights /\ h <= srcHeight /\
    r = emit srcWidth srcHeight srcBitrate srcPixels srcCodec h.
Proof.
  revert acc. induction heights as [|h heights IH]; intros acc; simpl.
  - auto.
  - intros Hin. apply IH in Hin as [Hin|(h' & Hh & Hle & ->)].
    + unfold videoStep in Hin. destruct (srcHeight <? h) eqn:Hlt;
        [left; exact Hin|].
      apply in_app_or in Hin as [Hin|[<-|[]]]; [left; exact Hin|].
      right. exists h. apply Z.ltb_ge in Hlt. auto.
    + right. exists h'. auto.
Qed.

End Planner.

Lemma GenerateVideo_In (video : VideoStream.t) (r : VideoRendition.t) :
  In r (rendition.GenerateVideo video) ->
  exists h srcBitrate,
    In h rendition.targetHeights /\ h <= VideoStream.Height video /\
    r = rendition.emit (VideoStream.Width video) (VideoStream.Height video)
          srcBitrate
          (Go.wrap64 (VideoStream.Width video * VideoStream.Height video))
          (VideoStream.Codec video) h.
Proof.
  unfold rendition.GenerateVideo. intros Hin.
  apply fold_videoStep_In in Hin as [[]|(h & Hh & Hle & ->)].
  eauto.
Qed.

(** C6.  For every source video stream with positive width, height and
    pixel count, every rendition of [GenerateVideo] has its bitrate within
    the bounds the table gives for its height, an even width, a height at
    most the source height, and the method [direct_stream] exactly when
    the source codec is h264 and its height is the source height, the
    method [transcode] otherwise. *)
Theorem GenerateVideo_renditions (video : VideoStream.t)
    (r : VideoRendition.t) :
  0 < VideoStream.Width video ->
  0 < VideoStream.Height video ->
  0 < Go.wrap64 (VideoStream.Width video * VideoStream.Height video) ->
  In r (rendition.GenerateVideo video) ->
  (exists b, rendition.bitrateBounds (VideoRendition.Height r) = Some b /\
             rendition.min b <= VideoRendition.Bitrate r
               <= rendition.max b) /\
  Z.even (VideoRendition.Width r) = true /\
  VideoRendition.Height r <= VideoStream.Height video /\
  (VideoRendition.Method r = DirectStream <->
   VideoStream.Codec video = "h264"%string /\
   VideoRendition.Height r = VideoStream.Height video) /\
  (VideoRendition.Method r <> DirectStream ->
   VideoRendition.Method r = Transcode).
Proof.
  intros _ _ _ Hin.
  apply GenerateVideo_In in Hin as (h & srcBitrate & Hh & Hle & ->).
  unfold rendition.emit. simpl.
  destruct (targetHeights_bounded h Hh) as (b & Hb & Hmm).
  split; [exists b; split; [exact Hb | apply clampBitrate_bounds; auto]|].
  split; [apply (calculateWidth_spec _ _ h)|].
  split; [exact Hle|].
  unfold rendition.directStreamCodecs.
  destruct (String.eqb_spec (VideoStream.Codec video) "h264") as [Hc|Hc];
    destruct (Z.eqb_spec h (VideoStream.Height video)) as [Hh'|Hh'];
    simpl; split; try tauto; try (intros; congruence);
    split; try (intros; discriminate); tauto.
Qed.

Lemma GenerateVideo_renditions_witness :
  let video := VideoStream.mk 0 "h264" 1920 1080 10000000 30 in
  let r := VideoRendition.mk "1080p" 1920 1080 8000000 DirectStream in
  In r (rendition.GenerateVideo video) /\
  (exists b, rendition.bitrateBounds (VideoRendition.Height r) = Some b /\
             rendition.min b <= VideoRendition.Bitrate r
               <= rendition.max b) /\
  Z.even (VideoRendition.Width r) = true /\
  VideoRendition.Height r <= VideoStream.Height video /\
  (VideoRendition.Method r = DirectStream <->
   VideoStream.Codec video = "h264"%string /\
   VideoRendition.Height r = VideoStream.Height video) /\
  (VideoRendition.Method r <> DirectStream ->
   VideoRendition.Method r = Transcode).
Proof.
  intros video r.
  assert (Hin : In r (rendition.GenerateVideo video))
    by (vm_compute; left; reflexivity).
  split; [exact Hin|].
  apply (GenerateVideo_renditions video r); [reflexivity .. | exact Hin].
Defined.

(** C7, as stated, fails: a 854x480 source gets a 360p rendition of width
    640, the exact scaled width is 854 * 360 / 480 = 640.5 and the
    smallest even integer at or above it is 642. *)
Lemma calculateWidth_counterexample :
  let video := VideoStream.mk 0 "h264" 854 480 1500000 30 in
  let r := VideoRendition.mk "360p" 640 360 843091 Transcode in
  In r (rendition.GenerateVideo video) /\
  ~ Spec.smallestEvenAtLeast
      (VideoStream.Width video * VideoRendition.Height r)
      (VideoStream.Height video) (VideoRendition.Width r).
Proof.
  intros video r. split.
  - vm_compute. right. left. reflexivity.
  - intros (_ & Hle & _). vm_compute in Hle. apply Hle. reflexivity.
Qed.

(** C7, amended.  For every source video stream and every rendition of
    [GenerateVideo], the width is the smallest even integer greater than
    or equal to the truncated scaled width, the binary64 product
    [float64(h) * (float64(source.width) / float64(source.height))]
    converted to [int]: the fraction is dropped before the rounding up. *)
Theorem GenerateVideo_width (video : VideoStream.t) (r : VideoRendition.t) :
  In r (rendition.GenerateVideo video) ->
  Spec.smallestEvenAtLeast
    (Spec.truncatedWidth (VideoStream.Width video) (VideoStream.Height video)
       (VideoRendition.Height r))
    1 (VideoRendition.Width r).
Proof.
  intros Hin.
  apply GenerateVideo_In in Hin as (h & srcBitrate & Hh & Hle & ->).
  apply calculateWidth_spec.
Qed.

Lemma GenerateVideo_width_witness :
  let video := VideoStream.mk 0 "h264" 854 480 1500000 30 in
  let r := VideoRendition.mk "360p" 640 360 843091 Transcode in
  In r (rendition.GenerateVideo video) /\
  Spec.smallestEvenAtLeast (Spec.truncatedWidth 854 480 360) 1 640.
Proof.
  intros video r.
  assert (Hin : In r (rendition.GenerateVideo video))
    by (vm_compute; right; left; reflexivity).
  split; [exact Hin|].
  exact (GenerateVideo_width video r Hin).
Defined.

(** *** Keyframe lookup *)

(** C8 fails on the code.  On [5, 10, 15] at 10.005 (scenario S5) the
    code prefers the previous keyframe 5, as the claim says.  On
    [0, 10, 15] at the same target the claim's answer is the preceding
    keyframe 0, the code returns 10: it takes [prevKeyframe > 0] for "a
    previous keyframe exists", so a previous keyframe at time 0 does not
    count. *)
Theorem findNearestKeyframe_previous_at_zero :
  transcode.findNearestKeyframe [5; 10; 15]%float 10.005 = 5%float /\
  Spec.nearestKeyframe [5; 10; 15]%float 10.005 = Some 5%float /\
  transcode.findNearestKeyframe [0; 10; 15]%float 10.005 = 10%float /\
  Spec.nearestKeyframe [0; 10; 15]%float 10.005 = Some 0%float.
Proof. repeat split; vm_compute; reflexivity. Qed.

(** *** Running programs *)

Section Exec.
Import effect.
Context {W : Type} (h : handler W).

Lemma exec_bind {A B : Type} (p : prog A) (f : A -> prog B) (w : W) :
  exec h (bind p f) w =
  let '(a, w1, tr1) := exec h p w in
  let '(b, w2, tr2) := exec h (f a) w1 in
  (b, w2, tr1 ++ tr2).
Proof.
  revert w. induction p as [a|c k IH]; intros w; simpl.
  - destruct (exec h (f a) w) as [[b w2] tr2]. reflexivity.
  - destruct (h c w) as [r w1]. rewrite IH.
    destruct (exec h (k r) w1) as [[a w2] tr1].
    destruct (exec h (f a) w2) as [[b w3] tr2]. reflexivity.
Qed.

Lemma exec_perform (c : call) (w : W) :
  exec h (perform c) w =
  (fst (h c w), snd (h c w), [Event c (fst (h c w))]).
Proof. simpl. destruct (h c w) as [r w1]. reflexivity. Qed.

End Exec.

(** *** The notifying store facade *)

(** C5.  [NotifyingStorage.WriteSegment] first calls the underlying
    [WriteSegment].  If that fails with [e] it publishes the status
    (error, [e]) for the same key and returns the error wrapped.  If it
    succeeds it then publishes the status ready for the same key, and
    returns an error exactly when that publish fails (that error,
    wrapped). *)
Theorem WriteSegment_notifies {W : Type} (h : effect.handler W) (w : W)
    (info : SegmentData.t) (data : Go.bytes) :
  let write := effect.Storage_WriteSegment info data in
  let '(stored, w1) := h write w in
  match stored with
  | Some e =>
      let notify :=
        effect.Coordinator_NotifySegment info
          (SegmentStatus.mk SegmentStateError e) in
      let '(published, w2) := h notify w1 in
      effect.exec h (segment.WriteSegment info data) w =
      (Some ("storage write: " ++ e)%string, w2,
       [effect.Event write (Some e); effect.Event notify published])
  | None =>
      let notify :=
        effect.Coordinator_NotifySegment info
          (SegmentStatus.mk SegmentStateReady EmptyString) in
      let '(published, w2) := h notify w1 in
      exists returned,
        effect.exec h (segment.WriteSegment info data) w =
        (returned, w2,
         [effect.Event write None; effect.Event notify published]) /\
        (returned <> None <-> published <> None) /\
        (forall e, published = Some e ->
           returned = Some ("notify segment: " ++ e)%string)
  end.
Proof.
  unfold segment.WriteSegment. cbv zeta. simpl.
  destruct (h (effect.Storage_WriteSegment info data) w)
    as [[e|] w1]; simpl.
  - destruct (h (effect.Coordinator_NotifySegment info
                     (SegmentStatus.mk SegmentStateError e)) w1)
      as [published w2]. reflexivity.
  - destruct (h (effect.Coordinator_NotifySegment info
                     (SegmentStatus.mk SegmentStateReady EmptyString)) w1)
      as [[e|] w2]; simpl.
    + eexists. split; [reflexivity|]. split.
      * split; intros _; discriminate.
      * intros e' [= ->]. reflexivity.
    + eexists. split; [reflexivity|]. split.
      * tauto.
      * intros e' [=].
Qed.

(** *** The pool *)

Lemma upto_cons (lo hi : Z) :
  lo <= hi -> Go.upto lo hi = lo :: Go.upto (lo + 1) hi.
Proof.
  intros H. unfold Go.upto.
  replace (Z.to_nat (hi - lo + 1)) with (S (Z.to_nat (hi - (lo + 1) + 1)))
    by lia.
  cbn [seq map]. rewrite <- seq_shift, map_map. f_equal; [lia|].
  apply map_ext. intros k. lia.
Qed.

(** Below the largest int the loop [for i := lo; i <= hi; i++] ends and
    [i] takes the values of [upto lo hi]. *)
Lemma forLoop_upto (lo hi : Z) :
  Go.min_int <= lo <= Go.max_int -> hi < Go.max_int ->
  Go.forLoop (S (Z.to_nat (hi - lo + 1))) lo hi = Some (Go.upto lo hi).
Proof.
  intros Hlo Hhi.
  remember (Z.to_nat (hi - lo + 1)) as n eqn:Hn.
  revert lo Hlo Hn. induction n as [|n IH]; intros lo Hlo Hn.
  - cbn [Go.forLoop]. destruct (Z.leb_spec lo hi) as [H|H]; [lia|].
    unfold Go.upto. rewrite <- Hn. reflexivity.
  - change (Go.forLoop (S (S n)) lo hi)
      with (if lo <=? hi
            then option_map (cons lo)
                   (Go.forLoop (S n) (Go.wrap64 (lo + 1)) hi)
            else Some []).
    destruct (Z.leb_spec lo hi) as [H|H]; [|lia].
    assert (Hw : Go.wrap64 (lo + 1) = lo + 1).
    { unfold Go.wrap64, Go.min_int, Go.max_int in *.
      rewrite Z.mod_small by lia. lia. }
    rewrite Hw, IH.
    + rewrite (upto_cons lo hi H). reflexivity.
    + unfold Go.min_int, Go.max_int in *. lia.
    + lia.
Qed.

(** Up to the largest int the loop does not end, however many rounds it
    is given. *)
Lemma forLoop_endless (rounds : nat) (lo : Z) :
  Go.min_int <= lo <= Go.max_int ->
  Go.forLoop rounds lo Go.max_int = None.
Proof.
  revert lo. induction rounds as [|n IH]; intros lo Hlo; [reflexivity|].
  cbn [Go.forLoop].
  destruct (Z.leb_spec lo Go.max_int) as [H|H]; [|lia].
  rewrite IH; [reflexivity|].
  unfold Go.wrap64, Go.min_int, Go.max_int in *.
  pose proof (Z.mod_pos_bound (lo + 1 + 2 ^ 63) (2 ^ 64)). lia.
Qed.

Section PoolOutcome.
Import effect transcode.
Context {W : Type} (h : handler W).
Variables (p : Pool) (job : Job.t).

(** The notifications [publishError] makes: one error status per index
    of the job's range, whatever the coordinator answers. *)
Lemma publishLoop_trace (err : Go.error) (indices : list Z) (w : W) :
  let '(_, _, tr) := exec h (publishLoop p job err indices) w in
  Spec.notifications tr =
    map (fun i =>
           (SegmentData.mk (Job.SourceURL job) i 0 0 0%float
              (Job.Rendition job) (String.eqb (streamType p) StreamVideo),
            SegmentStatus.mk SegmentStateError err)) indices /\
  Spec.acks tr = [].
Proof.
  revert w. induction indices as [|i rest IH]; intros w; simpl.
  - auto.
  - destruct (h _ w) as [r w1]. specialize (IH w1).
    destruct (exec h (publishLoop p job err rest) w1) as [[u w2] tr].
    destruct IH as [IH1 IH2]. simpl. rewrite IH1, IH2. auto.
Qed.

Lemma publishError_outcome (err : Go.error) (w : W) :
  let '(_, _, tr) := exec h (publishError p job err) w in
  Spec.acks tr = [] /\ Spec.notifications tr = Spec.fanout p job err.
Proof.
  unfold publishError.
  pose proof (publishLoop_trace err
                (Go.upto (Job.StartIndex job) (Job.EndIndex job)) w) as H.
  destruct (exec h _ w) as [[u w2] tr]. tauto.
Qed.

Lemma processJobIn_outcome meta segs tmpDir (w : W) :
  let '(_, _, tr) := exec h (processJobIn p job meta segs tmpDir) w in
  Spec.jobOutcome p job tr.
Proof.
  unfold processJobIn. cbv zeta.
  assert (Hstart : forall args skipFirst,
    let '(_, _, tr) := exec h
      (err <- perform (Worker_Start args (Job.SourceURL job)
                         (Job.Rendition job)
                         (String.eqb (streamType p) StreamVideo)
                         tmpDir skipFirst) ;;
       match err with
       | Some err => publishError p job err
       | None => _ <- perform Pool_waitForWorker ;;
                 _ <- perform (Coordinator_Ack (Job.ID job)) ;; Ret tt
       end)%prog w in Spec.jobOutcome p job tr).
  { intros args skipFirst. simpl.
    destruct (h _ w) as [[err|] w1].
    - pose proof (publishError_outcome err w1) as H.
      destruct (exec h _ w1) as [[u w2] tr]. right. simpl.
      destruct H as [-> ->]. eauto.
    - simpl. destruct (h Pool_waitForWorker w1) as [u w2].
      destruct (h (Coordinator_Ack (Job.ID job)) w2) as [a w3].
      left. simpl. auto. }
  destruct (String.eqb (streamType p) StreamVideo) eqn:Hv.
  - destruct (findVideoRendition meta (Job.Rendition job)).
    + apply Hstart.
    + pose proof (publishError_outcome
        ("video rendition " ++ Job.Rendition job ++ " not found")%string w)
        as H.
      destruct (exec h _ w) as [[u w2] tr]. right. destruct H as [-> ->].
      eauto.
  - destruct (findAudioRendition meta (Job.Rendition job)).
    + apply Hstart.
    + pose proof (publishError_outcome
        ("audio rendition " ++ Job.Rendition job ++ " not found")%string w)
        as H.
      destruct (exec h _ w) as [[u w2] tr]. right. destruct H as [-> ->].
      eauto.
Qed.


(** Whatever the collaborators answer, [processJob] either starts the
    worker and acknowledges the job, or fails before, publishes the error
    over [upto StartIndex EndIndex] and does not acknowledge. *)
Lemma processJob_outcome (w : W) :
  let '(_, _, tr) := exec h (processJob p job) w in
  Spec.jobOutcome p job tr.
Proof.
  unfold processJob, getMetadata. simpl.
  destruct (h (Storage_GetMetadata (Job.SourceURL job)) w)
    as [[data|err] w1]; simpl.
  2: { pose proof (publishError_outcome err w1) as H.
       destruct (exec h _ w1) as [[u w2] tr]. right. simpl.
       destruct H as [-> ->]. eauto. }
  destruct (json_Unmarshal p data) as [meta|err].
  2: { pose proof (publishError_outcome err w1) as H.
       destruct (exec h _ w1) as [[u w2] tr]. right. simpl.
       destruct H as [-> ->]. eauto. }
  match goal with |- context [if ?c then _ else _] => destruct c end.
  { match goal with |- context [publishError p job ?e] =>
      pose proof (publishError_outcome e w1) as H end.
    destruct (exec h _ w1) as [[u w2] tr]. right. simpl.
    destruct H as [-> ->]. eauto. }
  simpl.
  destruct (h (os_MkdirTemp EmptyString "transcode-*") w1)
    as [[tmp|err] w2]; simpl.
  2: { pose proof (publishError_outcome
                     ("create temp dir: " ++ err)%string w2) as H.
       destruct (exec h _ w2) as [[u w3] tr]. right. simpl.
       destruct H as [-> ->]. eauto. }
  rewrite exec_bind.
  match goal with |- context [processJobIn p job meta ?segs tmp] =>
    pose proof (processJobIn_outcome meta segs tmp w2) as H end.
  destruct (exec h (processJobIn _ _ _ _ _) w2) as [[u w3] tr].
  simpl. destruct (h (os_RemoveAll tmp) w3) as [r w4].
  unfold Spec.jobOutcome, Spec.acks, Spec.notifications in *.
  simpl. rewrite !flat_map_app. simpl. rewrite !app_nil_r. exact H.
Qed.

(** Missing metadata: every index of the range gets the error, and the
    job is not acknowledged - [processJob] returns right after
    [publishError]. *)
Lemma processJob_without_metadata (w w1 : W) (err : Go.error) :
  h (Storage_GetMetadata (Job.SourceURL job)) w = (Go.Err err, w1) ->
  let '(_, _, tr) := exec h (processJob p job) w in
  Spec.notifications tr = Spec.fanout p job err /\ Spec.acks tr = [].
Proof.
  intros Hmeta. unfold processJob, getMetadata. simpl. rewrite Hmeta. simpl.
  pose proof (publishError_outcome err w1) as H.
  destruct (exec h _ w1) as [[u w2] tr].
  simpl. tauto.
Qed.

End PoolOutcome.

(** X8.  For a job whose indices are ints with the end below the largest
    int, the loop of [publishError] over the range ends, and whatever the
    collaborators answer [processJob] ends in one of two ways: the job is
    acknowledged once and no status was published, or the job is not
    acknowledged and one error was published for every index of the
    range, in order. *)
Theorem processJob_acks_or_publishes {W : Type} (h : effect.handler W)
    (p : transcode.Pool) (job : Job.t) (w : W) :
  Spec.boundedRange job ->
  (exists rounds,
     Go.forLoop rounds (Job.StartIndex job) (Job.EndIndex job) =
       Some (Go.upto (Job.StartIndex job) (Job.EndIndex job))) /\
  let '(_, _, tr) := effect.exec h (transcode.processJob p job) w in
  Spec.jobOutcome p job tr.
Proof.
  intros [Hs He]. split.
  - eexists. apply forLoop_upto; [exact Hs | apply He].
  - apply processJob_outcome.
Qed.

Lemma processJob_acks_or_publishes_witness :
  let job := Job.mk "job-1" "file:///source" "1080p" StreamVideo 2 4 in
  let meta :=
    Metadata.mk 60 [0; 6; 12; 18; 24; 30; 36; 42; 48; 54]%float
      (VideoStream.mk 0 "h264" 1920 1080 10000000 30) [] [] in
  let pool := Spec.videoPool meta in
  Spec.boundedRange job /\
  (exists rounds,
     Go.forLoop rounds 2 4 = Some [2; 3; 4]) /\
  let '(_, _, tr) :=
    effect.exec Spec.noMetadata (transcode.processJob pool job) tt in
  Spec.jobOutcome pool job tr.
Proof.
  intros job meta pool.
  assert (Hb : Spec.boundedRange job)
    by (unfold Spec.boundedRange, Go.min_int, Go.max_int; simpl; lia).
  split; [exact Hb|].
  exact (processJob_acks_or_publishes Spec.noMetadata pool job tt Hb).
Defined.

(** C4 fails on the code.  A job for segments 2 to 4 of a source whose
    metadata is missing: the three error notifications are published, and
    the job is never acknowledged.  (With the metadata present and the
    worker started, the same job is acknowledged.) *)
Theorem processJob_failure_not_acknowledged :
  let job := Job.mk "job-1" "file:///source" "1080p" StreamVideo 2 4 in
  let meta :=
    Metadata.mk 60 [0; 6; 12; 18; 24; 30; 36; 42; 48; 54]%float
      (VideoStream.mk 0 "h264" 1920 1080 10000000 30) [] [] in
  let pool := Spec.videoPool meta in
  let failed := snd (effect.exec Spec.noMetadata
                       (transcode.processJob pool job) tt) in
  let served := snd (effect.exec Spec.quiet
                       (transcode.processJob pool job) tt) in
  map (fun n => (SegmentData.Index (fst n), SegmentStatus.State (snd n)))
    (Spec.notifications failed) =
    [(2, SegmentStateError); (3, SegmentStateError); (4, SegmentStateError)]
  /\ Spec.acks failed = []
  /\ Spec.acks served = ["job-1"%string].
Proof. repeat split; vm_compute; reflexivity. Qed.

(** *** The worker *)

Lemma Split_afterLastDash (s : string) :
  match Spec.afterLastDash s with
  | None => Go.Split s "-"%char = [s]
  | Some t =>
      (2 <= List.length (Go.Split s "-"%char))%nat /\
      last (Go.Split s "-"%char) EmptyString = t
  end.
Proof.
  induction s as [|c s IH]; simpl; [reflexivity|].
  destruct (Spec.afterLastDash s) as [t|].
  - destruct IH as [Hlen Hlast].
    destruct (Ascii.eqb c "-"%char).
    + split; [simpl; lia|].
      destruct (Go.Split s "-"%char) as [|x xs]; [simpl in Hlen; lia|].
      exact Hlast.
    + destruct (Go.Split s "-"%char) as [|x [|y ys]];
        try (simpl in Hlen; lia).
      split; [simpl; lia | exact Hlast].
  - rewrite IH. destruct (Ascii.eqb c "-"%char).
    + split; [simpl; lia | reflexivity].
    + reflexivity.
Qed.

(** [parseSegmentIndex] succeeds exactly on the names that carry a
    trailing integer, with that integer. *)
Lemma parseSegmentIndex_trailingInteger (filename : string) :
  match transcode.parseSegmentIndex filename with
  | Go.Ok n => Spec.trailingInteger filename = Some n
  | Go.Err _ => Spec.trailingInteger filename = None
  end.
Proof.
  unfold transcode.parseSegmentIndex, Spec.trailingInteger. cbv zeta.
  pose proof (Split_afterLastDash (Go.TrimSuffix filename ".ts")) as H.
  destruct (Spec.afterLastDash (Go.TrimSuffix filename ".ts")) as [t|].
  - destruct H as [Hlen Hlast].
    destruct (Nat.ltb_spec
                (List.length (Go.Split (Go.TrimSuffix filename ".ts") "-"))
                2); [lia|].
    rewrite Hlast. destruct (Go.Atoi t); reflexivity.
  - rewrite H. reflexivity.
Qed.

Section WorkerLoop.
Import effect transcode.
Context {W : Type} (h : handler W).
Variable wk : Worker.




(** A worker that ends in [WorkerStateDone] drained its scan loop. *)
Lemma run_done (lines : list string) (w w1 : W) (err : option Go.error)
    (tr : list event) :
  exec h (run wk lines) w = (WorkerStateDone, err, w1, tr) ->
  exists w2 tr2,
    exec h (scanLoop wk (skipFirst wk) lines) w = (Drained, w2, tr2) /\
    Spec.actions tr = Spec.actions tr2.
Proof.
  unfold run. rewrite exec_bind.
  destruct (exec h (scanLoop wk (skipFirst wk) lines) w)
    as [[[| |e] w2] tr2]; simpl.
  - destruct (h cmd_Wait w2) as [[e|] w3]; simpl.
    + destruct (h ctx_Err w3) as [[e'|] w4]; simpl.
      * intros [= <- <- <-]. exists w2, tr2. split; [reflexivity|].
        unfold Spec.actions. rewrite flat_map_app. simpl.
        now rewrite app_nil_r.
      * discriminate.
    + intros [= <- <- <-]. exists w2, tr2. split; [reflexivity|].
      unfold Spec.actions. rewrite flat_map_app. simpl.
      now rewrite app_nil_r.
  - destruct (h cmd_Wait w2) as [r w3]. simpl. discriminate.
  - destruct (h cmd_Wait w2) as [r w3]. simpl. discriminate.
Qed.

End WorkerLoop.

Section WorkerTrace.
Import effect transcode.
Context {W : Type} (h : handler W).
Variable wk : Worker.

(** The four ways [uploadSegment] can go. *)
Lemma uploadSegment_trace (filename : string) (w : W) :
  let '(res, _, tr) := exec h (uploadSegment wk filename) w in
  let path := Join wk (tmpDir wk) filename in
  (res = None /\ tr = []) \/
  (exists e, res <> None /\ tr = [Event (os_ReadFile path) (Go.Err e)]) \/
  (exists data info e,
     res <> None /\
     tr = [Event (os_ReadFile path) (Go.Ok data);
           Event (Storage_WriteSegment info data) (Some e)]) \/
  (exists data info r,
     res = None /\
     tr = [Event (os_ReadFile path) (Go.Ok data);
           Event (Storage_WriteSegment info data) None;
           Event (os_Remove path) r]).
Proof.
  unfold uploadSegment.
  destruct (parseSegmentIndex filename) as [idx|e]; simpl; [|auto].
  destruct (h (os_ReadFile (Join wk (tmpDir wk) filename)) w)
    as [[data|e] w2]; simpl.
  2: { right. left. exists e. split; [discriminate | reflexivity]. }
  destruct (h (Storage_WriteSegment _ data) w2) as [[e|] w3]; simpl.
  - right. right. left. eexists data, _, e.
    split; [discriminate | reflexivity].
  - destruct (h (os_Remove (Join wk (tmpDir wk) filename)) w3) as [r w4].
    simpl. right. right. right. eexists data, _, r.
    split; reflexivity.
Qed.

(** How the scan loop ends: drained without a failed call or a
    cancellation; cancelled right after the context reported done; failed
    right after the read or the upload that failed.  It never waits for
    the encoder itself. *)
Lemma scanLoop_exit (lines : list string) (skip : bool) (w : W) :
  let '(ex, _, tr) := exec h (scanLoop wk skip lines) w in
  let calm e := ~ Spec.failedUpload e /\ ~ Spec.cancelled e /\
                ~ Spec.isWait e in
  match ex with
  | Drained => Forall calm tr
  | Cancelled =>
      exists before,
        tr = before ++ [Event ctx_Done true] /\ Forall calm before
  | Failed err =>
      exists before e,
        tr = before ++ [e] /\ Spec.failedUpload e /\ ~ Spec.isWait e /\
        Forall calm before
  end.
Proof.
  revert skip w. induction lines as [|text rest IH]; intros skip w.
  - simpl. constructor.
  - cbn [scanLoop]. rewrite exec_bind, exec_perform.
    destruct (h ctx_Done w) as [[|] w1]; cbn [fst snd].
    + simpl. exists []. split; [reflexivity | constructor].
    + assert (Hdone : ~ Spec.failedUpload (Event ctx_Done false) /\
                      ~ Spec.cancelled (Event ctx_Done false) /\
                      ~ Spec.isWait (Event ctx_Done false))
        by (simpl; tauto).
      destruct (String.eqb (Go.TrimSpace text) EmptyString).
      * specialize (IH skip w1).
        destruct (exec h (scanLoop wk skip rest) w1) as [[ex w2] tr].
        cbn [app]. destruct ex as [| |err].
        -- constructor; assumption.
        -- destruct IH as (before & -> & Hb).
           exists (Event ctx_Done false :: before).
           split; [reflexivity | constructor; assumption].
        -- destruct IH as (before & e & -> & He & Hw & Hb).
           exists (Event ctx_Done false :: before), e.
           repeat split; try assumption. constructor; assumption.
      * destruct skip.
        -- rewrite exec_bind, exec_perform.
           destruct (h (os_Remove (Join wk (tmpDir wk) (Go.TrimSpace text)))
                       w1) as [r w2]; cbn [fst snd].
           assert (Hrm : ~ Spec.failedUpload
                             (Event (os_Remove
                                       (Join wk (tmpDir wk)
                                          (Go.TrimSpace text))) r) /\
                         ~ Spec.cancelled
                             (Event (os_Remove
                                       (Join wk (tmpDir wk)
                                          (Go.TrimSpace text))) r) /\
                         ~ Spec.isWait
                             (Event (os_Remove
                                       (Join wk (tmpDir wk)
                                          (Go.TrimSpace text))) r))
             by (simpl; tauto).
           specialize (IH false w2).
           destruct (exec h (scanLoop wk false rest) w2) as [[ex w3] tr].
           cbn [app]. destruct ex as [| |err].
           ++ repeat (constructor; try assumption).
           ++ destruct IH as (before & -> & Hb).
              eexists (Event ctx_Done false :: Event _ r :: before).
              split; [reflexivity|].
              repeat (constructor; try assumption).
           ++ destruct IH as (before & e & -> & He & Hw & Hb).
              eexists (Event ctx_Done false :: Event _ r :: before), e.
              repeat split; try assumption.
              repeat (constructor; try assumption).
        -- rewrite exec_bind.
           pose proof (uploadSegment_trace (Go.TrimSpace text) w1) as Hup.
           destruct (exec h (uploadSegment wk (Go.TrimSpace text)) w1)
             as [[res w2] tr1].
           cbv zeta in Hup.
           destruct Hup as [[-> ->] | [(e & Hres & ->) |
                            [(data & info & e & Hres & ->) |
                             (data & info & r & -> & ->)]]].
           ++ specialize (IH false w2).
              destruct (exec h (scanLoop wk false rest) w2) as [[ex w3] tr].
              cbn [app]. destruct ex as [| |err].
              ** constructor; assumption.
              ** destruct IH as (before & -> & Hb).
                 exists (Event ctx_Done false :: before).
                 split; [reflexivity | constructor; assumption].
              ** destruct IH as (before & e & -> & He & Hw & Hb).
                 exists (Event ctx_Done false :: before), e.
                 repeat split; try assumption. constructor; assumption.
           ++ destruct res as [err|]; [|congruence]. simpl.
              eexists [Event ctx_Done false],
                      (Event (os_ReadFile _) (Go.Err e)).
              repeat split; simpl; auto.
           ++ destruct res as [err|]; [|congruence]. simpl.
              eexists [Event ctx_Done false;
                       Event (os_ReadFile _) (Go.Ok data)],
                     (Event (Storage_WriteSegment info data) (Some e)).
              repeat split; simpl; auto.
           ++ specialize (IH false w2).
              destruct (exec h (scanLoop wk false rest) w2) as [[ex w3] tr].
              assert (Hcalm : Forall
                        (fun e => ~ Spec.failedUpload e /\
                                  ~ Spec.cancelled e /\ ~ Spec.isWait e)
                        [Event ctx_Done false;
                         Event (os_ReadFile
                                  (Join wk (tmpDir wk) (Go.TrimSpace text)))
                           (Go.Ok data);
                         Event (Storage_WriteSegment info data) None;
                         Event (os_Remove
                                  (Join wk (tmpDir wk) (Go.TrimSpace text)))
                           r])
                by (repeat constructor; simpl; tauto).
              cbn [app]. destruct ex as [| |err].
              ** change (Forall (fun e => ~ Spec.failedUpload e /\
                                  ~ Spec.cancelled e /\ ~ Spec.isWait e)
                           ([Event ctx_Done false;
                             Event (os_ReadFile
                                      (Join wk (tmpDir wk)
                                         (Go.TrimSpace text))) (Go.Ok data);
                             Event (Storage_WriteSegment info data) None;
                             Event (os_Remove
                                      (Join wk (tmpDir wk)
                                         (Go.TrimSpace text))) r] ++ tr)).
                 apply Forall_app. split; assumption.
              ** destruct IH as (before & -> & Hb).
                 eexists (_ :: _ :: _ :: _ :: before).
                 split; [reflexivity|].
                 apply (Forall_app _ [_; _; _; _] before).
                 split; assumption.
              ** destruct IH as (before & e & -> & He & Hw & Hb).
                 eexists (_ :: _ :: _ :: _ :: before), e.
                 split; [reflexivity|]. repeat split; try assumption.
                 apply (Forall_app _ [_; _; _; _] before).
                 split; assumption.
Qed.

End WorkerTrace.

Lemma writes_of_actions (tr : list effect.event) :
  Spec.writes tr =
  flat_map (fun a => match a with
                     | Spec.Uploaded info => [info]
                     | _ => []
                     end) (Spec.actions tr).
Proof.
  induction tr as [|[c r] tr IH]; [reflexivity|].
  unfold Spec.writes, Spec.actions in *. simpl.
  rewrite flat_map_app, <- IH. destruct c; reflexivity.
Qed.


Section Scenario7.
Import effect transcode.
Context {W : Type} (h : handler W).
Variables (url rend dir : string) (video : bool)
  (join : string -> string -> string).


End Scenario7.




(** *** The master playlist *)

Lemma append_assoc (a b c : string) :
  ((a ++ b) ++ c = a ++ (b ++ c))%string.
Proof. induction a as [|x a IH]; simpl; [reflexivity | now rewrite IH]. Qed.

Lemma append_nil_r (a : string) : (a ++ EmptyString)%string = a.
Proof. induction a as [|x a IH]; simpl; [reflexivity | now rewrite IH]. Qed.

Lemma oneLine_app (a b : string) :
  Spec.oneLine (a ++ b) = Spec.oneLine a && Spec.oneLine b.
Proof.
  induction a as [|x a IH]; simpl; [reflexivity|].
  rewrite IH. now rewrite andb_assoc.
Qed.

Lemma oneLine_uint (d : Decimal.uint) :
  Spec.oneLine (NilEmpty.string_of_uint d) = true.
Proof. induction d; simpl; auto. Qed.

Lemma oneLine_itoa (n : Z) : Spec.oneLine (Go.itoa n) = true.
Proof.
  unfold Go.itoa, NilZero.string_of_int, NilZero.string_of_uint.
  destruct (Z.to_int n) as [d|d]; simpl.
  - destruct d; try reflexivity; apply (oneLine_uint (_ d)).
  - destruct d; try reflexivity; apply (oneLine_uint (_ d)).
Qed.

Lemma Split_line (l rest : string) :
  Spec.oneLine l = true ->
  Go.Split (l ++ Go.nl ++ rest) "010"%char =
  l :: Go.Split rest "010"%char.
Proof.
  change (Go.nl ++ rest)%string with (String "010"%char rest).
  induction l as [|c l IH]; simpl; intros H; [reflexivity|].
  apply andb_prop in H as [Hc Hl]. apply negb_true_iff in Hc.
  rewrite Hc, (IH Hl). reflexivity.
Qed.

Lemma lines_joinLines (ls : list string) :
  Forall (fun l => Spec.oneLine l = true) ls ->
  Spec.lines (Spec.joinLines ls) = ls ++ [EmptyString].
Proof.
  induction 1 as [|l ls Hl Hls IH]; [reflexivity|].
  unfold Spec.lines in *.
  change (Spec.joinLines (l :: ls))
    with (l ++ Go.nl ++ Spec.joinLines ls)%string.
  rewrite (Split_line _ _ Hl), IH. reflexivity.
Qed.

Lemma joinLines_app (a b : list string) :
  Spec.joinLines (a ++ b) = (Spec.joinLines a ++ Spec.joinLines b)%string.
Proof.
  induction a as [|l a IH]; simpl; [reflexivity|].
  rewrite IH, !append_assoc. reflexivity.
Qed.

Section MasterText.
Import playlist.
Variables (g : Generator) (sourceURL : string).

Lemma mediaLine_text (audio : AudioRendition.t) :
  mediaLine g sourceURL "audio" audio =
  (Spec.mediaText g sourceURL audio ++ Go.nl)%string.
Proof.
  unfold mediaLine, Spec.mediaText.
  repeat rewrite append_assoc. reflexivity.
Qed.

Lemma fold_mediaLine (audios : list AudioRendition.t) (b : string) :
  fold_left (fun b audio => (b ++ mediaLine g sourceURL "audio" audio)%string)
    audios b =
  (b ++ Spec.joinLines (map (Spec.mediaText g sourceURL) audios))%string.
Proof.
  revert b. induction audios as [|a audios IH]; intros b;
    cbn [fold_left map flat_map app Spec.joinLines fold_right].
  - now rewrite append_nil_r.
  - rewrite IH, mediaLine_text, !append_assoc. reflexivity.
Qed.

Lemma fold_streamInf (videos : list VideoRendition.t) (b : string) :
  fold_left
    (fun b video =>
       ((b ++ (streamInf "audio" video ++ Go.nl)) ++
        (PathGenerator.VariantPlaylist (pathGen g) sourceURL
           (VideoRendition.Name video) StreamVideo ++ Go.nl))%string)
    videos b =
  (b ++ Spec.joinLines
          (flat_map
             (fun video =>
                [streamInf "audio" video;
                 PathGenerator.VariantPlaylist (pathGen g) sourceURL
                   (VideoRendition.Name video) StreamVideo]) videos))%string.
Proof.
  revert b. induction videos as [|v videos IH]; intros b;
    cbn [fold_left map flat_map app Spec.joinLines fold_right].
  - now rewrite append_nil_r.
  - rewrite IH, !append_assoc. reflexivity.
Qed.

(** [Master] writes the lines of [Spec.masterLines], a line feed after
    each. *)
Lemma Master_text (videos : list VideoRendition.t)
    (audios : list AudioRendition.t) :
  Master g sourceURL videos audios =
  Spec.joinLines (Spec.masterLines g sourceURL videos audios).
Proof.
  unfold Master, Spec.masterLines. cbv zeta.
  rewrite fold_streamInf, fold_mediaLine.
  rewrite !joinLines_app.
  destruct audios as [|a audios];
    cbn [List.length Nat.ltb Nat.leb map Spec.joinLines fold_right];
    rewrite ?append_assoc; reflexivity.
Qed.


Lemma oneLine_mediaText (audio : AudioRendition.t) :
  Spec.oneLine (AudioRendition.Name audio) = true ->
  Spec.oneLine (PathGenerator.VariantPlaylist (pathGen g) sourceURL
                  (AudioRendition.Name audio) StreamAudio) = true ->
  Spec.oneLine (Spec.mediaText g sourceURL audio) = true.
Proof.
  intros Hn Hu. unfold Spec.mediaText.
  repeat rewrite oneLine_app. rewrite Hn, Hu.
  destruct (String.eqb (AudioRendition.Name audio) "aac_stereo");
    reflexivity.
Qed.

Lemma oneLine_streamInf (video : VideoRendition.t) :
  Spec.oneLine (streamInf "audio" video) = true.
Proof.
  unfold streamInf. cbv zeta.
  repeat rewrite oneLine_app. rewrite !oneLine_itoa.
  unfold videoCodecString. cbv zeta.
  repeat match goal with |- context [if ?c then _ else _] => destruct c end;
    reflexivity.
Qed.

Lemma streamInf_audio (video : VideoRendition.t) :
  Spec.endsWith Spec.audioAttribute (streamInf "audio" video).
Proof.
  unfold Spec.endsWith, streamInf, Spec.audioAttribute. cbv zeta.
  exists ("#EXT-X-STREAM-INF:BANDWIDTH=" ++
          Go.itoa (VideoRendition.Bitrate video) ++
          ",RESOLUTION=" ++ Go.itoa (VideoRendition.Width video) ++ "x" ++
          Go.itoa (VideoRendition.Height video) ++
          ",CODECS=" ++ Go.dq ++
          (videoCodecString video ++ "," ++ audioCodecString) ++
          Go.dq)%string.
  repeat rewrite append_assoc. reflexivity.
Qed.

End MasterText.

Lemma not_tag (tag uri : string) :
  Spec.uriLine uri = true -> String.prefix (String "#" tag) uri = false.
Proof.
  unfold Spec.uriLine. intros H. apply andb_prop in H as [_ H].
  apply negb_true_iff in H. destruct uri as [|c uri]; [reflexivity|].
  change (String.prefix (String "#" tag) (String c uri))
    with (if ascii_dec "#" c then String.prefix tag uri else false).
  change (String.prefix "#" (String c uri))
    with (if ascii_dec "#" c then String.prefix EmptyString uri else false)
    in H.
  destruct (ascii_dec "#" c); [|reflexivity].
  destruct uri; discriminate.
Qed.

(** C10, as stated for every input, fails: [Master] copies the source
    URL, through the path generator, into the playlist as it is.  With a
    generator that builds the URI from the source URL and the rendition
    name, one video rendition, no audio rendition and a source URL that
    holds line feeds, the playlist has the line [#EXT-X-MEDIA:TYPE=AUDIO]
    although the audio list is empty, and the line
    [#EXT-X-STREAM-INF:BANDWIDTH=1], which holds no [AUDIO=] at all: two
    lines start with [#EXT-X-STREAM-INF] for the one video rendition. *)
Lemma Master_audio_group_counterexample :
  let variant (mediaID rendition : string) (streamType : StreamType) :=
    ("/" ++ mediaID ++ "/" ++ streamType ++ "/" ++ rendition ++
     "/playlist.m3u8")%string in
  let g :=
    playlist.mkGenerator
      (PathGenerator.mk (fun _ => EmptyString) variant
         (fun _ _ _ _ => EmptyString) (fun _ => EmptyString)
         (fun _ _ => EmptyString) (fun _ _ => EmptyString)) in
  let videos := [VideoRendition.mk "1080p" 1920 1080 5000000 Transcode] in
  let sourceURL :=
    ("media" ++ Go.nl ++ "#EXT-X-MEDIA:TYPE=AUDIO" ++ Go.nl ++
     "#EXT-X-STREAM-INF:BANDWIDTH=1" ++ Go.nl)%string in
  let text := playlist.Master g sourceURL videos [] in
  In "#EXT-X-MEDIA:TYPE=AUDIO"%string (Spec.lines text) /\
  In "#EXT-X-STREAM-INF:BANDWIDTH=1"%string (Spec.lines text) /\
  String.index 0 "AUDIO=" "#EXT-X-STREAM-INF:BANDWIDTH=1" = None /\
  ~ Spec.endsWith Spec.audioAttribute "#EXT-X-STREAM-INF:BANDWIDTH=1" /\
  List.length
    (filter (String.prefix "#EXT-X-STREAM-INF") (Spec.lines text)) = 2%nat /\
  List.length videos = 1%nat.
Proof.
  cbv zeta.
  split; [vm_compute; tauto|]. split; [vm_compute; tauto|].
  split; [vm_compute; reflexivity|]. split.
  - intros [before Hb].
    do 30 (destruct before as [|? before];
           [vm_compute in Hb; discriminate|]).
    cbn [append] in Hb. discriminate.
  - split; vm_compute; reflexivity.
Qed.

(** C10, amended.  With a path generator that renders URIs (one line, not
    starting with [#]) and audio names of one line, the master playlist has
    exactly one [#EXT-X-STREAM-INF] line per video rendition, every such
    line ends with the attribute [AUDIO="audio"], and when the audio list
    is empty no line of the playlist is an [#EXT-X-MEDIA] line: the audio
    group the variants name is then not declared. *)
Theorem Master_audio_group (g : playlist.Generator) (sourceURL : string)
    (videos : list VideoRendition.t) (audios : list AudioRendition.t) :
  (forall video, In video videos ->
     Spec.uriLine
       (PathGenerator.VariantPlaylist (playlist.pathGen g) sourceURL
          (VideoRendition.Name video) StreamVideo) = true) ->
  (forall audio, In audio audios ->
     Spec.oneLine (AudioRendition.Name audio) = true /\
     Spec.oneLine
       (PathGenerator.VariantPlaylist (playlist.pathGen g) sourceURL
          (AudioRendition.Name audio) StreamAudio) = true) ->
  let text := playlist.Master g sourceURL videos audios in
  filter (String.prefix "#EXT-X-STREAM-INF") (Spec.lines text) =
    map (playlist.streamInf "audio") videos /\
  (forall line, In line (Spec.lines text) ->
     String.prefix "#EXT-X-STREAM-INF" line = true ->
     Spec.endsWith Spec.audioAttribute line) /\
  (audios = [] ->
   forall line, In line (Spec.lines text) ->
     String.prefix "#EXT-X-MEDIA" line = false).
Proof.
  intros Hv Ha text.
  assert (Hlines : Spec.lines text =
                   Spec.masterLines g sourceURL videos audios ++
                   [EmptyString]).
  { unfold text. rewrite Master_text. apply lines_joinLines.
    unfold Spec.masterLines. repeat rewrite Forall_app. repeat split.
    - repeat constructor.
    - apply Forall_forall. intros l Hl. apply in_map_iff in Hl
        as (a & <- & Hin). destruct (Ha a Hin).
      apply oneLine_mediaText; assumption.
    - destruct audios; repeat constructor.
    - apply Forall_forall. intros l Hl. apply in_flat_map in Hl
        as (v & Hin & [<-|[<-|[]]]).
      + apply oneLine_streamInf.
      + specialize (Hv v Hin). unfold Spec.uriLine in Hv.
        apply andb_prop in Hv as [Hv _]. exact Hv. }
  assert (Hfilter :
    filter (String.prefix "#EXT-X-STREAM-INF") (Spec.lines text) =
    map (playlist.streamInf "audio") videos).
  { rewrite Hlines. unfold Spec.masterLines.
    repeat rewrite filter_app.
    assert (H1 : filter (String.prefix "#EXT-X-STREAM-INF")
                   (map (Spec.mediaText g sourceURL) audios) = []).
    { clear. induction audios as [|a l IH]; [reflexivity|].
      cbn [map filter]. rewrite IH. reflexivity. }
    assert (H2 : filter (String.prefix "#EXT-X-STREAM-INF")
                   (match audios with [] => [] | _ => [EmptyString] end)
                 = []) by (destruct audios; reflexivity).
    rewrite H1, H2. cbn [filter app]. simpl String.prefix. cbn [app].
    rewrite app_nil_r. clear - Hv.
    induction videos as [|v l IH]; [reflexivity|].
    cbn [flat_map app filter map].
    rewrite (not_tag _ _ (Hv v (or_introl eq_refl))).
    rewrite IH by (intros v' Hin; apply Hv; right; exact Hin).
    reflexivity. }
  split; [exact Hfilter|]. split.
  - intros line Hin Hp.
    assert (Hin' : In line (filter (String.prefix "#EXT-X-STREAM-INF")
                              (Spec.lines text)))
      by (apply filter_In; auto).
    rewrite Hfilter in Hin'. apply in_map_iff in Hin' as (v & <- & _).
    apply streamInf_audio.
  - intros -> line Hin. rewrite Hlines in Hin.
    unfold Spec.masterLines in Hin. cbn [map app] in Hin.
    destruct Hin as [<-|[<-|[<-|Hin]]]; try reflexivity.
    apply in_app_or in Hin as [Hin|[<-|[]]]; [|reflexivity].
    apply in_flat_map in Hin as (v & Hin & [<-|[<-|[]]]).
    + reflexivity.
    + apply not_tag. apply Hv. exact Hin.
Qed.

Lemma Master_audio_group_witness :
  let variant (mediaID rendition : string) (streamType : StreamType) :=
    ("/" ++ mediaID ++ "/" ++ streamType ++ "/" ++ rendition ++
     "/playlist.m3u8")%string in
  let g :=
    playlist.mkGenerator
      (PathGenerator.mk (fun _ => EmptyString) variant
         (fun _ _ _ _ => EmptyString) (fun _ => EmptyString)
         (fun _ _ => EmptyString) (fun _ _ => EmptyString)) in
  let videos :=
    [VideoRendition.mk "1080p" 1920 1080 5000000 Transcode;
     VideoRendition.mk "480p" 854 480 900000 Transcode] in
  let text := playlist.Master g "media" videos [] in
  List.length (filter (String.prefix "#EXT-X-STREAM-INF") (Spec.lines text))
    = 2%nat /\
  (forall line, In line (Spec.lines text) ->
     String.prefix "#EXT-X-STREAM-INF" line = true ->
     Spec.endsWith Spec.audioAttribute line) /\
  (forall line, In line (Spec.lines text) ->
     String.prefix "#EXT-X-MEDIA" line = false).
Proof.
  intros variant g videos text.
  destruct (Master_audio_group g "media" videos []) as (H1 & H2 & H3).
  - intros v [<-|[<-|[]]]; reflexivity.
  - intros a [].
  - split; [fold text in H1; rewrite H1; reflexivity|].
    split; [exact H2 | exact (H3 eq_refl)].
Defined.

(* ================================================================== *)
(** ** Further properties of the modelled code *)

(** *** Rendition lookup *)

Lemma fold_videoStep_heights (srcWidth srcHeight srcBitrate srcPixels : Z)
    (srcCodec : string) (heights : list Z) (acc : list VideoRendition.t) :
  fold_left
    (rendition.videoStep srcWidth srcHeight srcBitrate srcPixels srcCodec)
    heights acc =
  acc ++ map (rendition.emit srcWidth srcHeight srcBitrate srcPixels srcCodec)
           (filter (fun h => h <=? srcHeight) heights).
Proof.
  revert acc. induction heights as [|h heights IH]; intros acc; simpl.
  - now rewrite app_nil_r.
  - rewrite IH. unfold rendition.videoStep.
    rewrite Z.ltb_antisym. destruct (h <=? srcHeight); simpl.
    + rewrite <- app_assoc. reflexivity.
    + reflexivity.
Qed.

Lemma GenerateVideo_name_height (video : VideoStream.t) :
  map (fun r => (VideoRendition.Name r, VideoRendition.Height r))
    (rendition.GenerateVideo video) =
  map (fun h => ((Go.itoa h ++ "p")%string, h))
    (filter (fun h => h <=? VideoStream.Height video)
       rendition.targetHeights).
Proof.
  unfold rendition.GenerateVideo. cbv zeta.
  rewrite fold_videoStep_heights. rewrite app_nil_l, map_map. reflexivity.
Qed.

Lemma find_unique {A : Type} (key : A -> string) (l : list A) (x : A) :
  NoDup (map key l) -> In x l ->
  find (fun y => String.eqb (key y) (key x)) l = Some x.
Proof.
  induction l as [|a l IH]; intros Hnd Hin; [contradiction|].
  simpl in *. inversion Hnd as [|? ? Hnotin Hnd']; subst.
  destruct Hin as [->|Hin].
  - now rewrite String.eqb_refl.
  - destruct (String.eqb_spec (key a) (key x)) as [E|_].
    + exfalso. apply Hnotin. rewrite E. apply in_map. exact Hin.
    + apply IH; assumption.
Qed.

Lemma NoDup_map_filter {K V : Type} (key : V -> K) (keep : V -> bool)
    (xs : list V) (Hnd : NoDup (map key xs)) :
  NoDup (map key (filter keep xs)).
Proof.
  induction xs as [|x xs IH]; [constructor|].
  simpl in *. inversion Hnd as [|? ? Hnotin Hnd']; subst.
  destruct (keep x); [|auto]. simpl. constructor; [|auto].
  intros Hin. apply Hnotin. apply in_map_iff in Hin as (y & E & Hy).
  apply filter_In in Hy as [Hy _]. rewrite <- E. apply in_map. exact Hy.
Qed.

Lemma GenerateVideo_names_distinct (video : VideoStream.t) :
  NoDup (map VideoRendition.Name (rendition.GenerateVideo video)).
Proof.
  assert (E : map VideoRendition.Name (rendition.GenerateVideo video) =
              map fst (map (fun r => (VideoRendition.Name r,
                                      VideoRendition.Height r))
                         (rendition.GenerateVideo video)))
    by (rewrite map_map; reflexivity).
  rewrite E, GenerateVideo_name_height, map_map.
  apply NoDup_map_filter. unfold rendition.targetHeights.
  repeat constructor; vm_compute; intuition discriminate.
Qed.

(** X1.  [GenerateVideo] lists one rendition per target height that is
    not above the source height, from the highest down, named
    "<height>p" after its height, so no two renditions share a name; a
    source lower than 360 lines gets no rendition at all. *)
Theorem GenerateVideo_heights (video : VideoStream.t) :
  map (fun r => (VideoRendition.Name r, VideoRendition.Height r))
    (rendition.GenerateVideo video) =
  map (fun h => ((Go.itoa h ++ "p")%string, h))
    (filter (fun h => h <=? VideoStream.Height video)
       rendition.targetHeights) /\
  NoDup (map VideoRendition.Name (rendition.GenerateVideo video)) /\
  (VideoStream.Height video < 360 -> rendition.GenerateVideo video = []).
Proof.
  split; [apply GenerateVideo_name_height|].
  split; [apply GenerateVideo_names_distinct|].
  intros Hlow.
  pose proof (GenerateVideo_name_height video) as E.
  unfold rendition.targetHeights in E. simpl filter in E.
  repeat match type of E with
         | context [?a <=? ?b] =>
             destruct (Z.leb_spec a b); [lia|]
         end.
  destruct (rendition.GenerateVideo video); [reflexivity | discriminate].
Qed.

(** X2.  Every rendition [GenerateVideo] lists - the ones the master playlist
    advertises - is the one the pool finds under its name. *)
Theorem findVideoRendition_listed (meta : Metadata.t)
    (r : VideoRendition.t) :
  In r (rendition.GenerateVideo (Metadata.Video meta)) ->
  transcode.findVideoRendition meta (VideoRendition.Name r) = Some r.
Proof.
  intros Hin. unfold transcode.findVideoRendition.
  apply (find_unique VideoRendition.Name).
  - apply GenerateVideo_names_distinct.
  - exact Hin.
Qed.

Lemma findVideoRendition_listed_witness :
  let meta :=
    Metadata.mk 60 [0]%float (VideoStream.mk 0 "h264" 1920 1080 10000000 30)
      [] [] in
  let r := VideoRendition.mk "720p" 1280 720 4000000 Transcode in
  In r (rendition.GenerateVideo (Metadata.Video meta)) /\
  transcode.findVideoRendition meta "720p" = Some r.
Proof.
  intros meta r.
  assert (Hin : In r (rendition.GenerateVideo (Metadata.Video meta)))
    by (vm_compute; right; left; reflexivity).
  split; [exact Hin|]. exact (findVideoRendition_listed meta r Hin).
Defined.

(** X3.  A name the pool finds is the name of a listed rendition, "<height>p"
    for its height; a name it does not find is the name of no target
    height the source reaches. *)
Theorem findVideoRendition_by_height (meta : Metadata.t) (name : string) :
  match transcode.findVideoRendition meta name with
  | Some r =>
      In r (rendition.GenerateVideo (Metadata.Video meta)) /\
      VideoRendition.Name r = name /\
      name = (Go.itoa (VideoRendition.Height r) ++ "p")%string /\
      In (VideoRendition.Height r) rendition.targetHeights /\
      VideoRendition.Height r <= VideoStream.Height (Metadata.Video meta)
  | None =>
      forall h, In h rendition.targetHeights ->
                h <= VideoStream.Height (Metadata.Video meta) ->
                name <> (Go.itoa h ++ "p")%string
  end.
Proof.
  unfold transcode.findVideoRendition.
  destruct (find _ _) as [r|] eqn:E.
  - apply find_some in E as [Hin Hname].
    apply String.eqb_eq in Hname.
    pose proof (GenerateVideo_In _ _ Hin) as (h & b & Hh & Hle & Hr).
    assert (VideoRendition.Height r = h) by (rewrite Hr; reflexivity).
    assert (VideoRendition.Name r = (Go.itoa h ++ "p")%string)
      by (rewrite Hr; reflexivity).
    subst h. repeat split; auto. congruence.
  - intros h Hh Hle Hname.
    assert (Hin : In ((Go.itoa h ++ "p")%string, h)
              (map (fun r => (VideoRendition.Name r, VideoRendition.Height r))
                 (rendition.GenerateVideo (Metadata.Video meta)))).
    { rewrite GenerateVideo_name_height.
      apply in_map_iff. exists h. split; [reflexivity|].
      apply filter_In. split; [exact Hh | now apply Z.leb_le]. }
    apply in_map_iff in Hin as (r & Hr & Hin). injection Hr as Hn _.
    apply (find_none _ _ E) in Hin. rewrite Hn, <- Hname in Hin.
    rewrite String.eqb_refl in Hin. discriminate.
Qed.

Lemma GenerateAudio_names_distinct (audio : AudioStream.t) :
  NoDup (map AudioRendition.Name (rendition.GenerateAudio audio)).
Proof.
  unfold rendition.GenerateAudio, rendition.passthroughCodecs. cbv zeta.
  destruct (6 <=? AudioStream.Channels audio);
    destruct (String.eqb_spec (AudioStream.Codec audio) "ac3") as [->|];
    try destruct (String.eqb_spec (AudioStream.Codec audio) "eac3")
      as [->|];
    repeat constructor; vm_compute; intuition discriminate.
Qed.

(** X4.  Every audio rendition [GenerateAudio] lists for the first audio
    stream is the one the pool finds under its name; the stereo AAC
    rendition is always among them, and without an audio stream no name is
    found. *)
Theorem findAudioRendition_listed (meta : Metadata.t) :
  match Metadata.Audios meta with
  | [] => forall name, transcode.findAudioRendition meta name = None
  | audio :: _ =>
      (forall r, In r (rendition.GenerateAudio audio) ->
         transcode.findAudioRendition meta (AudioRendition.Name r) = Some r)
      /\ transcode.findAudioRendition meta "aac_stereo" =
         Some (AudioRendition.mk "aac_stereo" "aac" 128000 2 Transcode)
  end.
Proof.
  unfold transcode.findAudioRendition.
  destruct (Metadata.Audios meta) as [|audio rest]; [reflexivity|].
  assert (Hall : forall r, In r (rendition.GenerateAudio audio) ->
            find (fun y => String.eqb (AudioRendition.Name y)
                             (AudioRendition.Name r))
              (rendition.GenerateAudio audio) = Some r).
  { intros r Hin. apply (find_unique AudioRendition.Name).
    - apply GenerateAudio_names_distinct.
    - exact Hin. }
  split; [exact Hall|].
  apply (Hall (AudioRendition.mk "aac_stereo" "aac" 128000 2 Transcode)).
  unfold rendition.GenerateAudio. cbv zeta.
  destruct (6 <=? AudioStream.Channels audio);
    destruct (rendition.passthroughCodecs (AudioStream.Codec audio));
    simpl; auto.
Qed.

(** X5.  [GenerateAudio] always lists the stereo AAC rendition first, adds
    the 5.1 AAC rendition only for a source with six channels or more and
    a pass-through rendition only for an ac3 or eac3 source; the
    pass-through one copies codec, bitrate and channels of the source and
    is the only one that is not transcoded.  The names are distinct. *)
Theorem GenerateAudio_renditions (audio : AudioStream.t) :
  let renditions := rendition.GenerateAudio audio in
  hd_error renditions =
    Some (AudioRendition.mk "aac_stereo" "aac" 128000 2 Transcode) /\
  NoDup (map AudioRendition.Name renditions) /\
  Forall (fun r =>
            match AudioRendition.Method r with
            | Transcode =>
                AudioRendition.Codec r = "aac"%string /\
                (AudioRendition.Channels r = 2 \/
                 AudioRendition.Channels r = 6 /\
                 6 <= AudioStream.Channels audio)
            | DirectStream =>
                rendition.passthroughCodecs (AudioStream.Codec audio)
                  = true /\
                AudioRendition.Name r =
                  (AudioStream.Codec audio ++ "_passthrough")%string /\
                AudioRendition.Codec r = AudioStream.Codec audio /\
                AudioRendition.Bitrate r = AudioStream.Bitrate audio /\
                AudioRendition.Channels r = AudioStream.Channels audio
            | DirectPlay => False
            end) renditions.
Proof.
  cbv zeta. split; [|split; [apply GenerateAudio_names_distinct|]].
  - unfold rendition.GenerateAudio. cbv zeta.
    destruct (6 <=? AudioStream.Channels audio);
      destruct (rendition.passthroughCodecs (AudioStream.Codec audio));
      reflexivity.
  - unfold rendition.GenerateAudio. cbv zeta.
    destruct (Z.leb_spec 6 (AudioStream.Channels audio));
      destruct (rendition.passthroughCodecs (AudioStream.Codec audio))
        eqn:Hp;
      cbn [app]; repeat (apply Forall_cons || apply Forall_nil);
      cbn; auto.
Qed.


(** *** Segmenter: what every segment is made of *)

Lemma closedSegment_more (seen more : list float) (td : float)
    (s : Segment.t) :
  (forall x, In x seen -> In x more) ->
  Spec.closedSegment seen td s -> Spec.closedSegment more td s.
Proof. intros Hsub (H1 & H2 & H3 & H4). repeat split; auto. Qed.

Lemma fold_step_closed (td k0 : float) (seen rest : list float)
    (st : playlist.walk) :
  Forall (Spec.closedSegment (k0 :: seen) td) (playlist.segments st) ->
  In (playlist.segmentStart st) (k0 :: seen) ->
  (List.length (playlist.segments st) <= List.length seen)%nat ->
  let st' := fold_left (playlist.step td) rest st in
  Forall (Spec.closedSegment (k0 :: seen ++ rest) td)
    (playlist.segments st') /\
  In (playlist.segmentStart st') (k0 :: seen ++ rest) /\
  (List.length (playlist.segments st') <= List.length (seen ++ rest))%nat.
Proof.
  revert seen st. induction rest as [|k rest IH]; intros seen st Hc Hin Hlen.
  - simpl. rewrite app_nil_r. auto.
  - simpl. replace (seen ++ k :: rest) with ((seen ++ [k]) ++ rest)
      by (rewrite <- app_assoc; reflexivity).
    assert (Hmono : forall x, In x (k0 :: seen) ->
                              In x (k0 :: seen ++ [k])).
    { intros x [H|H]; [left; exact H|].
      right. apply in_or_app. left. exact H. }
    assert (Hk : In k (k0 :: seen ++ [k])).
    { right. apply in_or_app. right. left. reflexivity. }
    apply IH; unfold playlist.step;
      destruct (td <=? k - playlist.segmentStart st)%float eqn:Hclose;
      simpl.
    + apply Forall_app. split.
      * eapply Forall_impl; [|exact Hc]. intros s.
        apply closedSegment_more. exact Hmono.
      * constructor; [|constructor].
        split; [apply Hmono; exact Hin|].
        split; [exact Hk|]. split; [reflexivity | exact Hclose].
    + eapply Forall_impl; [|exact Hc]. intros s.
      apply closedSegment_more. exact Hmono.
    + exact Hk.
    + apply Hmono. exact Hin.
    + rewrite !length_app. simpl. lia.
    + rewrite length_app. simpl. lia.
Qed.

(** X6.  The segments of [CalculateSegments] are segments closed by a
    keyframe - each from a keyframe to a later keyframe at least the
    target duration away - followed by at most one tail segment that runs
    from a keyframe to the duration; there are never more segments than
    keyframes. *)
Theorem CalculateSegments_shape (keyframes : list float)
    (duration targetDuration : float) :
  exists closed tail,
    playlist.CalculateSegments keyframes duration targetDuration =
      closed ++ tail /\
    Forall (Spec.closedSegment keyframes targetDuration) closed /\
    (tail = [] \/ exists s, tail = [s] /\
                            Spec.tailSegment keyframes duration s) /\
    (List.length (closed ++ tail) <= List.length keyframes)%nat.
Proof.
  destruct keyframes as [|k0 rest].
  - exists [], []. simpl. repeat split; auto.
  - destruct (fold_step_closed targetDuration k0 [] rest
                (playlist.mkWalk [] k0 0)) as (Hc & Hin & Hlen);
      [constructor | left; reflexivity | simpl; lia |].
    simpl in Hc, Hin, Hlen.
    unfold playlist.CalculateSegments, playlist.finish.
    set (st := fold_left (playlist.step targetDuration) rest
                 (playlist.mkWalk [] k0 0)) in *.
    destruct (playlist.segmentStart st <? duration)%float eqn:Hlt.
    + eexists (playlist.segments st), [_]. split; [reflexivity|].
      split; [exact Hc|]. split.
      * right. eexists. split; [reflexivity|].
        repeat split; simpl; auto.
      * rewrite length_app. simpl. lia.
    + exists (playlist.segments st), []. rewrite app_nil_r.
      split; [reflexivity|]. split; [exact Hc|]. split; [left; reflexivity|].
      simpl. lia.
Qed.

(** *** Batch extraction: the indices of a batch *)

(** One iteration of the loop of [extractSegments]: the segment it may
    append starts at [keyframes[i]], and [i] moves forward. *)
Lemma extractLoop_step fuel keyframes duration startIdx endIdx i idx segs :
  (i < List.length keyframes)%nat ->
  exists end2 i2,
    (i <= i2)%nat /\
    transcode.extractLoop (S fuel) keyframes duration startIdx endIdx i idx
      segs =
    let segs' :=
      if (startIdx <=? idx) && (idx <=? endIdx) then
        segs ++ [Segment.mk idx (nth i keyframes 0%float) end2
                   (end2 - nth i keyframes 0)%float]
      else segs in
    if endIdx <? idx + 1 then Some segs'
    else transcode.extractLoop fuel keyframes duration startIdx endIdx
           (S i2) (idx + 1) segs'.
Proof.
  intros Hi. cbn beta iota zeta delta [transcode.extractLoop].
  apply Nat.ltb_lt in Hi. rewrite Hi. apply Nat.ltb_lt in Hi.
  destruct (transcode.scan 6%float (nth i keyframes 0%float)
              (skipn (S i) keyframes) (S i)) as [j|] eqn:Hscan.
  - apply scan_ge in Hscan.
    destruct (nth j keyframes 0 =? 0)%float.
    + destruct (j - 1 <? List.length keyframes - 1)%nat.
      * eexists _, _. split; [|reflexivity]. lia.
      * eexists _, _. split; [|reflexivity]. lia.
    + eexists _, _. split; [|reflexivity]. lia.
  - change (0 =? 0)%float with true. cbv iota.
    destruct (i <? List.length keyframes - 1)%nat.
    + eexists _, _. split; [|reflexivity]. lia.
    + eexists _, _. split; [|reflexivity]. lia.
Qed.

Lemma extractLoop_indices fuel keyframes duration startIdx endIdx :
  forall i idx segs out,
  transcode.extractLoop fuel keyframes duration startIdx endIdx i idx segs
    = Some out ->
  idx <= Z.of_nat i ->
  exists new,
    out = segs ++ new /\
    map Segment.Index new =
      map (fun k => Z.max startIdx idx + Z.of_nat k)
        (seq 0 (List.length new)) /\
    Forall (fun s =>
              startIdx <= Segment.Index s <= endIdx /\
              Segment.Index s < Z.of_nat (List.length keyframes) /\
              In (Segment.Start s) keyframes /\
              Segment.Duration s =
                (Segment.End s - Segment.Start s)%float) new.
Proof.
  induction fuel as [|fuel IH]; intros i idx segs out Hrun Hidx;
    [discriminate|].
  destruct (Nat.ltb_spec i (List.length keyframes)) as [Hi|Hi].
  2: { cbn beta iota zeta delta [transcode.extractLoop] in Hrun.
       apply Nat.ltb_ge in Hi. rewrite Hi in Hrun. injection Hrun as <-.
       exists []. rewrite app_nil_r. repeat split; constructor. }
  destruct (extractLoop_step fuel keyframes duration startIdx endIdx i idx
              segs Hi) as (end2 & i2 & Hi2 & Hstep).
  rewrite Hstep in Hrun. clear Hstep. cbv zeta in Hrun.
  destruct ((startIdx <=? idx) && (idx <=? endIdx)) eqn:Hin.
  - apply andb_prop in Hin as [Hlo Hhi].
    apply Z.leb_le in Hlo. apply Z.leb_le in Hhi.
    set (seg := Segment.mk idx (nth i keyframes 0%float) end2
                  (end2 - nth i keyframes 0)%float) in *.
    assert (Hseg : startIdx <= Segment.Index seg <= endIdx /\
                   Segment.Index seg < Z.of_nat (List.length keyframes) /\
                   In (Segment.Start seg) keyframes /\
                   Segment.Duration seg =
                     (Segment.End seg - Segment.Start seg)%float).
    { simpl. repeat split; try lia. apply nth_In. exact Hi. }
    destruct (endIdx <? idx + 1) eqn:Hend.
    + injection Hrun as <-. exists [seg]. repeat split.
      * simpl. f_equal. lia.
      * constructor; [exact Hseg | constructor].
    + apply IH in Hrun as (new & -> & Hmap & Hall); [|lia].
      exists (seg :: new). split; [now rewrite <- app_assoc|]. split.
      * simpl. f_equal; [lia|]. rewrite Hmap, <- seq_shift, map_map.
        apply map_ext. intros k. lia.
      * constructor; [exact Hseg | exact Hall].
  - destruct (endIdx <? idx + 1) eqn:Hend.
    + injection Hrun as <-. exists []. rewrite app_nil_r.
      repeat split; constructor.
    + apply IH in Hrun as (new & -> & Hmap & Hall); [|lia].
      exists new. split; [reflexivity|]. split; [|exact Hall].
      rewrite Hmap. apply map_ext. intros k.
      apply Z.ltb_ge in Hend. apply andb_false_iff in Hin as [H|H].
      * apply Z.leb_gt in H. lia.
      * apply Z.leb_gt in H. lia.
Qed.

Lemma extractSegments_indexed (keyframes : list float) (duration : float)
    (startIdx endIdx : Z) :
  let out := transcode.extractSegments keyframes duration startIdx endIdx in
  map Segment.Index out =
    map (fun k => Z.max startIdx 0 + Z.of_nat k)
      (seq 0 (List.length out)) /\
  Forall (fun s =>
            startIdx <= Segment.Index s <= endIdx /\
            Segment.Index s < Z.of_nat (List.length keyframes) /\
            In (Segment.Start s) keyframes /\
            Segment.Duration s = (Segment.End s - Segment.Start s)%float)
    out.
Proof.
  intros out.
  pose proof (extractSegments_total keyframes duration startIdx endIdx)
    as Hrun.
  fold out in Hrun.
  apply extractLoop_indices in Hrun as (new & E & Hmap & Hall); [|simpl; lia].
  simpl in E. subst new. auto.
Qed.

Lemma extractSegments_out_of_range (keyframes : list float)
    (duration : float) (startIdx endIdx : Z) :
  Z.of_nat (List.length keyframes) <= startIdx \/ endIdx < startIdx \/
  endIdx < 0 ->
  transcode.extractSegments keyframes duration startIdx endIdx = [].
Proof.
  intros Hout.
  destruct (extractSegments_indexed keyframes duration startIdx endIdx)
    as [Hmap Hall].
  destruct (transcode.extractSegments keyframes duration startIdx endIdx)
    as [|s out]; [reflexivity|].
  exfalso. simpl in Hmap. injection Hmap as Hidx _.
  inversion Hall as [|? ? (Hrange & Hn & _) _]; subst. lia.
Qed.

(** X7.  The segments [extractSegments] returns carry consecutive
    indices, counted up from the start of the job range (from 0 when the
    range starts below), every index lies within the range and below the
    number of keyframes, and every segment starts at a keyframe and has
    its duration field equal to end minus start.  A range that starts at
    or after the number of keyframes, or ends below its start or below 0,
    gets no segment. *)
Theorem extractSegments_indices (keyframes : list float) (duration : float)
    (startIdx endIdx : Z) :
  let out := transcode.extractSegments keyframes duration startIdx endIdx in
  map Segment.Index out =
    map (fun k => Z.max startIdx 0 + Z.of_nat k)
      (seq 0 (List.length out)) /\
  Forall (fun s =>
            startIdx <= Segment.Index s <= endIdx /\
            Segment.Index s < Z.of_nat (List.length keyframes) /\
            In (Segment.Start s) keyframes /\
            Segment.Duration s = (Segment.End s - Segment.Start s)%float)
    out /\
  (Z.of_nat (List.length keyframes) <= startIdx \/ endIdx < startIdx \/
   endIdx < 0 -> out = []).
Proof.
  intros out.
  destruct (extractSegments_indexed keyframes duration startIdx endIdx)
    as [Hmap Hall].
  split; [exact Hmap|]. split; [exact Hall|].
  apply extractSegments_out_of_range.
Qed.

(** *** The pool: what a job leaves behind *)

Section PoolTrace.
Import effect transcode.
Context {W : Type} (h : handler W).
Variables (p : Pool) (job : Job.t).

Lemma publishLoop_notifies (err : Go.error) (indices : list Z) (w : W) :
  Forall Spec.isNotification
    (snd (exec h (publishLoop p job err indices) w)).
Proof.
  revert w. induction indices as [|i rest IH]; intros w; simpl.
  - constructor.
  - destruct (h _ w) as [r w1]. specialize (IH w1).
    destruct (exec h (publishLoop p job err rest) w1) as [[u w2] tr].
    simpl in *. constructor; [exact I | exact IH].
Qed.

Lemma notifications_only (tr : list event) :
  Forall Spec.isNotification tr ->
  Spec.createdDirs tr = [] /\ Spec.removedDirs tr = [] /\
  Spec.started tr = [] /\ Spec.acks tr = [].
Proof.
  induction 1 as [|[c r] tr He Htr (I1 & I2 & I3 & I4)]; [auto|].
  unfold Spec.createdDirs, Spec.removedDirs, Spec.started, Spec.acks in *.
  change (Event c r :: tr) with ([Event c r] ++ tr).
  rewrite !flat_map_app, I1, I2, I3, I4.
  destruct c; simpl in He; try contradiction. auto.
Qed.

Lemma exec_publishLoop_notifies (err : Go.error) (indices : list Z) (w : W)
    (u : unit) (w1 : W) (tr : list event) :
  exec h (publishLoop p job err indices) w = (u, w1, tr) ->
  Forall Spec.isNotification tr.
Proof.
  intros E. pose proof (publishLoop_notifies err indices w) as H.
  rewrite E in H. exact H.
Qed.

(** The calls of [processJobIn]: error notifications only, or one start
    of a worker in the job's directory followed by error notifications
    (the start failed) or by the wait and the acknowledgement.  A worker
    told to skip its first segment belongs to a video job that does not
    start at segment 0 and encodes from the segment before the job. *)
Lemma processJobIn_trace meta segs tmpDir (w : W) :
  let tr := snd (exec h (processJobIn p job meta segs tmpDir) w) in
  Forall Spec.isNotification tr \/
  exists args skip r rest,
    tr = Event (Worker_Start args (Job.SourceURL job) (Job.Rendition job)
                  (String.eqb (streamType p) StreamVideo) tmpDir skip) r
           :: rest /\
    ((r <> None /\ Forall Spec.isNotification rest) \/
     (r = None /\ exists u a,
        rest = [Event Pool_waitForWorker u;
                Event (Coordinator_Ack (Job.ID job)) a])) /\
    (skip = true ->
       streamType p = StreamVideo /\ 0 < Job.StartIndex job /\
       exists params seg more,
         args = cmdBuilder_Video p params /\
         vSegments params = seg :: more /\
         Segment.Index seg = Job.StartIndex job - 1).
Proof.
  unfold processJobIn. cbv zeta.
  assert (Hstart : forall args skip,
    let tr := snd (exec h
      (err <- perform (Worker_Start args (Job.SourceURL job)
                         (Job.Rendition job)
                         (String.eqb (streamType p) StreamVideo)
                         tmpDir skip) ;;
       match err with
       | Some err => publishError p job err
       | None => _ <- perform Pool_waitForWorker ;;
                 _ <- perform (Coordinator_Ack (Job.ID job)) ;; Ret tt
       end)%prog w) in
    exists r rest,
      tr = Event (Worker_Start args (Job.SourceURL job) (Job.Rendition job)
                    (String.eqb (streamType p) StreamVideo) tmpDir skip) r
             :: rest /\
      ((r <> None /\ Forall Spec.isNotification rest) \/
       (r = None /\ exists u a,
          rest = [Event Pool_waitForWorker u;
                  Event (Coordinator_Ack (Job.ID job)) a]))).
  { intros args skip. simpl.
    destruct (h _ w) as [[err|] w1].
    - unfold publishError.
      destruct (exec h _ w1) as [[u w2] tr] eqn:E.
      apply exec_publishLoop_notifies in E. simpl.
      eexists _, _. split; [reflexivity|]. left. split; [discriminate|].
      exact E.
    - simpl. destruct (h Pool_waitForWorker w1) as [u w2].
      destruct (h (Coordinator_Ack (Job.ID job)) w2) as [a w3]. simpl.
      eexists _, _. split; [reflexivity|]. right. split; [reflexivity|].
      eauto. }
  destruct (String.eqb (streamType p) StreamVideo) eqn:Hv.
  - destruct (findVideoRendition meta (Job.Rendition job)) as [vr|].
    + right.
      match goal with
      | |- context [Worker_Start ?a _ _ _ _ ?s] =>
          destruct (Hstart a s) as (r & rest & E & Hrest);
          exists a, s, r, rest
      end.
      split; [exact E|]. split; [exact Hrest|].
      intros Hskip. rewrite Hskip.
      apply andb_prop in Hskip as [Hpos Hlen].
      apply Z.ltb_lt in Hpos. apply Nat.ltb_lt in Hlen.
      split; [now apply String.eqb_eq|]. split; [exact Hpos|].
      destruct (extractSegments_indexed (Metadata.Keyframes meta)
                  (Metadata.Duration meta) (Job.StartIndex job - 1)
                  (Job.EndIndex job)) as [Hidx _].
      destruct (extractSegments (Metadata.Keyframes meta)
                  (Metadata.Duration meta) (Job.StartIndex job - 1)
                  (Job.EndIndex job)) as [|seg more];
        [simpl in Hlen; lia|].
      simpl in Hidx. injection Hidx as Hidx _.
      eexists _, seg, more. split; [reflexivity|]. split; [reflexivity|].
      lia.
    + left. unfold publishError.
      destruct (exec h _ w) as [[u w2] tr] eqn:E.
      apply exec_publishLoop_notifies in E. exact E.
  - destruct (findAudioRendition meta (Job.Rendition job)) as [ar|].
    + right.
      match goal with
      | |- context [Worker_Start ?a _ _ _ _ ?s] =>
          destruct (Hstart a s) as (r & rest & E & Hrest);
          exists a, s, r, rest
      end.
      split; [exact E|]. split; [exact Hrest|]. discriminate.
    + left. unfold publishError.
      destruct (exec h _ w) as [[u w2] tr] eqn:E.
      apply exec_publishLoop_notifies in E. exact E.
Qed.

End PoolTrace.

Lemma lastCall_snoc (tr : list effect.event) (e : effect.event) :
  Spec.lastCall (tr ++ [e]) = Some (effect.made e).
Proof. unfold Spec.lastCall. rewrite rev_app_distr. reflexivity. Qed.

Lemma In_notification (e : effect.event) (tr : list effect.event) :
  Forall Spec.isNotification tr -> In e tr -> Spec.isNotification e.
Proof. intros H Hin. rewrite Forall_forall in H. auto. Qed.

Lemma createdDirs_app (a b : list effect.event) :
  Spec.createdDirs (a ++ b) = Spec.createdDirs a ++ Spec.createdDirs b.
Proof. apply flat_map_app. Qed.

Lemma removedDirs_app (a b : list effect.event) :
  Spec.removedDirs (a ++ b) = Spec.removedDirs a ++ Spec.removedDirs b.
Proof. apply flat_map_app. Qed.

Lemma started_app (a b : list effect.event) :
  Spec.started (a ++ b) = Spec.started a ++ Spec.started b.
Proof. apply flat_map_app. Qed.

Section PoolJob.
Import effect transcode.
Context {W : Type} (h : handler W).
Variables (p : Pool) (job : Job.t).

(** The calls of [processJob]: the metadata is fetched first; then come
    error notifications only, or the creation of the temporary directory
    and, if that succeeded, the calls of [processJobIn] in that directory
    and the removal of the directory. *)
Lemma processJob_trace (w : W) :
  let tr := snd (exec h (processJob p job) w) in
  exists r0 rest,
    tr = Event (Storage_GetMetadata (Job.SourceURL job)) r0 :: rest /\
    (Forall Spec.isNotification rest \/
     (exists e notes,
        rest = Event (os_MkdirTemp EmptyString "transcode-*") (Go.Err e)
                 :: notes /\
        Forall Spec.isNotification notes) \/
     (exists dir meta segs w1 r1,
        rest = Event (os_MkdirTemp EmptyString "transcode-*") (Go.Ok dir)
                 :: snd (exec h (processJobIn p job meta segs dir) w1) ++
                    [Event (os_RemoveAll dir) r1])).
Proof.
  unfold processJob, getMetadata. simpl.
  destruct (h (Storage_GetMetadata (Job.SourceURL job)) w)
    as [[data|err] w1]; simpl.
  2: { unfold publishError.
       destruct (exec h _ w1) as [[u w2] tr] eqn:E.
       apply exec_publishLoop_notifies in E. simpl. eauto. }
  destruct (json_Unmarshal p data) as [meta|err].
  2: { unfold publishError.
       destruct (exec h _ w1) as [[u w2] tr] eqn:E.
       apply exec_publishLoop_notifies in E. simpl. eauto. }
  match goal with |- context [if ?c then _ else _] => destruct c end.
  { unfold publishError.
    destruct (exec h _ w1) as [[u w2] tr] eqn:E.
    apply exec_publishLoop_notifies in E. simpl. eauto. }
  simpl.
  destruct (h (os_MkdirTemp EmptyString "transcode-*") w1)
    as [[tmp|err] w2]; simpl.
  2: { unfold publishError.
       destruct (exec h _ w2) as [[u w3] tr] eqn:E.
       apply exec_publishLoop_notifies in E. simpl.
       eexists _, _. split; [reflexivity|]. right. left. eauto. }
  rewrite exec_bind.
  match goal with |- context [processJobIn p job meta ?segs tmp] =>
    set (segments := segs) end.
  destruct (exec h (processJobIn p job meta segments tmp) w2)
    as [[u w3] tr] eqn:E.
  simpl. destruct (h (os_RemoveAll tmp) w3) as [r w4]. simpl.
  eexists _, _. split; [reflexivity|]. right. right.
  exists tmp, meta, segments, w2, r. rewrite E. reflexivity.
Qed.

End PoolJob.

(** X9.  For a job whose indices are ints with the end below the largest
    int (the loop of [publishError] ends), whatever the collaborators
    answer, [processJob] removes the temporary directory it created, as
    its last call, and starts at most one worker, in that directory; when
    no directory was created nothing is removed and no worker is
    started. *)
Theorem processJob_removes_tmpdir {W : Type} (h : effect.handler W)
    (p : transcode.Pool) (job : Job.t) (w : W) :
  Spec.boundedRange job ->
  let tr := snd (effect.exec h (transcode.processJob p job) w) in
  match Spec.createdDirs tr with
  | [] => Spec.removedDirs tr = [] /\ Spec.started tr = []
  | [dir] =>
      Spec.removedDirs tr = [dir] /\
      Spec.lastCall tr = Some (effect.os_RemoveAll dir) /\
      (Spec.started tr = [] \/
       exists skip, Spec.started tr = [(dir, skip)])
  | _ => False
  end.
Proof.
  intros _ tr.
  destruct (processJob_trace h p job w) as (r0 & rest & E & Hrest).
  fold tr in E. rewrite E. clear E.
  destruct Hrest as [Hn | [(e & notes & -> & Hn) |
                           (dir & meta & segs & w1 & r1 & ->)]].
  - destruct (notifications_only rest Hn) as (C & R & S & _).
    change (?a :: rest) with ([a] ++ rest).
    rewrite createdDirs_app, removedDirs_app, started_app, C, R, S.
    simpl. auto.
  - destruct (notifications_only notes Hn) as (C & R & S & _).
    change (?a :: ?b :: notes) with ([a; b] ++ notes).
    rewrite createdDirs_app, removedDirs_app, started_app, C, R, S.
    simpl. auto.
  - pose proof (processJobIn_trace h p job meta segs dir w1) as Hin.
    cbv zeta in Hin.
    set (trIn := snd (effect.exec h
                        (transcode.processJobIn p job meta segs dir) w1))
      in *.
    change (?a :: ?b :: trIn ++ ?x) with (([a; b] ++ trIn) ++ x).
    rewrite lastCall_snoc.
    assert (Hproj :
      Spec.createdDirs trIn = [] /\ Spec.removedDirs trIn = [] /\
      (Spec.started trIn = [] \/
       exists skip, Spec.started trIn = [(dir, skip)])).
    { destruct Hin as [Hn | (args & skip & r & more & -> & Hmore & _)].
      - destruct (notifications_only trIn Hn) as (C & R & S & _). auto.
      - destruct Hmore as [[_ Hn] | [_ (u & a & ->)]].
        + destruct (notifications_only more Hn) as (C & R & S & _).
          change (?a :: more) with ([a] ++ more).
          rewrite createdDirs_app, removedDirs_app, started_app, C, R, S.
          simpl. eauto.
        + simpl. eauto. }
    destruct Hproj as (C & R & S).
    rewrite !createdDirs_app, !removedDirs_app, !started_app, C, R.
    simpl.
    split; [reflexivity|]. split; [reflexivity|].
    destruct S as [S | [skip S]]; rewrite S; simpl; eauto.
Qed.

Lemma processJob_removes_tmpdir_witness :
  let job := Job.mk "job-1" "file:///source" "1080p" StreamVideo 2 4 in
  let meta :=
    Metadata.mk 60 [0; 6; 12; 18; 24; 30; 36; 42; 48; 54]%float
      (VideoStream.mk 0 "h264" 1920 1080 10000000 30) [] [] in
  let p := Spec.videoPool meta in
  let tr := snd (effect.exec Spec.quiet (transcode.processJob p job) tt) in
  Spec.boundedRange job /\
  Spec.createdDirs tr = ["/tmp/transcode-1"%string] /\
  Spec.removedDirs tr = ["/tmp/transcode-1"%string] /\
  Spec.lastCall tr = Some (effect.os_RemoveAll "/tmp/transcode-1") /\
  (Spec.started tr = [] \/
   exists skip, Spec.started tr = [("/tmp/transcode-1"%string, skip)]).
Proof.
  intros job meta p tr.
  assert (Hb : Spec.boundedRange job)
    by (unfold Spec.boundedRange, Go.min_int, Go.max_int; simpl; lia).
  split; [exact Hb|].
  pose proof (processJob_removes_tmpdir Spec.quiet p job tt Hb) as H.
  cbv zeta in H. fold tr in H.
  assert (Hc : Spec.createdDirs tr = ["/tmp/transcode-1"%string])
    by (vm_compute; reflexivity).
  rewrite Hc in H. split; [reflexivity|]. exact H.
Defined.

Lemma processJob_started_skip {W : Type} (h : effect.handler W)
    (p : transcode.Pool) (job : Job.t) (w : W) (e : effect.event)
    (args : list string) (url rend tmpDir : string) (isVideo : bool) :
  In e (snd (effect.exec h (transcode.processJob p job) w)) ->
  effect.made e =
    effect.Worker_Start args url rend isVideo tmpDir true ->
  transcode.streamType p = StreamVideo /\ 0 < Job.StartIndex job /\
  exists params seg more,
    args = transcode.cmdBuilder_Video p params /\
    transcode.vSegments params = seg :: more /\
    Segment.Index seg = Job.StartIndex job - 1.
Proof.
  intros Hin Hmade.
  assert (Hnot : ~ Spec.isNotification e)
    by (unfold Spec.isNotification; rewrite Hmade; auto).
  destruct (processJob_trace h p job w) as (r0 & rest & E & Hrest).
  cbv zeta in E. rewrite E in Hin. clear E.
  destruct Hin as [<-|Hin]; [discriminate|].
  destruct Hrest as [Hn | [(e0 & notes & -> & Hn) |
                           (dir & meta & segs & w1 & r1 & ->)]].
  - exfalso. eauto using In_notification.
  - destruct Hin as [<-|Hin]; [discriminate|].
    exfalso. eauto using In_notification.
  - destruct Hin as [<-|Hin]; [discriminate|].
    apply in_app_or in Hin as [Hin | [<-|[]]]; [|discriminate].
    pose proof (processJobIn_trace h p job meta segs dir w1) as Htr.
    cbv zeta in Htr.
    destruct Htr as [Hn | (args' & skip & r & more & E & Hmore & Hskip)].
    + exfalso. eauto using In_notification.
    + rewrite E in Hin. destruct Hin as [<-|Hin].
      * simpl in Hmade. injection Hmade as <- _ _ _ _ ->.
        apply Hskip. reflexivity.
      * destruct Hmore as [[_ Hn] | [_ (u & a & ->)]].
        -- exfalso. eauto using In_notification.
        -- destruct Hin as [<-|[<-|[]]]; discriminate.
Qed.

(** X10.  A worker that [processJob] starts with the order to skip its first
    segment belongs to a video job that does not start at segment 0, and
    the segments it is given to encode begin with the one before the
    job's range. *)
Theorem processJob_skips_overlap {W : Type} (h : effect.handler W)
    (p : transcode.Pool) (job : Job.t) (w : W) (e : effect.event)
    (args : list string) (url rend tmpDir : string) (isVideo : bool) :
  In e (snd (effect.exec h (transcode.processJob p job) w)) ->
  effect.made e =
    effect.Worker_Start args url rend isVideo tmpDir true ->
  transcode.streamType p = StreamVideo /\ 0 < Job.StartIndex job /\
  exists params seg more,
    args = transcode.cmdBuilder_Video p params /\
    transcode.vSegments params = seg :: more /\
    Segment.Index seg = Job.StartIndex job - 1.
Proof. apply processJob_started_skip. Qed.

Lemma processJob_skips_overlap_witness :
  let job := Job.mk "job-1" "file:///source" "1080p" StreamVideo 2 4 in
  let meta :=
    Metadata.mk 60 [0; 6; 12; 18; 24; 30; 36; 42; 48; 54]%float
      (VideoStream.mk 0 "h264" 1920 1080 10000000 30) [] [] in
  let p := Spec.videoPool meta in
  let e :=
    effect.Event
      (effect.Worker_Start [] "file:///source" "1080p" true
         "/tmp/transcode-1" true) None in
  In e (snd (effect.exec Spec.quiet (transcode.processJob p job) tt)) /\
  (transcode.streamType p = StreamVideo /\ 0 < Job.StartIndex job /\
   exists params seg more,
     [] = transcode.cmdBuilder_Video p params /\
     transcode.vSegments params = seg :: more /\
     Segment.Index seg = Job.StartIndex job - 1).
Proof.
  intros job meta p e.
  assert (Hin : In e (snd (effect.exec Spec.quiet
                             (transcode.processJob p job) tt)))
    by (vm_compute; right; right; left; reflexivity).
  split; [exact Hin|].
  exact (processJob_skips_overlap Spec.quiet p job tt e []
           "file:///source" "1080p" "/tmp/transcode-1" true Hin eq_refl).
Defined.

Lemma fanout_empty (p : transcode.Pool) (job : Job.t) (err : Go.error) :
  Job.EndIndex job < Job.StartIndex job -> Spec.fanout p job err = [].
Proof.
  intros H. unfold Spec.fanout, Go.upto.
  replace (Z.to_nat (Job.EndIndex job - Job.StartIndex job + 1)) with 0%nat
    by lia.
  reflexivity.
Qed.

(** X11.  A job whose indices are ints with the end below the largest int
    and whose range holds no segment of the source - it starts at or
    after the number of keyframes, or its end lies below its start or
    below 0 - makes [processJob] publish the error "no segments for range
    <start>-<end>" for every index of the range and return: no directory
    is created, no worker started, the job is not acknowledged.  When the
    end lies below the start the range has no index, so nothing at all is
    published. *)
Theorem processJob_empty_range {W : Type} (h : effect.handler W)
    (p : transcode.Pool) (job : Job.t) (w w1 : W) (data : Go.bytes)
    (meta : Metadata.t) :
  Spec.boundedRange job ->
  h (effect.Storage_GetMetadata (Job.SourceURL job)) w = (Go.Ok data, w1) ->
  transcode.json_Unmarshal p data = Go.Ok meta ->
  Z.of_nat (List.length (Metadata.Keyframes meta)) <= Job.StartIndex job \/
  Job.EndIndex job < Job.StartIndex job \/ Job.EndIndex job < 0 ->
  let tr := snd (effect.exec h (transcode.processJob p job) w) in
  Spec.notifications tr =
    Spec.fanout p job
      ("no segments for range " ++ Go.itoa (Job.StartIndex job) ++ "-" ++
       Go.itoa (Job.EndIndex job))%string /\
  Spec.acks tr = [] /\ Spec.createdDirs tr = [] /\ Spec.started tr = [] /\
  (Job.EndIndex job < Job.StartIndex job -> Spec.notifications tr = []).
Proof.
  intros _ Hget Hjson Hrange tr.
  assert (Hmain :
    Spec.notifications tr =
      Spec.fanout p job
        ("no segments for range " ++ Go.itoa (Job.StartIndex job) ++ "-" ++
         Go.itoa (Job.EndIndex job))%string /\
    Spec.acks tr = [] /\ Spec.createdDirs tr = [] /\ Spec.started tr = []).
  { subst tr. unfold transcode.processJob, transcode.getMetadata. simpl.
    rewrite Hget. simpl. rewrite Hjson.
    rewrite (extractSegments_out_of_range _ _ _ _ Hrange). simpl.
    match goal with |- context [transcode.publishError p job ?e] =>
      pose proof (publishError_outcome h p job e w1) as Hout end.
    unfold transcode.publishError in *.
    destruct (effect.exec h _ w1) as [[u w2] tr] eqn:E.
    apply exec_publishLoop_notifies in E.
    destruct (notifications_only tr E) as (C & _ & S & _).
    destruct Hout as [Ha Hn]. cbn [snd].
    change (?a :: tr) with ([a] ++ tr).
    rewrite createdDirs_app, started_app, C, S.
    unfold Spec.notifications, Spec.acks in *.
    rewrite !flat_map_app, Ha, Hn. auto. }
  destruct Hmain as (Hn & Ha & Hc & Hs).
  repeat split; try assumption.
  intros Hinv. rewrite Hn. apply fanout_empty. exact Hinv.
Qed.

Lemma processJob_empty_range_witness :
  let job := Job.mk "job-1" "file:///source" "1080p" StreamVideo 20 22 in
  let meta :=
    Metadata.mk 60 [0; 6; 12; 18; 24; 30; 36; 42; 48; 54]%float
      (VideoStream.mk 0 "h264" 1920 1080 10000000 30) [] [] in
  let p := Spec.videoPool meta in
  let tr := snd (effect.exec Spec.quiet (transcode.processJob p job) tt) in
  Spec.boundedRange job /\
  map (fun n => SegmentData.Index (fst n)) (Spec.notifications tr) =
    [20; 21; 22] /\
  Spec.acks tr = [] /\ Spec.createdDirs tr = [] /\ Spec.started tr = [].
Proof.
  intros job meta p tr.
  assert (Hb : Spec.boundedRange job)
    by (unfold Spec.boundedRange, Go.min_int, Go.max_int; simpl; lia).
  split; [exact Hb|].
  assert (Hrange :
    Z.of_nat (List.length (Metadata.Keyframes meta)) <= Job.StartIndex job \/
    Job.EndIndex job < Job.StartIndex job \/ Job.EndIndex job < 0)
    by (left; simpl; lia).
  destruct (processJob_empty_range Spec.quiet p job tt tt [] meta
              Hb eq_refl eq_refl Hrange) as (Hn & Ha & Hc & Hs & _).
  fold tr in Hn, Ha, Hc, Hs. rewrite Hn.
  repeat split; try assumption.
Defined.

(** *** Keyframe lookup *)

Lemma fold_nearestStep (target : float) (keyframes seen : list float)
    (st : transcode.nearest) :
  let ok x := x = 0%float \/
              (In x (seen ++ keyframes) /\
               (x <=? target + 0.001)%float = true) in
  (transcode.prevKeyframe st = 0%float \/
   (In (transcode.prevKeyframe st) seen /\
    (transcode.prevKeyframe st <=? target + 0.001)%float = true)) ->
  (transcode.result st = 0%float \/
   (In (transcode.result st) seen /\
    (transcode.result st <=? target + 0.001)%float = true)) ->
  ok (transcode.prevKeyframe
        (fold_left (transcode.nearestStep target) keyframes st)) /\
  ok (transcode.result
        (fold_left (transcode.nearestStep target) keyframes st)).
Proof.
  intros ok. unfold ok. clear ok.
  revert seen st. induction keyframes as [|kf rest IH]; intros seen st Hp Hr.
  - simpl. rewrite app_nil_r. auto.
  - simpl.
    replace (seen ++ kf :: rest) with ((seen ++ [kf]) ++ rest)
      by (rewrite <- app_assoc; reflexivity).
    assert (Hmono : forall x, In x seen -> In x (seen ++ [kf]))
      by (intros x Hx; apply in_or_app; left; exact Hx).
    apply IH; unfold transcode.nearestStep;
      destruct (transcode.stop st);
      try destruct (kf <=? target + 0.001)%float eqn:Hle; simpl;
      try (destruct Hp as [Hp|[Hp Hp']]; [left; exact Hp|right; auto]);
      try (destruct Hr as [Hr|[Hr Hr']]; [left; exact Hr|right; auto]).
    right. split; [|exact Hle]. apply in_or_app. right. left. reflexivity.
Qed.

(** X12.  What [findNearestKeyframe] returns is 0 or one of the keyframes that
    is not above the target by more than a millisecond. *)
Theorem findNearestKeyframe_at_most_target (keyframes : list float)
    (target : float) :
  let found := transcode.findNearestKeyframe keyframes target in
  found = 0%float \/
  (In found keyframes /\ (found <=? target + 0.001)%float = true).
Proof.
  unfold transcode.findNearestKeyframe.
  destruct keyframes as [|k0 rest]; [left; reflexivity|].
  destruct (fold_nearestStep target (k0 :: rest) []
              (transcode.mkNearest 0 0 false)) as [Hp Hr];
    [left; reflexivity | left; reflexivity |].
  cbv zeta. rewrite app_nil_l in Hp, Hr.
  match goal with |- context [if ?c then _ else _] => destruct c end;
    assumption.
Qed.

(** *** The worker: order of its calls *)

Lemma app_eq_elt {A : Type} (a b before after : list A) (x : A) :
  a ++ b = before ++ x :: after ->
  (exists l, a = before ++ x :: l /\ after = l ++ b) \/
  (exists l, before = a ++ l /\ b = l ++ x :: after).
Proof.
  revert before. induction a as [|y a IH]; intros before E.
  - right. exists before. auto.
  - destruct before as [|z before].
    + left. simpl in E. injection E as -> <-. exists a. auto.
    + simpl in E. injection E as -> E.
      destruct (IH _ E) as [(l & -> & ->) | (l & -> & ->)].
      * left. exists l. auto.
      * right. exists l. auto.
Qed.


Lemma actions_app (a b : list effect.event) :
  Spec.actions (a ++ b) = Spec.actions a ++ Spec.actions b.
Proof. apply flat_map_app. Qed.

Lemma waits_app (a b : list effect.event) :
  Spec.waits (a ++ b) = (Spec.waits a + Spec.waits b)%nat.
Proof. unfold Spec.waits. now rewrite filter_app, length_app. Qed.

Lemma calm_no_wait (tr : list effect.event) :
  Forall (fun e => ~ Spec.failedUpload e /\ ~ Spec.cancelled e /\
                   ~ Spec.isWait e) tr ->
  Spec.waits tr = 0%nat.
Proof.
  induction 1 as [|[c r] tr (_ & _ & Hw) _ IH]; [reflexivity|].
  change (Spec.waits ([effect.Event c r] ++ tr) = 0%nat).
  rewrite waits_app, IH.
  destruct c; try reflexivity. exfalso. apply Hw. exact I.
Qed.

(** X13.  Whatever happens, [Worker.run] waits for the encoder process exactly
    once, after all its calls on segment files; the only call that may
    follow the wait is the question whether the context was cancelled. *)
Theorem run_waits_once {W : Type} (h : effect.handler W)
    (wk : transcode.Worker) (lines : list string) (w : W) :
  let tr := snd (effect.exec h (transcode.run wk lines) w) in
  Spec.waits tr = 1%nat /\
  exists before r after,
    tr = before ++ effect.Event effect.cmd_Wait r :: after /\
    (after = [] \/ exists e, after = [effect.Event effect.ctx_Err e]).
Proof.
  unfold transcode.run. rewrite exec_bind.
  pose proof (scanLoop_exit h wk lines (transcode.skipFirst wk) w) as Hloop.
  destruct (effect.exec h
              (transcode.scanLoop wk (transcode.skipFirst wk) lines) w)
    as [[ex w1] tr1].
  cbv zeta in Hloop.
  assert (Hw1 : Spec.waits tr1 = 0%nat).
  { destruct ex as [| |err].
    - apply calm_no_wait. exact Hloop.
    - destruct Hloop as (before & -> & Hb).
      rewrite waits_app, (calm_no_wait _ Hb). reflexivity.
    - destruct Hloop as (before & [c r] & -> & _ & Hw & Hb).
      rewrite waits_app, (calm_no_wait _ Hb).
      destruct c; try reflexivity. exfalso. apply Hw. exact I. }
  clear Hloop.
  destruct ex as [| |err]; simpl.
  - destruct (h effect.cmd_Wait w1) as [[e|] w2]; simpl.
    + destruct (h effect.ctx_Err w2) as [[e'|] w3]; simpl;
        (split; [rewrite waits_app, Hw1; reflexivity|];
         eexists tr1, _, _; split; [reflexivity|]; right; eauto).
    + split; [rewrite waits_app, Hw1; reflexivity|].
      eexists tr1, _, _. split; [reflexivity|]. left. reflexivity.
  - destruct (h effect.cmd_Wait w1) as [r w2]. simpl.
    split; [rewrite waits_app, Hw1; reflexivity|].
    eexists tr1, _, _. split; [reflexivity|]. left. reflexivity.
  - destruct (h effect.cmd_Wait w1) as [r w2]. simpl.
    split; [rewrite waits_app, Hw1; reflexivity|].
    eexists tr1, _, _. split; [reflexivity|]. left. reflexivity.
Qed.

(** X14.  The state and error [Worker.run] leaves behind tell how it went:
    still "running" without an error only when the scan loop found the
    context done; "done" without an error only when no read or upload
    failed, the scan loop never found the context done, and the wait for
    the encoder succeeded or it failed while [ctx.Err()] returned an
    error - a cancellation seen only then ends in "done" and the
    encoder's error is dropped; "error" with an error when a read or an
    upload failed, or the wait failed with that error and [ctx.Err()]
    returned none. *)
Theorem run_state {W : Type} (h : effect.handler W)
    (wk : transcode.Worker) (lines : list string) (w : W) :
  let '(st, err, _, tr) := effect.exec h (transcode.run wk lines) w in
  match st with
  | transcode.WorkerStateIdle => False
  | transcode.WorkerStateRunning =>
      err = None /\ Exists Spec.cancelled tr
  | transcode.WorkerStateDone =>
      err = None /\
      Forall (fun e => ~ Spec.failedUpload e /\ ~ Spec.cancelled e) tr /\
      (In (effect.Event effect.cmd_Wait None) tr \/
       exists e e',
         In (effect.Event effect.cmd_Wait (Some e)) tr /\
         In (effect.Event effect.ctx_Err (Some e')) tr)
  | transcode.WorkerStateError =>
      err <> None /\
      (Exists Spec.failedUpload tr \/
       exists e, err = Some e /\
                 In (effect.Event effect.cmd_Wait (Some e)) tr /\
                 In (effect.Event effect.ctx_Err None) tr)
  end.
Proof.
  unfold transcode.run. rewrite exec_bind.
  pose proof (scanLoop_exit h wk lines (transcode.skipFirst wk) w) as Hloop.
  destruct (effect.exec h
              (transcode.scanLoop wk (transcode.skipFirst wk) lines) w)
    as [[ex w1] tr1].
  cbv zeta in Hloop.
  destruct ex as [| |err]; simpl.
  - assert (Hcalm : Forall (fun e => ~ Spec.failedUpload e /\
                                     ~ Spec.cancelled e) tr1).
    { eapply Forall_impl; [|exact Hloop].
      intros e (Hf & Hc & _). split; assumption. }
    destruct (h effect.cmd_Wait w1) as [[e|] w2]; simpl.
    + destruct (h effect.ctx_Err w2) as [[e'|] w3]; simpl.
      * split; [reflexivity|]. split.
        -- apply Forall_app. split; [exact Hcalm|].
           repeat constructor; simpl; tauto.
        -- right. exists e, e'.
           split; apply in_or_app; right; simpl; auto.
      * split; [discriminate|]. right. exists e.
        split; [reflexivity|].
        split; apply in_or_app; right; simpl; auto.
    + split; [reflexivity|]. split.
      * apply Forall_app. split; [exact Hcalm|].
        repeat constructor; simpl; tauto.
      * left. apply in_or_app. right. simpl. auto.
  - destruct (h effect.cmd_Wait w1) as [r w2]. simpl.
    split; [reflexivity|]. destruct Hloop as (before & -> & _).
    apply Exists_app. left. apply Exists_app. right.
    constructor. exact I.
  - destruct (h effect.cmd_Wait w1) as [r w2]. simpl.
    split; [discriminate|]. left.
    destruct Hloop as (before & e & -> & He & _).
    apply Exists_app. left. apply Exists_app. right.
    constructor. exact He.
Qed.

Lemma first_failure_tail {A : Type} (P : A -> Prop)
    (b before after : list A) (x y e : A) :
  Forall (fun a => ~ P a) b -> ~ P y -> P e ->
  b ++ [x; y] = before ++ e :: after ->
  after = [y].
Proof.
  intros Hb Hy He E.
  apply app_eq_elt in E as [(l & -> & _) | (l & -> & E)].
  - exfalso. rewrite Forall_forall in Hb. apply (Hb e); [|exact He].
    apply in_or_app. right. left. reflexivity.
  - destruct l as [|x' l]; simpl in E.
    + injection E as _ <-. reflexivity.
    + injection E as _ E. destruct l as [|y' l]; simpl in E.
      * injection E as -> _. contradiction.
      * injection E as _ E. destruct l; discriminate.
Qed.

(** X15.  After a read or an upload that failed, and after the context was
    reported done, [Worker.run] makes one more call only: it waits for the
    encoder process.  No further file is read, uploaded or deleted. *)
Theorem run_stops_after_failure {W : Type} (h : effect.handler W)
    (wk : transcode.Worker) (lines : list string) (w : W)
    (before after : list effect.event) (e : effect.event) :
  snd (effect.exec h (transcode.run wk lines) w) = before ++ e :: after ->
  Spec.failedUpload e \/ Spec.cancelled e ->
  exists r, after = [effect.Event effect.cmd_Wait r].
Proof.
  unfold transcode.run. rewrite exec_bind.
  pose proof (scanLoop_exit h wk lines (transcode.skipFirst wk) w) as Hloop.
  destruct (effect.exec h
              (transcode.scanLoop wk (transcode.skipFirst wk) lines) w)
    as [[ex w1] tr1].
  cbv zeta in Hloop. intros E He.
  set (failing := fun e => Spec.failedUpload e \/ Spec.cancelled e).
  assert (Hcalm : forall l,
            Forall (fun e => ~ Spec.failedUpload e /\ ~ Spec.cancelled e /\
                             ~ Spec.isWait e) l ->
            Forall (fun a => ~ failing a) l).
  { intros l Hl. eapply Forall_impl; [|exact Hl].
    unfold failing. intros a (Hf & Hc & _) [H|H]; contradiction. }
  destruct ex as [| |err]; simpl in E.
  - exfalso.
    assert (Hall : Forall (fun a => ~ failing a)
                     (before ++ e :: after)).
    { rewrite <- E.
      destruct (h effect.cmd_Wait w1) as [[e0|] w2]; simpl;
        [destruct (h effect.ctx_Err w2) as [[e'|] w3]; simpl|];
        (apply Forall_app; split; [apply Hcalm; exact Hloop|]);
        repeat constructor; unfold failing; simpl; tauto. }
    rewrite Forall_forall in Hall. apply (Hall e); [|exact He].
    apply in_or_app. right. left. reflexivity.
  - destruct (h effect.cmd_Wait w1) as [r w2]. simpl in E.
    destruct Hloop as (b & -> & Hb). rewrite <- app_assoc in E.
    exists r.
    eapply (first_failure_tail failing b before after);
      [apply Hcalm; exact Hb | unfold failing; simpl; tauto | exact He |
       exact E].
  - destruct (h effect.cmd_Wait w1) as [r w2]. simpl in E.
    destruct Hloop as (b & x & -> & _ & _ & Hb). rewrite <- app_assoc in E.
    exists r.
    eapply (first_failure_tail failing b before after);
      [apply Hcalm; exact Hb | unfold failing; simpl; tauto | exact He |
       exact E].
Qed.

Lemma run_stops_after_failure_witness :
  let wk :=
    transcode.mkWorker "file:///source" "1080p" true "/tmp/w" false
      (fun dir name => (dir ++ "/" ++ name)%string) in
  let lines := ["segment-00001.ts"; "segment-00002.ts"]%string in
  let info := SegmentData.mk "file:///source" 1 0 0 0%float "1080p" true in
  let e := effect.Event (effect.Storage_WriteSegment info [])
             (Some "disk full"%string) in
  Spec.failedUpload e /\
  exists r,
    snd (effect.exec Spec.fullStore (transcode.run wk lines) tt) =
    [effect.Event effect.ctx_Done false;
     effect.Event (effect.os_ReadFile "/tmp/w/segment-00001.ts") (Go.Ok [])]
    ++ e :: [effect.Event effect.cmd_Wait r].
Proof.
  intros wk lines info e.
  assert (He : Spec.failedUpload e) by exact I.
  split; [exact He|].
  destruct (run_stops_after_failure Spec.fullStore wk lines tt
              [effect.Event effect.ctx_Done false;
               effect.Event (effect.os_ReadFile "/tmp/w/segment-00001.ts")
                 (Go.Ok [])]
              [effect.Event effect.cmd_Wait None] e eq_refl (or_introl He))
    as [r Hr].
  exists r. rewrite <- Hr. reflexivity.
Defined.

Lemma cons_eq_elt {A : Type} (y x : A) (l before after : list A) :
  y :: l = before ++ x :: after ->
  (before = [] /\ y = x /\ l = after) \/
  exists b, before = y :: b /\ l = b ++ x :: after.
Proof.
  destruct before as [|z b]; simpl; intros E; injection E as -> ->.
  - left. auto.
  - right. exists b. auto.
Qed.

Lemma nil_eq_elt {A : Type} (x : A) (before after : list A) :
  [] = before ++ x :: after -> False.
Proof. destruct before; discriminate. Qed.

Lemma deletedAfterUpload_prefix (skip : bool) (pre l : list effect.event)
    (path : string) :
  Spec.actions pre = [] ->
  Spec.deletedAfterUpload skip l path ->
  Spec.deletedAfterUpload skip (pre ++ l) path.
Proof.
  intros Hpre [[Hs Ha] | (earlier & info & data & ->)].
  - left. split; [exact Hs|]. rewrite actions_app, Hpre, Ha. reflexivity.
  - right. exists (pre ++ earlier), info, data. now rewrite app_assoc.
Qed.

Lemma deletedAfterUpload_later (skip : bool) (pre l : list effect.event)
    (path : string) :
  Spec.deletedAfterUpload false l path ->
  Spec.deletedAfterUpload skip (pre ++ l) path.
Proof.
  intros [[Hs _] | (earlier & info & data & ->)]; [discriminate|].
  right. exists (pre ++ earlier), info, data. now rewrite app_assoc.
Qed.

Section WorkerDeletes.
Import effect transcode.
Context {W : Type} (h : handler W).
Variable wk : Worker.

Lemma scanLoop_deletes (lines : list string) :
  forall (skip : bool) (w : W) (before after : list event) (path : string)
         (r : option Go.error),
  snd (exec h (scanLoop wk skip lines) w) =
    before ++ Event (os_Remove path) r :: after ->
  Spec.deletedAfterUpload skip before path.
Proof.
  induction lines as [|text rest IH]; intros skip w before after path r E.
  - simpl in E. destruct (nil_eq_elt _ _ _ E).
  - cbn [scanLoop] in E. rewrite exec_bind, exec_perform in E.
    destruct (h ctx_Done w) as [[|] w1]; cbn [fst snd] in E.
    + simpl in E.
      apply cons_eq_elt in E as [(_ & E & _) | (b & _ & E)];
        [discriminate | destruct (nil_eq_elt _ _ _ E)].
    + destruct (String.eqb (Go.TrimSpace text) EmptyString).
      * destruct (exec h (scanLoop wk skip rest) w1) as [[ex w2] tr] eqn:Er.
        cbn [app snd] in E.
        apply cons_eq_elt in E as [(_ & E & _) | (b & -> & E)];
          [discriminate|].
        apply (deletedAfterUpload_prefix skip [_] b); [reflexivity|].
        apply (IH skip w1 b after path r). rewrite Er. exact E.
      * destruct skip.
        -- rewrite exec_bind, exec_perform in E.
           destruct (h (os_Remove (Join wk (tmpDir wk) (Go.TrimSpace text)))
                       w1) as [r0 w2]; cbn [fst snd] in E.
           destruct (exec h (scanLoop wk false rest) w2)
             as [[ex w3] tr] eqn:Er.
           cbn [app snd] in E.
           apply cons_eq_elt in E as [(_ & E & _) | (b & -> & E)];
             [discriminate|].
           apply cons_eq_elt in E as [(-> & _ & _) | (b' & -> & E)].
           ++ left. split; reflexivity.
           ++ apply (deletedAfterUpload_later true [_; _] b').
              apply (IH false w2 b' after path r). rewrite Er. exact E.
        -- rewrite exec_bind in E.
           pose proof (uploadSegment_trace h wk (Go.TrimSpace text) w1)
             as Hup.
           destruct (exec h (uploadSegment wk (Go.TrimSpace text)) w1)
             as [[res w2] tr1].
           cbv zeta in Hup.
           destruct Hup as [[-> ->] | [(e & Hres & ->) |
                            [(data & info & e & Hres & ->) |
                             (data & info & r0 & -> & ->)]]].
           ++ destruct (exec h (scanLoop wk false rest) w2)
                as [[ex w3] tr] eqn:Er.
              cbn [app snd] in E.
              apply cons_eq_elt in E as [(_ & E & _) | (b & -> & E)];
                [discriminate|].
              apply (deletedAfterUpload_prefix false [_] b); [reflexivity|].
              apply (IH false w2 b after path r). rewrite Er. exact E.
           ++ destruct res as [err|]; [|congruence]. simpl in E.
              apply cons_eq_elt in E as [(_ & E & _) | (b & -> & E)];
                [discriminate|].
              apply cons_eq_elt in E as [(_ & E & _) | (b' & -> & E)];
                [discriminate | destruct (nil_eq_elt _ _ _ E)].
           ++ destruct res as [err|]; [|congruence]. simpl in E.
              apply cons_eq_elt in E as [(_ & E & _) | (b & -> & E)];
                [discriminate|].
              apply cons_eq_elt in E as [(_ & E & _) | (b' & -> & E)];
                [discriminate|].
              apply cons_eq_elt in E as [(_ & E & _) | (b & -> & E)];
                [discriminate | destruct (nil_eq_elt _ _ _ E)].
           ++ destruct (exec h (scanLoop wk false rest) w2)
                as [[ex w3] tr] eqn:Er.
              cbn [app snd] in E.
              apply cons_eq_elt in E as [(_ & E & _) | (b1 & -> & E)];
                [discriminate|].
              apply cons_eq_elt in E as [(_ & E & _) | (b2 & -> & E)];
                [discriminate|].
              apply cons_eq_elt in E as [(_ & E & _) | (b3 & -> & E)];
                [discriminate|].
              apply cons_eq_elt in E as [(-> & E & _) | (b4 & -> & E)].
              ** apply (f_equal made) in E. simpl in E.
                 injection E as <-.
                 right. exists [Event ctx_Done false], info, data.
                 reflexivity.
              ** apply (deletedAfterUpload_later false [_; _; _; _] b4).
                 apply (IH false w2 b4 after path r). rewrite Er. exact E.
Qed.

End WorkerDeletes.

(** X16.  [Worker.run] deletes a segment file only right after it has read the
    file and the store has accepted what was read; the one exception is a
    worker told to skip its first segment, which deletes that first file
    before any other call on a segment file. *)
Theorem run_deletes_uploaded {W : Type} (h : effect.handler W)
    (wk : transcode.Worker) (lines : list string) (w : W)
    (before after : list effect.event) (path : string)
    (r : option Go.error) :
  snd (effect.exec h (transcode.run wk lines) w) =
    before ++ effect.Event (effect.os_Remove path) r :: after ->
  Spec.deletedAfterUpload (transcode.skipFirst wk) before path.
Proof.
  unfold transcode.run. rewrite exec_bind.
  destruct (effect.exec h
              (transcode.scanLoop wk (transcode.skipFirst wk) lines) w)
    as [[ex w1] tr1] eqn:Eloop.
  intros E.
  assert (Htail : exists tail,
            tr1 ++ tail = before ++ effect.Event (effect.os_Remove path) r
                                    :: after /\
            Forall (fun e => forall p, effect.made e <> effect.os_Remove p)
              tail).
  { destruct ex as [| |err]; simpl in E.
    - destruct (h effect.cmd_Wait w1) as [[e|] w2]; simpl in E.
      + destruct (h effect.ctx_Err w2) as [[e'|] w3]; simpl in E;
          (eexists; split; [exact E|]);
          repeat constructor; simpl; discriminate.
      + eexists; split; [exact E|].
        repeat constructor; simpl; discriminate.
    - destruct (h effect.cmd_Wait w1) as [r0 w2]. simpl in E.
      eexists; split; [exact E|].
      repeat constructor; simpl; discriminate.
    - destruct (h effect.cmd_Wait w1) as [r0 w2]. simpl in E.
      eexists; split; [exact E|].
      repeat constructor; simpl; discriminate. }
  destruct Htail as (tail & Et & Htail).
  apply app_eq_elt in Et as [(l & Et & _) | (l & _ & Et)].
  - apply (scanLoop_deletes h wk lines (transcode.skipFirst wk) w before l
             path r).
    rewrite Eloop. exact Et.
  - exfalso. rewrite Forall_forall in Htail.
    apply (Htail (effect.Event (effect.os_Remove path) r)) with (p := path);
      [|reflexivity].
    rewrite Et. apply in_or_app. right. left. reflexivity.
Qed.

Lemma run_deletes_uploaded_witness :
  let wk :=
    transcode.mkWorker "file:///source" "1080p" true "/tmp/w" false
      (fun dir name => (dir ++ "/" ++ name)%string) in
  let lines := ["segment-00001.ts"]%string in
  let info := SegmentData.mk "file:///source" 1 0 0 0%float "1080p" true in
  let path := "/tmp/w/segment-00001.ts"%string in
  let before :=
    [effect.Event effect.ctx_Done false;
     effect.Event (effect.os_ReadFile path) (Go.Ok []);
     effect.Event (effect.Storage_WriteSegment info []) None] in
  snd (effect.exec Spec.quiet (transcode.run wk lines) tt) =
    before ++ effect.Event (effect.os_Remove path) None
           :: [effect.Event effect.cmd_Wait None] /\
  Spec.deletedAfterUpload false before path.
Proof.
  intros wk lines info path before.
  assert (E : snd (effect.exec Spec.quiet (transcode.run wk lines) tt) =
              before ++ effect.Event (effect.os_Remove path) None
                     :: [effect.Event effect.cmd_Wait None])
    by reflexivity.
  split; [exact E|].
  exact (run_deletes_uploaded Spec.quiet wk lines tt before _ path None E).
Defined.

(** *** Segment file names *)

Ltac digit_step :=
  cbn [NilEmpty.string_of_uint Go.digits Pos.of_uint_acc Pos.of_uint];
  match goal with
  | |- context [Go.digit ?c] =>
      let v := eval vm_compute in (Go.digit c) in
      change (Go.digit c) with v
  end;
  cbv iota beta.

Lemma digits_uint_acc (d : Decimal.uint) (acc : positive) :
  Go.digits (Z.pos acc) (NilEmpty.string_of_uint d) =
  Some (Z.pos (Pos.of_uint_acc d acc)).
Proof.
  revert acc. induction d; intros acc; [reflexivity | ..];
    digit_step; rewrite <- IHd; f_equal; lia.
Qed.

Lemma digits_uint (d : Decimal.uint) :
  Go.digits 0 (NilEmpty.string_of_uint d) = Some (Z.of_N (Pos.of_uint d)).
Proof.
  induction d; [reflexivity | ..]; digit_step;
    try exact IHd; apply digits_uint_acc.
Qed.

Lemma digits_itoa (n : Z) :
  0 <= n -> Go.digits 0 (Go.itoa n) = Some n.
Proof.
  intros Hn. unfold Go.itoa. destruct n as [|p|p]; [reflexivity| |lia].
  simpl. unfold NilZero.string_of_uint.
  pose proof (Unsigned.to_uint_nonnil p) as Hnil.
  destruct (Pos.to_uint p) eqn:E; [congruence | ..];
    rewrite <- E, digits_uint, Unsigned.of_to; reflexivity.
Qed.

Lemma digits_zeros (k : nat) (s : string) :
  Go.digits 0 (Go.zeros k ++ s) = Go.digits 0 s.
Proof. induction k as [|k IH]; [reflexivity | exact IH]. Qed.

Lemma digits_no_dash (s : string) :
  forall acc v, Go.digits acc s = Some v -> Spec.afterLastDash s = None.
Proof.
  induction s as [|c s IH]; intros acc v H; [reflexivity|].
  simpl in H. destruct (Go.digit c) as [d|] eqn:Hd; [|discriminate].
  simpl. rewrite (IH _ _ H).
  destruct (Ascii.eqb_spec c "-"%char) as [->|]; [discriminate|reflexivity].
Qed.

Lemma afterLastDash_app (stem t : string) :
  Spec.afterLastDash t = None ->
  Spec.afterLastDash (stem ++ "-" ++ t) = Some t.
Proof.
  intros Ht. induction stem as [|c stem IH]; simpl.
  - rewrite Ht. reflexivity.
  - simpl in IH. rewrite IH. reflexivity.
Qed.

Lemma length_append (a b : string) :
  String.length (a ++ b) = (String.length a + String.length b)%nat.
Proof. induction a as [|c a IH]; simpl; [reflexivity | now rewrite IH]. Qed.

Lemma eqb_longer (s suffix : string) (c : ascii) :
  String.eqb (String c (s ++ suffix)) suffix = false.
Proof.
  apply String.eqb_neq. intros E. apply (f_equal String.length) in E.
  simpl in E. rewrite length_append in E. lia.
Qed.

Lemma TrimSuffix_app (s suffix : string) :
  Go.TrimSuffix (s ++ suffix) suffix = s.
Proof.
  induction s as [|c s IH].
  - change (EmptyString ++ suffix)%string with suffix.
    destruct suffix; cbn [Go.TrimSuffix]; rewrite String.eqb_refl;
      reflexivity.
  - change (String c s ++ suffix)%string with (String c (s ++ suffix)).
    cbn [Go.TrimSuffix]. rewrite eqb_longer, IH. reflexivity.
Qed.

Lemma Atoi_digits (s : string) (v : Z) :
  s <> EmptyString -> Go.digits 0 s = Some v ->
  Go.min_int <= v <= Go.max_int -> Go.Atoi s = Go.Ok v.
Proof.
  intros Hs Hd Hv. destruct s as [|c body]; [congruence|].
  assert (Hc : Go.digit c <> None).
  { intros E. cbn [Go.digits] in Hd. rewrite E in Hd. discriminate. }
  unfold Go.Atoi.
  destruct c as [[] [] [] [] [] [] [] []];
    try (exfalso; apply Hc; reflexivity);
    cbv beta iota zeta; rewrite Hd;
    destruct (Z.leb_spec Go.min_int v); try lia;
    destruct (Z.leb_spec v Go.max_int); try lia; reflexivity.
Qed.

Lemma itoa_nonempty (n : Z) : Go.itoa n <> EmptyString.
Proof.
  unfold Go.itoa. destruct n as [|p|p]; simpl; try discriminate.
  unfold NilZero.string_of_uint.
  pose proof (Unsigned.to_uint_nonnil p) as Hnil.
  destruct (Pos.to_uint p); [congruence | ..]; discriminate.
Qed.

(** X17.  A file name of the encoder's pattern [<stem>-<digits>.ts] - the
    digits those of a number that fits an [int], with any count of
    leading zeros, as [segment-%05d.ts] prints them - parses back into that
    number. *)
Theorem parseSegmentIndex_of_pattern (stem : string) (pad : nat) (n : Z) :
  0 <= n <= Go.max_int ->
  transcode.parseSegmentIndex
    (stem ++ "-" ++ Go.zeros pad ++ Go.itoa n ++ ".ts") = Go.Ok n.
Proof.
  intros Hn.
  assert (Hd : Go.digits 0 (Go.zeros pad ++ Go.itoa n) = Some n)
    by (rewrite digits_zeros; apply digits_itoa; lia).
  assert (Hne : (Go.zeros pad ++ Go.itoa n)%string <> EmptyString).
  { destruct pad; [apply itoa_nonempty | discriminate]. }
  pose proof (parseSegmentIndex_trailingInteger
                (stem ++ "-" ++ Go.zeros pad ++ Go.itoa n ++ ".ts")) as Hp.
  assert (Ht : Spec.trailingInteger
                 (stem ++ "-" ++ Go.zeros pad ++ Go.itoa n ++ ".ts") =
               Some n).
  { unfold Spec.trailingInteger.
    replace (stem ++ "-" ++ Go.zeros pad ++ Go.itoa n ++ ".ts")%string
      with ((stem ++ "-" ++ Go.zeros pad ++ Go.itoa n) ++ ".ts")%string
      by (rewrite !append_assoc; reflexivity).
    rewrite TrimSuffix_app, afterLastDash_app
      by (eapply digits_no_dash; exact Hd).
    rewrite (Atoi_digits _ n Hne Hd); [reflexivity|].
    unfold Go.min_int, Go.max_int in *. lia. }
  destruct (transcode.parseSegmentIndex _) as [m|e]; congruence.
Qed.

Lemma parseSegmentIndex_of_pattern_witness :
  transcode.parseSegmentIndex "segment-00042.ts" = Go.Ok 42.
Proof.
  apply (parseSegmentIndex_of_pattern "segment" 3 42).
  unfold Go.max_int. lia.
Defined.

(** *** The controller *)

Lemma wrap64_id (z : Z) :
  Go.min_int <= z <= Go.max_int -> Go.wrap64 z = z.
Proof.
  unfold Go.wrap64, Go.min_int, Go.max_int. intros H.
  rewrite Z.mod_small; lia.
Qed.

Lemma jobRange_nonneg (segmentsPerJob index : Z) :
  0 < segmentsPerJob -> 0 <= index <= Go.max_int ->
  segmentsPerJob * (index / segmentsPerJob) + segmentsPerJob <= Go.max_int ->
  goshl.jobRange segmentsPerJob index =
    Some (segmentsPerJob * (index / segmentsPerJob),
          segmentsPerJob * (index / segmentsPerJob) + segmentsPerJob - 1).
Proof.
  intros Hs Hi Hmax. unfold goshl.jobRange.
  destruct (Z.eqb_spec segmentsPerJob 0) as [|_]; [lia|].
  rewrite Z.quot_div_nonneg by lia.
  pose proof (Z.mul_div_le index segmentsPerJob Hs) as Hle.
  assert (Hq : 0 <= index / segmentsPerJob <= index).
  { split; [apply Z.div_pos; lia|].
    apply Z.div_le_upper_bound; [lia|]. nia. }
  assert (Hpos : 0 <= segmentsPerJob * (index / segmentsPerJob))
    by (apply Z.mul_nonneg_nonneg; lia).
  assert (Hmin : Go.min_int <= 0) by (unfold Go.min_int; lia).
  cbv zeta.
  rewrite (wrap64_id (index / segmentsPerJob)) by lia.
  rewrite (Z.mul_comm (index / segmentsPerJob)).
  rewrite (wrap64_id (segmentsPerJob * (index / segmentsPerJob))) by lia.
  rewrite (wrap64_id (_ + segmentsPerJob)) by lia.
  rewrite wrap64_id by lia.
  reflexivity.
Qed.

(** X18.  [enqueueSegment] cuts the indices into blocks of [SegmentsPerJob]:
    for a positive block size and an index from 0 on (small enough for
    the block's end to fit an [int]) the job's range is the block of the
    index - it starts at a multiple of the block size, holds the index
    and exactly [SegmentsPerJob] indices - and every index of the block
    gets the same range. *)
Theorem jobRange_block (segmentsPerJob index : Z) :
  0 < segmentsPerJob -> 0 <= index ->
  index + segmentsPerJob <= Go.max_int ->
  exists startIdx endIdx,
    goshl.jobRange segmentsPerJob index = Some (startIdx, endIdx) /\
    startIdx <= index <= endIdx /\
    endIdx - startIdx + 1 = segmentsPerJob /\
    startIdx mod segmentsPerJob = 0 /\
    forall other, startIdx <= other <= endIdx ->
      goshl.jobRange segmentsPerJob other = Some (startIdx, endIdx).
Proof.
  intros Hs Hi Hmax.
  pose proof (Z.mul_div_le index segmentsPerJob Hs) as Hle.
  pose proof (Z.mul_succ_div_gt index segmentsPerJob Hs) as Hgt.
  assert (Hq : 0 <= index / segmentsPerJob) by (apply Z.div_pos; lia).
  assert (Hpos : 0 <= segmentsPerJob * (index / segmentsPerJob))
    by (apply Z.mul_nonneg_nonneg; lia).
  eexists _, _. split; [apply jobRange_nonneg; lia|].
  split; [lia|]. split; [lia|]. split.
  - rewrite Z.mul_comm. apply Z.mod_mul. lia.
  - intros other Ho.
    assert (Hsame : other / segmentsPerJob = index / segmentsPerJob).
    { symmetry. apply (Z.div_unique other segmentsPerJob
                         (index / segmentsPerJob)
                         (other - segmentsPerJob * (index / segmentsPerJob)));
        lia. }
    rewrite jobRange_nonneg; rewrite ?Hsame; [reflexivity | lia..].
Qed.

Lemma jobRange_block_witness :
  exists startIdx endIdx,
    goshl.jobRange 10 25 = Some (startIdx, endIdx) /\
    startIdx <= 25 <= endIdx /\
    endIdx - startIdx + 1 = 10 /\
    startIdx mod 10 = 0 /\
    forall other, startIdx <= other <= endIdx ->
      goshl.jobRange 10 other = Some (startIdx, endIdx).
Proof.
  apply (jobRange_block 10 25); unfold Go.max_int; lia.
Defined.

Lemma setDefaults_fields (st : Z) (td : float) (spj vp ap : Z) :
  goshl.setDefaults (goshl.mkOptions st td spj vp ap) =
  goshl.mkOptions (if st =? 0 then 30 * 1000000000 else st)
    (if (td =? 0)%float then 6.0%float else td)
    (if spj =? 0 then 10 else spj) (if vp =? 0 then 2 else vp)
    (if ap =? 0 then 4 else ap).
Proof.
  unfold goshl.setDefaults.
  cbn [goshl.SegmentTimeout goshl.TargetDuration goshl.SegmentsPerJob
       goshl.VideoPoolSize goshl.AudioPoolSize].
  destruct (st =? 0);
    cbn [goshl.SegmentTimeout goshl.TargetDuration goshl.SegmentsPerJob
         goshl.VideoPoolSize goshl.AudioPoolSize];
    destruct (td =? 0)%float;
    cbn [goshl.SegmentTimeout goshl.TargetDuration goshl.SegmentsPerJob
         goshl.VideoPoolSize goshl.AudioPoolSize];
    destruct (spj =? 0);
    cbn [goshl.SegmentTimeout goshl.TargetDuration goshl.SegmentsPerJob
         goshl.VideoPoolSize goshl.AudioPoolSize];
    destruct (vp =? 0);
    cbn [goshl.SegmentTimeout goshl.TargetDuration goshl.SegmentsPerJob
         goshl.VideoPoolSize goshl.AudioPoolSize];
    destruct (ap =? 0); reflexivity.
Qed.

Lemma default_not_zero (d x : Z) :
  d <> 0 -> (if x =? 0 then d else x) <> 0.
Proof. intros Hd. destruct (Z.eqb_spec x 0); assumption. Qed.

Lemma default_kept (d x : Z) :
  x <> 0 -> (if x =? 0 then d else x) = x.
Proof.
  intros Hx. destruct (Z.eqb_spec x 0); [contradiction | reflexivity].
Qed.

(** X19.  After [setDefaults] none of the five settings is zero - a
    setting that was zero has its default, any other value of each of the
    five, a negative one too, is kept ([TargetDuration] is compared by the
    [==] of [float64]) - and applying the defaults again changes
    nothing. *)
Theorem setDefaults_no_zero (o : goshl.Options) :
  let o' := goshl.setDefaults o in
  goshl.SegmentTimeout o' <> 0 /\
  (goshl.TargetDuration o' =? 0)%float = false /\
  goshl.SegmentsPerJob o' <> 0 /\
  goshl.VideoPoolSize o' <> 0 /\
  goshl.AudioPoolSize o' <> 0 /\
  goshl.setDefaults o' = o' /\
  (goshl.SegmentTimeout o <> 0 ->
   goshl.SegmentTimeout o' = goshl.SegmentTimeout o) /\
  ((goshl.TargetDuration o =? 0)%float = false ->
   goshl.TargetDuration o' = goshl.TargetDuration o) /\
  (goshl.SegmentsPerJob o <> 0 ->
   goshl.SegmentsPerJob o' = goshl.SegmentsPerJob o) /\
  (goshl.VideoPoolSize o <> 0 ->
   goshl.VideoPoolSize o' = goshl.VideoPoolSize o) /\
  (goshl.AudioPoolSize o <> 0 ->
   goshl.AudioPoolSize o' = goshl.AudioPoolSize o).
Proof.
  destruct o as [st td spj vp ap]. cbv zeta.
  rewrite setDefaults_fields.
  cbn [goshl.SegmentTimeout goshl.TargetDuration goshl.SegmentsPerJob
       goshl.VideoPoolSize goshl.AudioPoolSize].
  assert (H1 : (if st =? 0 then 30 * 1000000000 else st) <> 0)
    by (apply default_not_zero; lia).
  assert (H2 : ((if (td =? 0)%float then 6.0%float else td) =? 0)%float
               = false)
    by (destruct (td =? 0)%float eqn:E; [reflexivity | exact E]).
  assert (H3 : (if spj =? 0 then 10 else spj) <> 0)
    by (apply default_not_zero; lia).
  assert (H4 : (if vp =? 0 then 2 else vp) <> 0)
    by (apply default_not_zero; lia).
  assert (H5 : (if ap =? 0 then 4 else ap) <> 0)
    by (apply default_not_zero; lia).
  repeat split; try assumption; try apply default_kept;
    try (intros E; rewrite E; reflexivity).
  rewrite setDefaults_fields, H2.
  rewrite (default_kept _ _ H1), (default_kept _ _ H3),
    (default_kept _ _ H4), (default_kept _ _ H5).
  reflexivity.
Qed.

Lemma setDefaults_SegmentsPerJob (o : goshl.Options) :
  goshl.SegmentsPerJob (goshl.setDefaults o) <> 0.
Proof.
  destruct o as [st td spj vp ap]. rewrite setDefaults_fields.
  apply default_not_zero. lia.
Qed.

Section Controller.
Import goshl.
Context {W : Type} (h : handler W).

Lemma Segment_calls (opts : Options) (sourceURL : string)
    (streamType : StreamType) (renditionName : string) (index : Z) (w : W) :
  SegmentsPerJob opts <> 0 ->
  let info :=
    SegmentData.mk sourceURL index 0 0 0%float renditionName
      (String.eqb streamType StreamVideo) in
  let ran := exec h (Segment opts sourceURL streamType renditionName index)
               w in
  fst (fst ran) <> None /\
  (Spec.coordinatorCalls (snd ran) = [] \/
   Spec.coordinatorCalls (snd ran) = [Coordinator_WaitSegment info] \/
   exists id startIdx endIdx,
     jobRange (SegmentsPerJob opts) index = Some (startIdx, endIdx) /\
     Spec.coordinatorCalls (snd ran) =
       [Coordinator_WaitSegment info;
        Coordinator_Enqueue
          (Job.mk id sourceURL renditionName streamType startIdx endIdx)]).
Proof.
  intros Hs info ran. subst ran. unfold Segment. fold info.
  cbn [bind perform exec].
  destruct (h (Storage_SegmentExists info) w) as [[[|]|err] w1];
    cbn [bind perform exec].
  - destruct (h (Storage_ReadSegment info) w1) as [r w2].
    cbn. split; [discriminate | left; reflexivity].
  - destruct (h (Coordinator_WaitSegment info) w1) as [[err|] w2];
      cbn [bind perform exec].
    + cbn. split; [discriminate | right; left; reflexivity].
    + unfold enqueueSegment.
      destruct (jobRange (SegmentsPerJob opts) index) as [[startIdx endIdx]|]
        eqn:Hrange.
      2: { unfold jobRange in Hrange.
           destruct (Z.eqb_spec (SegmentsPerJob opts) 0);
             [contradiction | discriminate]. }
      cbn [bind perform exec].
      destruct (h uuid_New w2) as [id w3].
      destruct (h (Coordinator_Enqueue _) w3) as [[err|] w4];
        cbn [bind perform exec].
      * cbn. split; [discriminate|]. right. right.
        exists id, startIdx, endIdx. split; reflexivity.
      * destruct (h select_status w4) as [[err| |status] w5];
          cbn [bind perform exec].
        -- cbn. split; [discriminate|]. right. right.
           exists id, startIdx, endIdx. split; reflexivity.
        -- cbn. split; [discriminate|]. right. right.
           exists id, startIdx, endIdx. split; reflexivity.
        -- destruct (SegmentStatus.State status); cbn [bind perform exec].
           ++ destruct (h (Storage_ReadSegment info) w5) as [r w6].
              cbn. split; [discriminate|]. right. right.
              exists id, startIdx, endIdx. split; reflexivity.
           ++ cbn. split; [discriminate|]. right. right.
              exists id, startIdx, endIdx. split; reflexivity.
  - cbn. split; [discriminate | left; reflexivity].
Qed.

End Controller.

(** X20.  [Controller.Segment], with the options as [NewController] leaves
    them, never divides by zero, and deals with the coordinator in one
    order only: it subscribes to the segment's status before it enqueues
    the job, at most once each, and the job it enqueues is for the same
    source, rendition and stream type with the range [enqueueSegment]
    computes for the index.  A segment found in the store, or a failed
    look-up, reaches no coordinator call. *)
Theorem Segment_subscribes_before_enqueue {W : Type}
    (h : goshl.handler W) (o : goshl.Options) (sourceURL : string)
    (streamType : StreamType) (renditionName : string) (index : Z) (w : W) :
  let opts := goshl.setDefaults o in
  let info :=
    SegmentData.mk sourceURL index 0 0 0%float renditionName
      (String.eqb streamType StreamVideo) in
  let ran :=
    goshl.exec h
      (goshl.Segment opts sourceURL streamType renditionName index) w in
  fst (fst ran) <> None /\
  (Spec.coordinatorCalls (snd ran) = [] \/
   Spec.coordinatorCalls (snd ran) = [goshl.Coordinator_WaitSegment info] \/
   exists id startIdx endIdx,
     goshl.jobRange (goshl.SegmentsPerJob opts) index =
       Some (startIdx, endIdx) /\
     Spec.coordinatorCalls (snd ran) =
       [goshl.Coordinator_WaitSegment info;
        goshl.Coordinator_Enqueue
          (Job.mk id sourceURL renditionName streamType startIdx endIdx)]).
Proof.
  intros opts. apply Segment_calls. apply setDefaults_SegmentsPerJob.
Qed.

(** X21.  The stream index [SubtitleVTT] looks up is the position of the first
    subtitle stream with the language asked for, and -1 exactly when no
    stream has it. *)
Theorem subtitleIndex_first (subtitles : list SubtitleStream.t)
    (lang : string) :
  let k := goshl.subtitleIndex subtitles lang 0 in
  (k = -1 /\
   Forall (fun s => SubtitleStream.Language s <> lang) subtitles) \/
  (exists before sub after,
     subtitles = before ++ sub :: after /\
     k = Z.of_nat (List.length before) /\
     SubtitleStream.Language sub = lang /\
     Forall (fun s => SubtitleStream.Language s <> lang) before).
Proof.
  cbv zeta.
  assert (H : forall i,
    (goshl.subtitleIndex subtitles lang i = -1 /\
     Forall (fun s => SubtitleStream.Language s <> lang) subtitles) \/
    (exists before sub after,
       subtitles = before ++ sub :: after /\
       goshl.subtitleIndex subtitles lang i =
         i + Z.of_nat (List.length before) /\
       SubtitleStream.Language sub = lang /\
       Forall (fun s => SubtitleStream.Language s <> lang) before)).
  { induction subtitles as [|sub rest IH]; intros i.
    - left. split; [reflexivity | constructor].
    - cbn [goshl.subtitleIndex].
      destruct (String.eqb_spec (SubtitleStream.Language sub) lang)
        as [E|E].
      + right. exists [], sub, rest. simpl.
        repeat split; [lia | exact E | constructor].
      + destruct (IH (i + 1))
          as [[Hk Hall] | (before & s & after & -> & Hk & Hs & Hb)].
        * left. split; [exact Hk | constructor; assumption].
        * right. exists (sub :: before), s, after.
          repeat split; [rewrite Hk; simpl List.length; lia | exact Hs |
                         constructor; assumption]. }
  destruct (H 0) as [Hl | (before & sub & after & E & Hk & Hs & Hb)].
  - left. exact Hl.
  - right. exists before, sub, after. rewrite Hk. auto.
Qed.

(** *** Hardware acceleration *)

Lemma find_first {A : Type} (p : A -> bool) (l : list A) :
  match find p l with
  | Some x =>
      exists before after,
        l = before ++ x :: after /\ p x = true /\
        Forall (fun a => p a = false) before
  | None => Forall (fun a => p a = false) l
  end.
Proof.
  induction l as [|a l IH]; simpl; [constructor|].
  destruct (p a) eqn:Ha.
  - exists [], l. repeat split; [exact Ha | constructor].
  - destruct (find p l) as [x|].
    + destruct IH as (before & after & -> & Hx & Hb).
      exists (a :: before), after. repeat split; [exact Hx|].
      constructor; assumption.
    + constructor; assumption.
Qed.

Lemma existsb_eqb_In (accel : string) (available : list string) :
  existsb (fun a => String.eqb a accel) available = true <->
  In accel available.
Proof.
  rewrite existsb_exists. split.
  - intros (a & Ha & E). apply String.eqb_eq in E. now subst.
  - intros H. exists accel. split; [exact H | apply String.eqb_refl].
Qed.

(** X22.  [Select] returns the first accelerator of the priority order cuda,
    qsv, videotoolbox, vaapi that is available - whatever the order of the
    available ones - and "none" when none of the four is. *)
Theorem Select_first_available (available : list Accelerator) :
  let chosen := hwaccel.Select available in
  (exists before after,
     hwaccel.priority = before ++ chosen :: after /\
     In chosen available /\
     Forall (fun a => ~ In a available) before) \/
  (chosen = AccelNone /\
   Forall (fun a => ~ In a available) hwaccel.priority).
Proof.
  unfold hwaccel.Select.
  pose proof (find_first
                (fun accel => existsb (fun a => String.eqb a accel) available)
                hwaccel.priority) as H.
  assert (Hneg : forall l,
            Forall (fun a => existsb (fun a0 => String.eqb a0 a) available
                             = false) l ->
            Forall (fun a => ~ In a available) l).
  { intros l Hl. eapply Forall_impl; [|exact Hl].
    intros a Ha Hin. apply existsb_eqb_In in Hin. simpl in Ha. congruence. }
  cbv beta in H.
  match goal with
  | |- context [find ?p hwaccel.priority] =>
      destruct (find p hwaccel.priority) as [x|]
  end; cbv zeta.
  - destruct H as (before & after & E & Hx & Hb).
    left. exists before, after. split; [exact E|].
    split; [apply existsb_eqb_In; exact Hx | apply Hneg; exact Hb].
  - right. split; [reflexivity | apply Hneg; exact H].
Qed.

(** X23.  [DetectBest] picks the configuration by priority, not by the order
    in which [Detect] lists what it found: cuda before qsv before
    videotoolbox before vaapi, each only when the encoder reports both the
    acceleration method and its H.264 encoder, and software encoding
    otherwise or when a query fails.  The encoder of the configuration
    picked is [libx264] or one the encoder query listed. *)
Theorem DetectBest_by_priority
    (hwaccels encoders : Go.result (string -> bool)) :
  let config := hwaccel.DetectBest hwaccels encoders in
  HWAccelConfig.Accelerator config =
    match hwaccels, encoders with
    | Go.Ok hw, Go.Ok enc =>
        if hw "cuda"%string && enc "h264_nvenc"%string then AccelCUDA
        else if hw "qsv"%string && enc "h264_qsv"%string then AccelQSV
        else if hw "videotoolbox"%string && enc "h264_videotoolbox"%string
             then AccelVideoToolbox
        else if hw "vaapi"%string && enc "h264_vaapi"%string then AccelVAAPI
        else AccelNone
    | _, _ => AccelNone
    end /\
  (HWAccelConfig.Encoder config = "libx264"%string \/
   exists enc, encoders = Go.Ok enc /\
               enc (HWAccelConfig.Encoder config) = true).
Proof.
  unfold hwaccel.DetectBest, hwaccel.Detect.
  destruct hwaccels as [hw|e]; [|split; [reflexivity | left; reflexivity]].
  destruct encoders as [enc|e]; [|split; [reflexivity | left; reflexivity]].
  cbv zeta.
  destruct (hw "cuda"%string); destruct (enc "h264_nvenc"%string) eqn:E1;
    destruct (hw "qsv"%string); destruct (enc "h264_qsv"%string) eqn:E2;
    destruct (hw "videotoolbox"%string);
    destruct (enc "h264_videotoolbox"%string) eqn:E3;
    destruct (hw "vaapi"%string); destruct (enc "h264_vaapi"%string) eqn:E4;
    (split; [reflexivity|]);
    first [ left; reflexivity
          | right; exists enc; split; [reflexivity|]; assumption ].
Qed.

(** X24.  Whatever accelerator name it is given, [NewConfig] returns a
    configuration whose encode flags select its own encoder, and that is
    for the accelerator named or, for a name it does not know, for
    software encoding; only the software configuration has no decode
    flags. *)
Theorem NewConfig_consistent (accel : Accelerator) :
  let config := hwaccel.NewConfig accel in
  (exists rest,
     HWAccelConfig.EncodeFlags config =
       "-c:v"%string :: HWAccelConfig.Encoder config :: rest) /\
  (HWAccelConfig.Accelerator config = accel \/
   HWAccelConfig.Accelerator config = AccelNone /\
   ~ In accel hwaccel.priority) /\
  (HWAccelConfig.DecodeFlags config = [] <->
   HWAccelConfig.Accelerator config = AccelNone).
Proof.
  unfold hwaccel.NewConfig.
  destruct (String.eqb_spec accel AccelCUDA) as [->|H1].
  { cbn. split; [eauto|]. split; [auto|]. split; discriminate. }
  destruct (String.eqb_spec accel AccelVideoToolbox) as [->|H2].
  { cbn. split; [eauto|]. split; [auto|]. split; discriminate. }
  destruct (String.eqb_spec accel AccelVAAPI) as [->|H3].
  { cbn. split; [eauto|]. split; [auto|]. split; discriminate. }
  destruct (String.eqb_spec accel AccelQSV) as [->|H4].
  { cbn. split; [eauto|]. split; [auto|]. split; discriminate. }
  cbn. split; [eauto|]. split; [|tauto].
  right. split; [reflexivity|].
  intros [E|[E|[E|[E|[]]]]]; congruence.
Qed.

(** *** The media playlist *)

Lemma fold_maxDuration (segments : list Segment.t) (m : float) :
  Spec.same m m ->
  let r :=
    fold_left
      (fun maxDuration seg =>
         if (maxDuration <? Segment.Duration seg)%float
         then Segment.Duration seg else maxDuration) segments m in
  (r = m \/ In r (map Segment.Duration segments)) /\
  Spec.same r r /\ (m <=? r)%float = true /\
  Forall (fun seg =>
            Spec.same (Segment.Duration seg) (Segment.Duration seg) ->
            (Segment.Duration seg <=? r)%float = true) segments.
Proof.
  revert m. induction segments as [|seg rest IH]; intros m Hm; cbv zeta.
  - simpl. repeat split; auto using leb_refl.
  - cbn [fold_left map].
    destruct (m <? Segment.Duration seg)%float eqn:Hlt.
    + destruct (ltb_same _ _ Hlt) as [_ Hd].
      destruct (IH (Segment.Duration seg) Hd) as (Hin & Hr & Hle & Hall).
      split; [right; destruct Hin as [->|Hin]; [left; reflexivity |
                                               right; exact Hin]|].
      split; [exact Hr|].
      split; [eapply leb_trans; [apply ltb_leb; exact Hlt | exact Hle]|].
      constructor; [intros _; exact Hle | exact Hall].
    + destruct (IH m Hm) as (Hin & Hr & Hle & Hall).
      split; [destruct Hin as [->|Hin]; [left; reflexivity |
                                        right; right; exact Hin]|].
      split; [exact Hr|]. split; [exact Hle|].
      constructor; [|exact Hall].
      intros Hd. eapply leb_trans; [|exact Hle].
      apply not_ltb_leb; assumption.
Qed.

(** X25.  The duration [Variant] derives its target duration from is 0 or the
    duration of one of the segments, and no segment lasts longer (a
    duration that is not a number is passed over). *)
Theorem maxDurationOf_greatest (segments : list Segment.t) :
  let longest := playlist.maxDurationOf segments in
  (longest = 0%float \/ In longest (map Segment.Duration segments)) /\
  (0 <=? longest)%float = true /\
  Forall (fun seg =>
            Spec.same (Segment.Duration seg) (Segment.Duration seg) ->
            (Segment.Duration seg <=? longest)%float = true) segments.
Proof.
  destruct (fold_maxDuration segments 0%float eq_refl)
    as (Hin & _ & Hle & Hall).
  unfold playlist.maxDurationOf. cbv zeta. auto.
Qed.

Lemma oneLine_zeros (n : nat) : Spec.oneLine (Go.zeros n) = true.
Proof. induction n as [|n IH]; [reflexivity | exact IH]. Qed.

Lemma oneLine_fixedDigits (prec : nat) (scaled : Z) :
  Spec.oneLine (Go.fixedDigits prec scaled) = true.
Proof.
  unfold Go.fixedDigits. cbv zeta. destruct prec as [|prec].
  - apply oneLine_itoa.
  - rewrite !oneLine_app, !oneLine_itoa, oneLine_zeros. reflexivity.
Qed.

Lemma oneLine_formatFixed (prec : nat) (f : float) :
  Spec.oneLine (Go.formatFixed prec f) = true.
Proof.
  unfold Go.formatFixed. destruct (Prim2SF f) as [s|s| |s m e].
  - rewrite oneLine_app, oneLine_fixedDigits. destruct s; reflexivity.
  - destruct s; reflexivity.
  - reflexivity.
  - cbv zeta. rewrite oneLine_app, oneLine_fixedDigits.
    destruct s; reflexivity.
Qed.

Section VariantText.
Import playlist.
Variables (g : Generator) (sourceURL rendition : string)
  (streamType : StreamType).

Lemma fold_segmentLines (segments : list Segment.t) (b : string) :
  fold_left
    (fun b seg =>
       let b := (b ++ extinf seg)%string in
       (b ++ (PathGenerator.Segment (pathGen g) sourceURL rendition
                streamType (Segment.Index seg) ++ Go.nl))%string)
    segments b =
  (b ++ Spec.joinLines
          (flat_map (Spec.segmentLines g sourceURL rendition streamType)
             segments))%string.
Proof.
  revert b. induction segments as [|seg rest IH]; intros b;
    cbn [fold_left flat_map app Spec.joinLines fold_right Spec.segmentLines].
  - now rewrite append_nil_r.
  - cbv zeta. rewrite IH. unfold extinf. rewrite !append_assoc.
    reflexivity.
Qed.

Lemma Variant_text (segments : list Segment.t) :
  Variant g sourceURL rendition streamType segments =
  Spec.joinLines
    (Spec.variantLines g sourceURL rendition streamType segments).
Proof.
  unfold Variant, Spec.variantLines. cbv zeta.
  rewrite fold_segmentLines, !joinLines_app.
  cbn [Spec.joinLines fold_right]. rewrite ?append_assoc. reflexivity.
Qed.

End VariantText.

(** X26.  The text [Variant] returns is made of lines, each ended by a line
    feed: the five header lines with the target duration - the longest
    segment duration, rounded up - and a blank line, then for every
    segment, in order, the [#EXTINF] line with its duration to three
    decimals and the line with its URI, then [#EXT-X-ENDLIST].  Read back
    line by line it gives exactly these lines when no segment URI holds a
    line feed. *)
Theorem Variant_lines (g : playlist.Generator)
    (sourceURL rendition : string) (streamType : StreamType)
    (segments : list Segment.t) :
  Forall (fun seg =>
            Spec.oneLine
              (PathGenerator.Segment (playlist.pathGen g) sourceURL
                 rendition streamType (Segment.Index seg)) = true)
    segments ->
  playlist.Variant g sourceURL rendition streamType segments =
    Spec.joinLines
      (Spec.variantLines g sourceURL rendition streamType segments) /\
  Spec.lines (playlist.Variant g sourceURL rendition streamType segments) =
    Spec.variantLines g sourceURL rendition streamType segments ++
    [EmptyString] /\
  List.length (Spec.variantLines g sourceURL rendition streamType segments)
    = (7 + 2 * List.length segments)%nat.
Proof.
  intros Huri. split; [apply Variant_text|]. split.
  - rewrite Variant_text. apply lines_joinLines.
    unfold Spec.variantLines. apply Forall_app. split.
    + repeat constructor. rewrite oneLine_app, oneLine_itoa. reflexivity.
    + apply Forall_app. split; [|repeat constructor].
      induction Huri as [|seg rest Hseg _ IH];
        cbn [flat_map Spec.segmentLines app]; [constructor|].
      constructor.
      * rewrite !oneLine_app, oneLine_formatFixed. reflexivity.
      * constructor; [exact Hseg | exact IH].
  - unfold Spec.variantLines. rewrite !length_app.
    cbn [List.length].
    assert (Hlen : List.length
                     (flat_map
                        (Spec.segmentLines g sourceURL rendition streamType)
                        segments) = (2 * List.length segments)%nat).
    { induction segments as [|seg rest IH];
        cbn [flat_map Spec.segmentLines app List.length]; [reflexivity|].
      rewrite IH; [lia|]. inversion Huri; assumption. }
    rewrite Hlen. lia.
Qed.

Lemma Variant_lines_witness :
  let g :=
    playlist.mkGenerator
      (PathGenerator.mk (fun _ => EmptyString) (fun _ _ _ => EmptyString)
         (fun mediaID rendition _ index =>
            ("/" ++ mediaID ++ "/" ++ rendition ++ "/" ++ Go.itoa index ++
             ".ts")%string)
         (fun _ => EmptyString) (fun _ _ => EmptyString)
         (fun _ _ => EmptyString)) in
  let segments :=
    [Segment.mk 0 0 6.5 6.5; Segment.mk 1 6.5 10 3.5]%float in
  Spec.lines (playlist.Variant g "media" "720p" StreamVideo segments) =
    ["#EXTM3U"; "#EXT-X-VERSION:4"; "#EXT-X-TARGETDURATION:7";
     "#EXT-X-PLAYLIST-TYPE:VOD"; "#EXT-X-MEDIA-SEQUENCE:0"; EmptyString;
     "#EXTINF:6.500,"; "/media/720p/0.ts";
     "#EXTINF:3.500,"; "/media/720p/1.ts";
     "#EXT-X-ENDLIST"; EmptyString]%string.
Proof.
  intros g segments.
  destruct (Variant_lines g "media" "720p" StreamVideo segments)
    as (_ & Hlines & _).
  - repeat constructor.
  - rewrite Hlines. vm_compute. reflexivity.
Defined.

(** *** The arguments of the encoder *)

Lemma sub_self_zero (x : float) :
  Spec.finite x = true -> Prim2SF (x - x) = S754_zero false.
Proof.
  unfold Spec.finite. rewrite sub_spec. unfold SF64sub, SFsub.
  destruct (Prim2SF x) as [s|s| |s m e]; try discriminate; intros _.
  - destruct s; reflexivity.
  - rewrite Z.sub_diag. reflexivity.
Qed.

Lemma formatFixed_sub_self (x : float) :
  Spec.finite x = true -> Go.formatFixed 6 (x - x) = "0.000000"%string.
Proof.
  intros Hx. unfold Go.formatFixed. rewrite (sub_self_zero x Hx).
  reflexivity.
Qed.

Lemma fixedDigits_nonempty (prec : nat) (scaled : Z) :
  Go.fixedDigits prec scaled <> EmptyString.
Proof.
  unfold Go.fixedDigits. cbv zeta.
  pose proof (itoa_nonempty (scaled / 10 ^ Z.of_nat prec)) as H.
  destruct prec; [exact H|].
  destruct (Go.itoa (scaled / 10 ^ Z.of_nat (S prec)));
    [contradiction | discriminate].
Qed.

Lemma formatFixed_nonempty (prec : nat) (f : float) :
  Go.formatFixed prec f <> EmptyString.
Proof.
  unfold Go.formatFixed.
  destruct (Prim2SF f) as [s|s| |s m e]; cbv zeta;
    try (destruct s; discriminate); try discriminate.
  - pose proof (fixedDigits_nonempty prec 0) as H.
    destruct s; [discriminate|]. exact H.
  - match goal with |- context [Go.fixedDigits prec ?v] =>
      pose proof (fixedDigits_nonempty prec v) as H end.
    destruct s; [discriminate|]. exact H.
Qed.

Lemma Join_nonempty (e : string) (rest : list string) (sep : string) :
  e <> EmptyString -> Go.Join (e :: rest) sep <> EmptyString.
Proof.
  intros He. destruct rest as [|e' rest]; [exact He|].
  cbn [Go.Join]. destruct e; [contradiction | discriminate].
Qed.

Lemma formatSegmentTimes_empty (segments : list Segment.t) :
  ffmpeg.formatSegmentTimes segments = EmptyString <->
  (List.length segments <= 1)%nat.
Proof.
  destruct segments as [|first [|second rest]]; simpl List.length.
  - split; [lia | reflexivity].
  - split; [lia | reflexivity].
  - split; [|lia]. intros H. exfalso. revert H.
    cbn [ffmpeg.formatSegmentTimes map]. apply Join_nonempty.
    apply formatFixed_nonempty.
Qed.

Lemma formatSegmentTimesWithOffset_empty (segments : list Segment.t)
    (actualKeyframe : float) :
  ffmpeg.formatSegmentTimesWithOffset segments actualKeyframe = EmptyString
  <-> (List.length segments <= 1)%nat.
Proof.
  destruct segments as [|first [|second rest]]; simpl List.length.
  - split; [lia | reflexivity].
  - split; [lia | reflexivity].
  - split; [|lia]. intros H. exfalso. revert H.
    cbn [ffmpeg.formatSegmentTimesWithOffset map]. apply Join_nonempty.
    apply formatFixed_nonempty.
Qed.

(** X27.  The key frame times of a transcode start at the first segment:
    when the start of the first segment is a number, [formatKeyframeTimes]
    writes 0.000000 first and then, for the later segments, exactly the
    split points [formatSegmentTimes] writes. *)
Theorem formatKeyframeTimes_from_zero (first : Segment.t)
    (rest : list Segment.t) :
  Spec.finite (Segment.Start first) = true ->
  ffmpeg.formatKeyframeTimes (first :: rest) =
    match rest with
    | [] => "0.000000"%string
    | _ => ("0.000000," ++ ffmpeg.formatSegmentTimes (first :: rest))%string
    end.
Proof.
  intros Hx. unfold ffmpeg.formatKeyframeTimes, ffmpeg.formatSegmentTimes.
  cbv zeta. cbn [map]. rewrite (formatFixed_sub_self _ Hx).
  destruct rest as [|second rest]; reflexivity.
Qed.

Lemma formatKeyframeTimes_from_zero_witness :
  ffmpeg.formatKeyframeTimes
    [Segment.mk 0 12 18.5 6.5; Segment.mk 1 18.5 24 5.5]%float =
  ("0.000000," ++
   ffmpeg.formatSegmentTimes
     [Segment.mk 0 12 18.5 6.5; Segment.mk 1 18.5 24 5.5]%float)%string.
Proof.
  apply (formatKeyframeTimes_from_zero (Segment.mk 0 12 18.5 6.5)
           [Segment.mk 1 18.5 24 5.5]%float).
  reflexivity.
Defined.

Lemma segmenterArgs_shape (b : ffmpeg.CommandBuilder) (dir : string)
    (startSeg : Segment.t) (times : string) :
  exists front,
    ffmpeg.segmenterArgs b dir startSeg times =
    front ++
    ["-segment_start_number"%string; Go.itoa (Segment.Index startSeg)] ++
    (if String.eqb times EmptyString then []
     else ["-segment_times"%string; times]) ++
    [ffmpeg.filepath_Join b dir "segment-%05d.ts"].
Proof.
  unfold ffmpeg.segmenterArgs. cbv zeta.
  eexists ["-f"; "segment"; "-segment_time_delta"; "0.05";
           "-segment_format"; "mpegts"; "-segment_list_type"; "flat";
           "-segment_list"; "pipe:1"]%string.
  destruct (String.eqb times EmptyString); reflexivity.
Qed.

Lemma Video_shape (b : ffmpeg.CommandBuilder) (p : transcode.VideoParams)
    (startSeg : Segment.t) (rest : list Segment.t) :
  transcode.vSegments p = startSeg :: rest ->
  exists front times,
    ffmpeg.Video b p =
      front ++
      ["-segment_start_number"%string; Go.itoa (Segment.Index startSeg)] ++
      (match rest with [] => [] | _ => ["-segment_times"%string; times] end)
      ++ [ffmpeg.filepath_Join b (transcode.vOutputDir p) "segment-%05d.ts"]
    /\ (rest <> [] -> times <> EmptyString).
Proof.
  intros Hsegs. unfold ffmpeg.Video. rewrite Hsegs. cbv zeta.
  match goal with
  | |- context [ffmpeg.segmenterArgs b ?d ?s ?t] =>
      destruct (segmenterArgs_shape b d s t) as (front & E);
      set (times := t) in *
  end.
  rewrite E. clear E.
  assert (Htimes : times = EmptyString <-> (List.length rest <= 0)%nat).
  { subst times.
    destruct (_ && _).
    - rewrite formatSegmentTimesWithOffset_empty. simpl. lia.
    - rewrite formatSegmentTimes_empty. simpl. lia. }
  match goal with
  | |- exists _ _, ?pre ++ _ = _ /\ _ => exists (pre ++ front), times
  end.
  split.
  - rewrite <- (app_assoc _ front). f_equal. f_equal. f_equal.
    destruct (String.eqb_spec times EmptyString) as [E|E].
    + apply Htimes in E. destruct rest; [reflexivity | simpl in E; lia].
    + destruct rest; [|reflexivity].
      exfalso. apply E. apply Htimes. simpl. lia.
  - intros Hrest E. apply Htimes in E.
    destruct rest; [contradiction | simpl in E; lia].
Qed.

Lemma Audio_shape (b : ffmpeg.CommandBuilder) (p : transcode.AudioParams)
    (startSeg : Segment.t) (rest : list Segment.t) :
  transcode.aSegments p = startSeg :: rest ->
  exists front times,
    ffmpeg.Audio b p =
      front ++
      ["-segment_start_number"%string; Go.itoa (Segment.Index startSeg)] ++
      (match rest with [] => [] | _ => ["-segment_times"%string; times] end)
      ++ [ffmpeg.filepath_Join b (transcode.aOutputDir p) "segment-%05d.ts"]
    /\ (rest <> [] -> times <> EmptyString).
Proof.
  intros Hsegs. unfold ffmpeg.Audio. rewrite Hsegs. cbv zeta.
  match goal with
  | |- context [ffmpeg.segmenterArgs b ?d ?s ?t] =>
      destruct (segmenterArgs_shape b d s t) as (front & E);
      set (times := t) in *
  end.
  rewrite E. clear E.
  assert (Htimes : times = EmptyString <-> (List.length rest <= 0)%nat).
  { subst times. rewrite formatSegmentTimes_empty. simpl. lia. }
  match goal with
  | |- exists _ _, ?pre ++ _ = _ /\ _ => exists (pre ++ front), times
  end.
  split.
  - rewrite <- (app_assoc _ front). f_equal. f_equal. f_equal.
    destruct (String.eqb_spec times EmptyString) as [E|E].
    + apply Htimes in E. destruct rest; [reflexivity | simpl in E; lia].
    + destruct rest; [|reflexivity].
      exfalso. apply E. apply Htimes. simpl. lia.
  - intros Hrest E. apply Htimes in E.
    destruct rest; [contradiction | simpl in E; lia].
Qed.

(** X28.  Both encoder commands are empty without segments and otherwise
    end the same way: the number of the first segment file is the index
    of the first segment, split points follow exactly when there is more
    than one segment - they are never an empty argument - and the last
    argument is the file name pattern [segment-%05d.ts] in the output
    directory. *)
Theorem commands_number_segments (b : ffmpeg.CommandBuilder) :
  (forall p : transcode.VideoParams,
     match transcode.vSegments p with
     | [] => ffmpeg.Video b p = []
     | startSeg :: rest =>
         exists front times,
           ffmpeg.Video b p =
             front ++
             ["-segment_start_number"%string;
              Go.itoa (Segment.Index startSeg)] ++
             (match rest with
              | [] => []
              | _ => ["-segment_times"%string; times]
              end) ++
             [ffmpeg.filepath_Join b (transcode.vOutputDir p)
                "segment-%05d.ts"] /\
           (rest <> [] -> times <> EmptyString)
     end) /\
  (forall p : transcode.AudioParams,
     match transcode.aSegments p with
     | [] => ffmpeg.Audio b p = []
     | startSeg :: rest =>
         exists front times,
           ffmpeg.Audio b p =
             front ++
             ["-segment_start_number"%string;
              Go.itoa (Segment.Index startSeg)] ++
             (match rest with
              | [] => []
              | _ => ["-segment_times"%string; times]
              end) ++
             [ffmpeg.filepath_Join b (transcode.aOutputDir p)
                "segment-%05d.ts"] /\
           (rest <> [] -> times <> EmptyString)
     end).
Proof.
  split; intros p.
  - destruct (transcode.vSegments p) as [|startSeg rest] eqn:E.
    + unfold ffmpeg.Video. rewrite E. reflexivity.
    + apply Video_shape. exact E.
  - destruct (transcode.aSegments p) as [|startSeg rest] eqn:E.
    + unfold ffmpeg.Audio. rewrite E. reflexivity.
    + apply Audio_shape. exact E.
Qed.

(** X29.  For a rendition that is streamed directly the video command
    does not depend on the acceleration configuration: the stream is
    copied, and neither decode nor encode flags of the configuration are
    used. *)
Theorem Video_direct_stream_copies (hw hw' : HWAccelConfig.t)
    (scale scale' : string -> Z -> Z -> string)
    (join : string -> string -> string) (p : transcode.VideoParams) :
  VideoRendition.Method (transcode.vRendition p) = DirectStream ->
  ffmpeg.Video (ffmpeg.mkCommandBuilder hw scale join) p =
  ffmpeg.Video (ffmpeg.mkCommandBuilder hw' scale' join) p /\
  ffmpeg.videoEncodeArgs (ffmpeg.mkCommandBuilder hw scale join) p =
    ["-c:v"; "copy"]%string.
Proof.
  intros Hm. unfold ffmpeg.Video, ffmpeg.videoEncodeArgs.
  rewrite Hm. split; reflexivity.
Qed.

Lemma Video_direct_stream_copies_witness :
  let p :=
    transcode.mkVideoParams "input.mp4" 0
      (VideoRendition.mk "1080p" 1920 1080 8000000 DirectStream)
      [Segment.mk 5 30 36 6; Segment.mk 6 36 42.5 6.5]%float "/tmp/out"
      29.5%float in
  let join dir name := (dir ++ "/" ++ name)%string in
  ffmpeg.Video
    (ffmpeg.mkCommandBuilder (hwaccel.NewConfig AccelCUDA)
       (fun _ _ _ => EmptyString) join) p =
  ffmpeg.Video
    (ffmpeg.mkCommandBuilder (hwaccel.NewConfig AccelNone)
       (fun _ _ _ => EmptyString) join) p.
Proof.
  intros p join.
  exact (proj1 (Video_direct_stream_copies (hwaccel.NewConfig AccelCUDA)
                  (hwaccel.NewConfig AccelNone) (fun _ _ _ => EmptyString)
                  (fun _ _ _ => EmptyString) join p eq_refl)).
Defined.

(** X30.  With the encoder arguments built by [CommandBuilder.Video], a
    worker that [processJob] starts with the order to skip its first
    segment runs an encoder that numbers its files from the index before
    the job's range: the file the worker drops is the one segment outside
    the range. *)
Theorem processJob_skip_numbering {W : Type} (h : effect.handler W)
    (p : transcode.Pool) (b : ffmpeg.CommandBuilder) (job : Job.t) (w : W)
    (e : effect.event) (args : list string) (url rend tmpDir : string)
    (isVideo : bool) :
  transcode.cmdBuilder_Video p = ffmpeg.Video b ->
  In e (snd (effect.exec h (transcode.processJob p job) w)) ->
  effect.made e =
    effect.Worker_Start args url rend isVideo tmpDir true ->
  exists front back,
    args =
      front ++
      ["-segment_start_number"%string; Go.itoa (Job.StartIndex job - 1)] ++
      back.
Proof.
  intros Hb Hin Hmade.
  destruct (processJob_started_skip h p job w e args url rend tmpDir
              isVideo Hin Hmade)
    as (_ & _ & params & seg & more & -> & Hsegs & Hidx).
  rewrite Hb.
  destruct (Video_shape b params seg more Hsegs) as (front & times & E & _).
  rewrite E, Hidx. eauto.
Qed.

Lemma processJob_skip_numbering_witness :
  let job := Job.mk "job-1" "file:///source" "1080p" StreamVideo 2 4 in
  let meta :=
    Metadata.mk 60 [0; 6; 12; 18; 24; 30; 36; 42; 48; 54]%float
      (VideoStream.mk 0 "h264" 1920 1080 10000000 30) [] [] in
  let b :=
    ffmpeg.mkCommandBuilder (hwaccel.NewConfig AccelNone)
      (fun _ _ _ => "scale=1920:1080"%string)
      (fun dir name => (dir ++ "/" ++ name)%string) in
  let p :=
    transcode.mkPool StreamVideo (ffmpeg.Video b) (fun _ => [])
      (fun _ => Go.Ok meta) in
  exists e front back,
    In e (snd (effect.exec Spec.quiet (transcode.processJob p job) tt)) /\
    effect.made e =
      effect.Worker_Start
        (front ++ ["-segment_start_number"; "1"]%string ++ back)
        "file:///source" "1080p" true "/tmp/transcode-1" true.
Proof.
  intros job meta b p.
  set (tr := snd (effect.exec Spec.quiet (transcode.processJob p job) tt)).
  assert (He : exists e, nth_error tr 2 = Some e) by (vm_compute; eauto).
  destruct He as [e He].
  assert (Hin : In e tr) by (eapply nth_error_In; exact He).
  assert (Hmade : exists args,
            effect.made e =
            effect.Worker_Start args "file:///source" "1080p" true
              "/tmp/transcode-1" true).
  { vm_compute in He. injection He as <-. eexists. reflexivity. }
  destruct Hmade as [args Hmade].
  destruct (processJob_skip_numbering Spec.quiet p b job tt e args
              "file:///source" "1080p" "/tmp/transcode-1" true eq_refl Hin
              Hmade) as (front & back & ->).
  exists e, front, back. split; [exact Hin | exact Hmade].
Defined.
